(** * ssm.util: label alignment, Adam with convergence check, random rotation

    A shallow embedding of [src/ssm/util.py].  numpy integer arrays are lists
    of [Z]; Python exceptions are the [Raise] branch of [result]; the
    overlap matrix is a list of rows together with its shape; numpy's
    floating-point arrays are lists over a numeric interface. *)

From Stdlib Require Import ZArith List Reals Lra Psatz RNsatz.
From stdpp Require Import base option list gmap sets strings.

Local Open Scope Z_scope.

(** ** Python exceptions and fallible results *)

Inductive exn : Type :=
  | NameError (name : string)
  | TypeError (msg : string)
  | ValueError (msg : string)
  | AssertionError (msg : string).

Inductive result (A : Type) : Type :=
  | Ok (a : A)
  | Raise (e : exn).
Arguments Ok {A} a.
Arguments Raise {A} e.

Global Instance result_ret : MRet result := λ A a, Ok a.
Global Instance result_bind : MBind result := λ A B k r,
  match r with
  | Ok a => k a
  | Raise e => Raise e
  end.

(** [assert cond, msg] *)
Definition py_assert (cond : bool) (msg : string) : result unit :=
  if cond then Ok tt else Raise (AssertionError msg).

(** ** numpy on one-dimensional integer arrays

    A label array has dtype int (the assertion on line 34), which is
    numpy's int64: its entries are integers of [-2^63, 2^63), and arithmetic
    on them wraps around. *)

Definition int64 (x : Z) : Prop :=
  -9223372036854775808 ≤ x < 9223372036854775808.

(** The value of an int64 operation whose exact result is [x]. *)
Definition int64_wrap (x : Z) : Z :=
  (x + 9223372036854775808) mod 18446744073709551616 - 9223372036854775808.

(** [a.min()] and [a.max()]: a reduction over an empty array has no identity. *)
Definition np_min (a : list Z) : result Z :=
  match a with
  | [] => Raise (ValueError "zero-size array to reduction operation minimum which has no identity")
  | x :: l => Ok (foldl Z.min x l)
  end.

Definition np_max (a : list Z) : result Z :=
  match a with
  | [] => Raise (ValueError "zero-size array to reduction operation maximum which has no identity")
  | x :: l => Ok (foldl Z.max x l)
  end.

(** [a == k], elementwise. *)
Definition np_eq (a : list Z) (k : Z) : list bool := map (λ x, Z.eqb x k) a.

(** [a & b] on boolean arrays of one shape. *)
Definition np_and (a b : list bool) : list bool := zip_with andb a b.

(** [np.sum] of a boolean array: the number of [True] entries. *)
Definition np_sum_bool (a : list bool) : Z :=
  foldl (λ acc (b : bool), if b then acc + 1 else acc) 0 a.

(** ** Matrices with an explicit shape

    The overlap matrix is a float array holding counts; the counts are
    kept as integers. *)

Record matrix : Type := Matrix {
  nrows : nat;
  ncols : nat;
  rows_of : list (list Z)
}.

(** [np.zeros((K1, K2))]; a negative dimension is refused.  Memory is not
    bounded in the model: an allocation that a machine refuses for its
    size is outside of it. *)
Definition np_zeros (K1 K2 : Z) : result matrix :=
  if (K1 <? 0) || (K2 <? 0)
  then Raise (ValueError "negative dimensions are not allowed")
  else Ok (Matrix (Z.to_nat K1) (Z.to_nat K2)
                  (replicate (Z.to_nat K1) (replicate (Z.to_nat K2) 0))).

(** [M[i, j]] for indices inside the shape (0 outside, never read by the code). *)
Definition mget (M : matrix) (i j : nat) : Z :=
  default 0 (rows_of M !! i ≫= (.!! j)).

(** [M[i, j] = v], in place. *)
Definition mset (M : matrix) (i j : nat) (v : Z) : matrix :=
  Matrix (nrows M) (ncols M) (alter (<[j := v]>) i (rows_of M)).

(** [-M] *)
Definition mneg (M : matrix) : matrix :=
  Matrix (nrows M) (ncols M) (map (map Z.opp) (rows_of M)).

(** [np.sum(M)] *)
Definition msum (M : matrix) : Z :=
  foldr Z.add 0 (map (foldr Z.add 0) (rows_of M)).

(** [range(n)]; empty for [n <= 0]. *)
Definition py_range (n : Z) : list nat := seq 0 (Z.to_nat n).

(** ** compute_state_overlap *)

Definition compute_state_overlap (z1 z2 : list Z) (K1 K2 : option Z)
  : result matrix :=
  (* assert z1.dtype == int and z2.dtype == int: integer arrays by typing *)
  (* assert z1.shape == z2.shape: the sequences are one-dimensional *)
  py_assert (bool_decide (length z1 = length z2)) "";;
  (* assert z1.min() >= 0 and z2.min() >= 0 *)
  mn1 ← np_min z1 ;
  ok ← (if 0 <=? mn1 then mn2 ← np_min z2 ; Ok (0 <=? mn2) else Ok false) ;
  py_assert ok "";;
  (* z.max() is an int64, and so is z.max() + 1 *)
  K1 ← match K1 with
        | None => mx ← np_max z1 ; Ok (int64_wrap (mx + 1))
        | Some k => Ok k
        end ;
  K2 ← match K2 with
        | None => mx ← np_max z2 ; Ok (int64_wrap (mx + 1))
        | Some k => Ok k
        end ;
  overlap ← np_zeros K1 K2 ;
  (* for k1 in range(K1): for k2 in range(K2): overlap[k1, k2] = ... *)
  Ok (foldl (λ overlap k1,
        foldl (λ overlap k2,
          mset overlap k1 k2
            (np_sum_bool (np_and (np_eq z1 (Z.of_nat k1)) (np_eq z2 (Z.of_nat k2)))))
          overlap (py_range K2))
        overlap (py_range K1)).

(** ** Vocabulary of the statements about the overlap matrix *)

(** The count of §3 of the specification, by positions: the number of
    time steps [t] at which sequence 1 carries [k1] and sequence 2 carries
    [k2]. *)
Definition cooccurrences (z1 z2 : list Z) (k1 k2 : Z) : Z :=
  Z.of_nat (length (filter
    (λ t, z1 !! t = Some k1 ∧ z2 !! t = Some k2) (seq 0 (length z1)))).

(** What a defaulted [K] is on a sequence without negative labels: one
    more than the largest label, in int64 arithmetic.  It is negative when
    the largest label is 2^63 - 1. *)
Definition default_K (z : list Z) : Z := int64_wrap (foldr Z.max 0 z + 1).

(** What [K] resolves to on a non-empty sequence. *)
Definition resolve_K (K : option Z) (z : list Z) : Z :=
  match K with
  | None => default_K z
  | Some k => k
  end.

(** Label sequences the function accepts: one length, at least one entry
    (the reductions [min] and [max] need one), no negative label. *)
Definition valid_labels (z1 z2 : list Z) : Prop :=
  z1 ≠ [] ∧ length z1 = length z2 ∧ Forall (λ x, 0 ≤ x) z1 ∧ Forall (λ x, 0 ≤ x) z2.

(** Both sequences are arrays of dtype int. *)
Definition int64_labels (z1 z2 : list Z) : Prop :=
  Forall int64 z1 ∧ Forall int64 z2.

(** A matrix whose rows fit its shape. *)
Definition matrix_wf (M : matrix) : Prop :=
  length (rows_of M) = nrows M ∧ Forall (λ r, length r = ncols M) (rows_of M).

(** The matrix with entry [f i j] at row [i], column [j]. *)
Definition tabulate (n m : nat) (f : nat → nat → Z) : matrix :=
  Matrix n m (map (λ i, map (f i) (seq 0 m)) (seq 0 n)).

(** The value the loop body stores in cell [(k1, k2)]. *)
Definition cell (z1 z2 : list Z) (k1 k2 : nat) : Z :=
  np_sum_bool (np_and (np_eq z1 (Z.of_nat k1)) (np_eq z2 (Z.of_nat k2))).

Definition zsum (l : list Z) : Z := foldr Z.add 0 l.

(** Both labels of a position lie inside a [K1 x K2] matrix. *)
Definition in_shape (K1 K2 : Z) (p : Z * Z) : Prop :=
  (0 ≤ p.1 < K1) ∧ (0 ≤ p.2 < K2).

Global Instance in_shape_dec K1 K2 p : Decision (in_shape K1 K2 p).
Proof. unfold in_shape. apply _. Defined.

(** ** find_permutation *)

(** The cost [C[rows, cols].sum()] of matching row [rows[i]] with column
    [cols[i]]. *)
Definition assignment_cost (C : matrix) (rows cols : list nat) : Z :=
  zsum (zip_with (mget C) rows cols).

(** A choice of one column per row of [C], no column taken twice. *)
Definition column_assignment (C : matrix) (cols : list nat) : Prop :=
  length cols = nrows C ∧ NoDup cols ∧ Forall (λ c, (c < ncols C)%nat) cols.

(** Modelled from the spec: [scipy.optimize.linear_sum_assignment] is an
    external solver, absent from src/.  §6 gives its contract: for a cost
    matrix it returns the matched row and column indices of an optimal
    assignment, minimising total cost.  On a matrix with no more rows than
    columns every row is matched and the row indices come back sorted, that
    is as [0 .. nrows-1].  Which of several optimal assignments is returned
    is left open. *)
Definition lsa_contract (lsa : matrix → list nat * list nat) : Prop :=
  ∀ C, matrix_wf C → (nrows C ≤ ncols C)%nat →
    (lsa C).1 = seq 0 (nrows C) ∧
    column_assignment C (lsa C).2 ∧
    ∀ cols, column_assignment C cols →
      assignment_cost C (seq 0 (nrows C)) (lsa C).2
      ≤ assignment_cost C (seq 0 (nrows C)) cols.

(** Every diagonal entry of [C] is a smallest entry of its row. *)
Definition diagonal_minimal (C : matrix) : Prop :=
  ∀ i j, (i < nrows C)%nat → (j < ncols C)%nat → mget C i i ≤ mget C i j.

(** How scipy's solver settles ties, which §6 of the specification leaves
    open; not in src/ and not in the specification, but observed of the
    library: it scans the columns of a row so that, when the diagonal entry
    of every row is a smallest entry of the row, row [i] is matched with
    column [i] (in particular a constant cost matrix is solved by the
    identity). *)
Definition lsa_keeps_diagonal (lsa : matrix → list nat * list nat) : Prop :=
  ∀ C, matrix_wf C → (nrows C ≤ ncols C)%nat → diagonal_minimal C →
       (lsa C).2 = seq 0 (nrows C).

(** [list(s)] for a Python set [s]: its elements, each once, in an order
    the language leaves to the implementation. *)
Definition set_order_contract (py_list : gset nat → list nat) : Prop :=
  ∀ s, py_list s ≡ₚ elements s.

(** [a == b] for two one-dimensional arrays of indices: elementwise on one
    shape, an array of one element is stretched over the other, and other
    shapes do not broadcast (numpy 1.25 and later raise; earlier versions
    warn and answer [False], which fails the assertion instead). *)
Definition np_eq_arrays (a b : list nat) : result (list bool) :=
  if decide (length a = length b) then Ok (zip_with Nat.eqb a b)
  else match a, b with
       | [s], _ => Ok (map (Nat.eqb s) b)
       | _, [s] => Ok (map (λ x, Nat.eqb x s) a)
       | _, _ => Raise (ValueError "operands could not be broadcast together")
       end.

(** [np.all(a)] *)
Definition np_all (a : list bool) : bool := forallb (λ b : bool, b) a.

Definition find_permutation
    (linear_sum_assignment : matrix → list nat * list nat)
    (py_list : gset nat → list nat)
    (z1 z2 : list Z) (K1 K2 : option Z) : result (list nat) :=
  overlap ← compute_state_overlap z1 z2 K1 K2;
  let K1 := nrows overlap in
  let K2 := ncols overlap in
  py_assert (K1 <=? K2)%nat "Can only find permutation from more states to fewer";;
  let '(tmp, perm) := linear_sum_assignment (mneg overlap) in
  (* assert np.all(tmp == np.arange(K1)) *)
  same ← np_eq_arrays tmp (seq 0 K1);
  py_assert (np_all same) "All indices should have been matched!";;
  (* Pad permutation if K1 < K2 *)
  let perm :=
    if (K1 <? K2)%nat then
      let unused := py_list (list_to_set (seq 0 K2) ∖ list_to_set perm) in
      perm ++ unused
    else perm in
  Ok perm.

(** The total overlap [sum_k1 overlap[k1][sigma k1]] of a map [sigma] from
    rows to columns. *)
Definition total_overlap (overlap : matrix) (sigma : nat → nat) : Z :=
  zsum (map (λ k1, mget overlap k1 (sigma k1)) (seq 0 (nrows overlap))).

(** [sigma] maps [{0..K1-1}] into [{0..K2-1}] one-to-one. *)
Definition injection (K1 K2 : nat) (sigma : nat → nat) : Prop :=
  (∀ k, (k < K1)%nat → (sigma k < K2)%nat) ∧
  (∀ j k, (j < K1)%nat → (k < K1)%nat → sigma j = sigma k → j = k).

(** The map a permutation array stands for: [k ↦ perm[k]]. *)
Definition as_map (perm : list nat) (k : nat) : nat := default 0%nat (perm !! k).

(** ** An exhaustive solver

    A solver that meets [lsa_contract] by trying every assignment.  Among
    assignments of equal cost [replace] decides which one survives. *)

Fixpoint tuples (n m : nat) : list (list nat) :=
  match n with
  | O => [[]]
  | S n' => c ← seq 0 m; (c ::.) <$> tuples n' m
  end.

Definition assignments (n m : nat) : list (list nat) :=
  filter NoDup (tuples n m).

(** The cheapest candidate; [replace c b] says whether a candidate of cost
    [c] takes the place of the best so far, of cost [b]. *)
Definition argmin (replace : Z → Z → bool) (cost : list nat → Z)
    (best : list nat) (cands : list (list nat)) : list nat :=
  foldl (λ best c, if replace (cost c) (cost best) then c else best) best cands.

Definition exhaustive_lsa (replace : Z → Z → bool) (C : matrix)
  : list nat * list nat :=
  let rows := seq 0 (nrows C) in
  (rows, argmin replace (assignment_cost C rows) rows
                (assignments (nrows C) (ncols C))).

(** Keeps the first of the cheapest assignments. *)
Definition exhaustive_lsa_first : matrix → list nat * list nat :=
  exhaustive_lsa Z.ltb.

(** Keeps the last of the cheapest assignments. *)
Definition exhaustive_lsa_last : matrix → list nat * list nat :=
  exhaustive_lsa Z.leb.

(** A solver that settles ties as [lsa_keeps_diagonal] says: the identity
    where the diagonal is minimal, the first cheapest assignment
    elsewhere. *)
Definition diagonal_minimalb (C : matrix) : bool :=
  forallb (λ i, forallb (λ j, mget C i i <=? mget C i j) (seq 0 (ncols C)))
          (seq 0 (nrows C)).

Definition diagonal_lsa (C : matrix) : list nat * list nat :=
  if diagonal_minimalb C then (seq 0 (nrows C), seq 0 (nrows C))
  else exhaustive_lsa_first C.

(** ** Vocabulary of the statements about label alignment *)

(** [mx] is the largest label of [z]. *)
Definition is_max (z : list Z) (mx : Z) : Prop :=
  mx ∈ z ∧ Forall (λ x, x ≤ mx) z.

(** The dimension [K] stands for: the supplied value, or one more than the
    largest label when nothing is supplied. *)
Definition dimension (K : option Z) (z : list Z) (n : nat) : Prop :=
  match K with
  | Some k => Z.of_nat n = k
  | None => ∃ mx, is_max z mx ∧ Z.of_nat n = mx + 1
  end.

(** ** Floating-point numbers

    The optimizer and the rotation generator compute with numpy floats.
    Their code is embedded over an interface of the operations it uses, so
    that what is proved of it does not depend on how numbers are rounded;
    laws of exact arithmetic are assumed only where a statement names
    them. *)

Class Num (F : Type) : Type := {
  f_dec : Z → Z → F;          (* the literal [m]e[k], as in 1e-2 or 0.5 *)
  f_of_nat : nat → F;         (* an integer used as a float *)
  f_add : F → F → F;
  f_sub : F → F → F;
  f_mul : F → F → F;
  f_div : F → F → F;
  f_neg : F → F;
  f_pow : F → nat → F;        (* [b ** n] for a natural number [n] *)
  f_sqrt : F → F;
  f_abs : F → F;
  f_ltb : F → F → bool;
  f_pi : F;
  f_cos : F → F;
  f_sin : F → F
}.

(** Exact real arithmetic. *)
Global Instance real_Num : Num R := {|
  f_dec m k := (IZR m * powerRZ 10 k)%R;
  f_of_nat := INR;
  f_add := Rplus;
  f_sub := Rminus;
  f_mul := Rmult;
  f_div := Rdiv;
  f_neg := Ropp;
  f_pow := pow;
  f_sqrt := sqrt;
  f_abs := Rabs;
  f_ltb a b := if Rlt_dec a b then true else false;
  f_pi := PI;
  f_cos := cos;
  f_sin := sin
|}.

Declare Scope num_scope.
Delimit Scope num_scope with num.
Notation "a + b" := (f_add a b) : num_scope.
Notation "a - b" := (f_sub a b) : num_scope.
Notation "a * b" := (f_mul a b) : num_scope.
Notation "a / b" := (f_div a b) : num_scope.
Notation "- a" := (f_neg a) : num_scope.
Notation "a ^ n" := (f_pow a n) : num_scope.
Notation "0" := (f_of_nat 0) : num_scope.
Notation "1" := (f_of_nat 1) : num_scope.

(** ** Module globals and name lookup *)

Inductive pyobj : Type :=
  | PyInt (n : Z)
  | PyModule (name : string)
  | PyFunction (name : string)
  | PyBuiltin (name : string).

(** The names bound at the top level of util.py: its imports and its
    function definitions. *)
Definition util_globals : gmap string pyobj :=
  list_to_map [
    ("np", PyModule "autograd.numpy");
    ("npr", PyModule "autograd.numpy.random");
    ("unflatten_optimizer", PyFunction "unflatten_optimizer");
    ("linear_sum_assignment", PyFunction "linear_sum_assignment");
    ("adam_with_convergence_check", PyFunction "adam_with_convergence_check");
    ("compute_state_overlap", PyFunction "compute_state_overlap");
    ("find_permutation", PyFunction "find_permutation");
    ("random_rotation", PyFunction "random_rotation");
    ("ensure_args_are_lists", PyFunction "ensure_args_are_lists");
    ("ensure_elbo_args_are_lists", PyFunction "ensure_elbo_args_are_lists");
    ("ensure_args_not_none", PyFunction "ensure_args_not_none");
    ("ensure_slds_args_not_none", PyFunction "ensure_slds_args_not_none");
    ("logistic", PyFunction "logistic");
    ("logit", PyFunction "logit");
    ("softplus", PyFunction "softplus");
    ("inv_softplus", PyFunction "inv_softplus")
  ].

(** The built-in names the module uses. *)
Definition py_builtins : gmap string pyobj :=
  list_to_map [
    ("len", PyBuiltin "len"); ("range", PyBuiltin "range");
    ("abs", PyBuiltin "abs"); ("list", PyBuiltin "list");
    ("set", PyBuiltin "set"); ("int", PyBuiltin "int");
    ("bool", PyBuiltin "bool"); ("isinstance", PyBuiltin "isinstance")
  ].

(** A name that is neither a parameter nor assigned in the function body is
    looked up in the module globals, then in the built-ins. *)
Definition load_global (globals : gmap string pyobj) (name : string)
  : result pyobj :=
  match globals !! name with
  | Some o => Ok o
  | None =>
      match py_builtins !! name with
      | Some o => Ok o
      | None => Raise (NameError name)
      end
  end.

(** [range(o)] *)
Definition py_range_of (o : pyobj) : result (list nat) :=
  match o with
  | PyInt n => Ok (py_range n)
  | _ => Raise (TypeError "object cannot be interpreted as an integer")
  end.

(** ** numpy on one-dimensional float arrays *)

Section float_arrays.

Context {F : Type} `{Num F}.
Local Open Scope num_scope.

(** [np.zeros(n)] *)
Definition np_zeros1 (n : nat) : list F := replicate n 0.

(** [s op a] and [a op s] for a scalar [s]. *)
Definition scalar_l (op : F → F → F) (s : F) (a : list F) : list F := map (op s) a.
Definition scalar_r (op : F → F → F) (a : list F) (s : F) : list F :=
  map (λ x, op x s) a.

(** [a op b] for two arrays: elementwise on one shape, an array of one
    element is stretched, other shapes do not broadcast. *)
Definition np_binop (op : F → F → F) (a b : list F) : result (list F) :=
  if decide (length a = length b) then Ok (zip_with op a b)
  else match a, b with
       | [s], _ => Ok (scalar_l op s b)
       | _, [s] => Ok (scalar_r op a s)
       | _, _ => Raise (ValueError "operands could not be broadcast together")
       end.

(** [np.sum(a)] *)
Definition np_sum (a : list F) : F := foldl f_add 0 a.

(** [np.mean(a)] *)
Definition np_mean (a : list F) : F := np_sum a / f_of_nat (length a).

End float_arrays.

(** ** adam_with_convergence_check *)

(** The keyword parameters, with their defaults. *)
Record adam_options (F : Type) : Type := AdamOptions {
  step_size : F;
  b1 : F;
  b2 : F;
  eps : F;
  tol : F
}.
Arguments AdamOptions {F}.
Arguments step_size {F}.
Arguments b1 {F}.
Arguments b2 {F}.
Arguments eps {F}.
Arguments tol {F}.

(** The local variables an iteration leaves behind, the calls made to the
    callback so far, and the shape of the initial [x], which the decorator
    keeps in its closure [unflatten]. *)
Record adam_locals (F E : Type) : Type := AdamLocals {
  loc_x : list F;
  loc_m : list F;
  loc_v : list F;
  loc_g : list F;
  loc_mhat : list F;
  loc_vhat : list F;
  loc_dx : list F;
  loc_iters : nat;
  loc_events : list E;
  loc_shape : nat
}.
Arguments AdamLocals {F E}.
Arguments loc_x {F E}.
Arguments loc_m {F E}.
Arguments loc_v {F E}.
Arguments loc_g {F E}.
Arguments loc_mhat {F E}.
Arguments loc_vhat {F E}.
Arguments loc_dx {F E}.
Arguments loc_iters {F E}.
Arguments loc_events {F E}.
Arguments loc_shape {F E}.

Section adam.

Context {F E : Type} `{Num F}.
Local Open Scope num_scope.

Definition adam_defaults : adam_options F :=
  AdamOptions (f_dec 1 (-3)) (f_dec 9 (-1)) (f_dec 999 (-3))
              (f_dec 1 (-8))
              (f_dec 1 (-2)).

(** The parameter names of the signature; there is no [**kwargs]. *)
Definition adam_parameters : list string :=
  ["grad"; "x"; "callback"; "step_size"; "b1"; "b2"; "eps"; "tol"].

(** Binding the keyword arguments of a call
    [adam_with_convergence_check(grad, x, callback, k1=v1, ...)]. *)
Fixpoint bind_keywords (kwargs : list (string * F)) (o : adam_options F)
  : result (adam_options F) :=
  match kwargs with
  | [] => Ok o
  | (k, a) :: rest =>
      if String.eqb k "step_size" then
        bind_keywords rest (AdamOptions a (b1 o) (b2 o) (eps o) (tol o))
      else if String.eqb k "b1" then
        bind_keywords rest (AdamOptions (step_size o) a (b2 o) (eps o) (tol o))
      else if String.eqb k "b2" then
        bind_keywords rest (AdamOptions (step_size o) (b1 o) a (eps o) (tol o))
      else if String.eqb k "eps" then
        bind_keywords rest (AdamOptions (step_size o) (b1 o) (b2 o) a (tol o))
      else if String.eqb k "tol" then
        bind_keywords rest (AdamOptions (step_size o) (b1 o) (b2 o) (eps o) a)
      else Raise (TypeError "got an unexpected keyword argument")
  end.

(** The function is decorated with autograd's [unflatten_optimizer], which
    is not under src/.  It lets the optimizer work on flat arrays:

      _x0, unflatten = flatten(x0)
      _grad = lambda x, i: flatten(grad(unflatten(x), i))[0]
      _callback = lambda x, i, g: callback(unflatten(x), i, unflatten(g))
      return unflatten(optimize(_grad, _x0, _callback, *args, **kwargs))

    with [_callback = None] when no callback is given.  For a
    one-dimensional [x0], [flatten] is the identity and [unflatten]
    reshapes a flat array to the shape of [x0]: it raises ValueError for an
    array of another size. *)
Definition unflatten (shape : nat) (a : list F) : result (list F) :=
  if decide (length a = shape) then Ok a
  else Raise (ValueError "cannot reshape array").

(** The caller's gradient, and the caller's callback: an observer, what it
    does with [(x, i, g)] is recorded as an event. *)
Variable grad : list F → nat → list F.
Variable callback : option (list F → nat → list F → E).
Variable o : adam_options F.

(** Lines 16 to 25: the body of the loop up to the update of [x].  The
    names [grad] and [callback] of the body are bound to the decorator's
    [_grad] and [_callback]. *)
Definition adam_iteration (i : nat) (l : adam_locals F E)
  : result (adam_locals F E) :=
  let x := loc_x l in
  (* g = grad(x, i) *)
  ux ← unflatten (loc_shape l) x;
  let g := grad ux i in
  (* if callback: callback(x, i, g) *)
  events ←
    match callback with
    | Some cb =>
        ux ← unflatten (loc_shape l) x;
        ug ← unflatten (loc_shape l) g;
        Ok (loc_events l ++ [cb ux i ug])
    | None => Ok (loc_events l)
    end;
  m ← np_binop f_add (scalar_l f_mul (1 - b1 o) g) (scalar_l f_mul (b1 o) (loc_m l));
  v ← np_binop f_add (scalar_l f_mul (1 - b2 o) (map (λ a, a ^ 2) g))
                     (scalar_l f_mul (b2 o) (loc_v l));
  let mhat := scalar_r f_div m (1 - b1 o ^ (i + 1)) in
  let vhat := scalar_r f_div v (1 - b2 o ^ (i + 1)) in
  dx ← np_binop f_div (scalar_l f_mul (- step_size o) mhat)
                      (scalar_r f_add (map f_sqrt vhat) (eps o));
  x ← np_binop f_add x dx;
  Ok (AdamLocals x m v g mhat vhat dx (S (loc_iters l)) events (loc_shape l)).

(** [np.mean(abs(dx)) < tol] *)
Definition converged (l : adam_locals F E) : bool :=
  f_ltb (np_mean (map f_abs (loc_dx l))) (tol o).

(** [for i in range(num_iters): ...; if converged: break] *)
Fixpoint adam_loop (indices : list nat) (l : adam_locals F E)
  : result (adam_locals F E) :=
  match indices with
  | [] => Ok l
  | i :: rest =>
      l' ← adam_iteration i l;
      if converged l' then Ok l' else adam_loop rest l'
  end.

(** [count] consecutive iterations from index [start], without the
    convergence check. *)
Fixpoint adam_iterations (start count : nat) (l : adam_locals F E)
  : result (adam_locals F E) :=
  match count with
  | O => Ok l
  | S count' => l' ← adam_iteration start l;
                adam_iterations (S start) count' l'
  end.

(** Lines 13 and 14, for the one-dimensional [x] the decorator passes
    in. *)
Definition adam_initial (x : list F) : adam_locals F E :=
  AdamLocals x (np_zeros1 (length x)) (np_zeros1 (length x)) [] [] [] [] 0 []
             (length x).

(** The decorated function, run in a module whose globals are [globals]:
    [num_iters] is not among its parameters, so the loop header resolves it
    as a global name.  Returns the final [x], unflattened, with the
    locals. *)
Definition adam_with_convergence_check (globals : gmap string pyobj)
    (x : list F) : result (list F * adam_locals F E) :=
  let l := adam_initial x in
  num_iters ← load_global globals "num_iters";
  indices ← py_range_of num_iters;
  l ← adam_loop indices l;
  x ← unflatten (loc_shape l) (loc_x l);
  Ok (x, l).

End adam.

(** A call with keyword arguments: they are bound first, then the body
    runs. *)
Definition adam_call {F E : Type} `{Num F} (globals : gmap string pyobj)
    (grad : list F → nat → list F)
    (x : list F)
    (callback : option (list F → nat → list F → E))
    (kwargs : list (string * F)) : result (list F * adam_locals F E) :=
  o ← bind_keywords kwargs adam_defaults;
  adam_with_convergence_check grad callback o globals x.

(** The update of §4.2 of the specification, for one coordinate. *)
Section adam_recurrence.

Context {F : Type} `{Num F}.
Local Open Scope num_scope.

Definition spec_m (beta1 g m : F) : F := (1 - beta1) * g + beta1 * m.
Definition spec_v (beta2 g v : F) : F := (1 - beta2) * g ^ 2 + beta2 * v.
Definition spec_mhat (beta1 : F) (i : nat) (m : F) : F := m / (1 - beta1 ^ (i + 1)).
Definition spec_vhat (beta2 : F) (i : nat) (v : F) : F := v / (1 - beta2 ^ (i + 1)).
Definition spec_dx (stepSize epsilon mhat vhat : F) : F :=
  - stepSize * mhat / (f_sqrt vhat + epsilon).

(** The locals [s'] come from the locals [s] by the update of §4.2 at
    iteration [i] with the gradient [g], coordinate by coordinate. *)
Definition adam_step {E : Type} (o : adam_options F) (g : list F) (i : nat)
    (s s' : adam_locals F E) : Prop :=
  length (loc_x s') = length (loc_x s) ∧
  loc_iters s' = S (loc_iters s) ∧
  ∀ j x m v,
    loc_x s !! j = Some x → loc_m s !! j = Some m → loc_v s !! j = Some v →
    ∃ gj, g !! j = Some gj ∧
      let m' := spec_m (b1 o) gj m in
      let v' := spec_v (b2 o) gj v in
      let mhat := spec_mhat (b1 o) i m' in
      let vhat := spec_vhat (b2 o) i v' in
      let dx := spec_dx (step_size o) (eps o) mhat vhat in
      loc_m s' !! j = Some m' ∧ loc_v s' !! j = Some v' ∧
      loc_mhat s' !! j = Some mhat ∧ loc_vhat s' !! j = Some vhat ∧
      loc_dx s' !! j = Some dx ∧ loc_x s' !! j = Some (x + dx).

(** The run [s, s1, s2, ...] of the optimizer: each state comes from the
    one before it by the update of §4.2, the first at iteration [i] and the
    following ones at [i + 1], [i + 2], ..., each with the gradient taken
    at the [x] before the update, and only the last state may meet the
    convergence test. *)
Fixpoint adam_run {E : Type} (grad : list F → nat → list F)
    (o : adam_options F) (i : nat) (s : adam_locals F E)
    (rest : list (adam_locals F E)) : Prop :=
  match rest with
  | [] => True
  | s' :: rest' =>
      adam_step o (grad (loc_x s) i) i s s' ∧
      (rest' ≠ [] → converged o s' = false) ∧
      adam_run grad o (S i) s' rest'
  end.

End adam_recurrence.

(** ** numpy on two-dimensional float arrays *)

Section float_matrices.

Context {F : Type} `{Num F}.
Local Open Scope num_scope.

Definition fmatrix : Type := list (list F).

(** [np.eye(n)] *)
Definition np_eye (n : nat) : fmatrix :=
  map (λ i, map (λ j, if decide (i = j) then 1 else 0) (seq 0 n)) (seq 0 n).

(** [np.zeros((n, m))] *)
Definition np_zeros2 (n m : nat) : fmatrix := replicate n (replicate m 0).

(** [M.T] *)
Definition mtranspose (M : fmatrix) : fmatrix :=
  map (λ j, map (λ row, default 0 (row !! j)) M)
      (seq 0 (length (default [] (head M)))).

(** [A.dot(B)] *)
Definition np_dot (A B : fmatrix) : fmatrix :=
  map (λ row, map (λ col, np_sum (zip_with f_mul row col)) (mtranspose B)) A.

(** [out[:2, :2] = rot] for a 2 x 2 array [rot]: the slice must be 2 x 2
    as well. *)
Definition assign_top_left (out rot : fmatrix) : result fmatrix :=
  match out, rot with
  | (_ :: _ :: t0) :: (_ :: _ :: t1) :: rest, [[a; b]; [c; d]] =>
      Ok ((a :: b :: t0) :: (c :: d :: t1) :: rest)
  | _, _ => Raise (ValueError "could not broadcast input array")
  end.

(** [M] is an [n x n] array. *)
Definition square (n : nat) (M : fmatrix) : Prop :=
  length M = n ∧ Forall (λ row, length row = n) M.

(** [Q] times its transpose is the identity. *)
Definition orthogonal (n : nat) (Q : fmatrix) : Prop :=
  square n Q ∧ np_dot Q (mtranspose Q) = np_eye n.

(** The matrix of the rotation of the plane by [theta]. *)
Definition rotation2 (theta : F) : fmatrix :=
  [[f_cos theta; - f_sin theta]; [f_sin theta; f_cos theta]].

End float_matrices.

(** ** random_rotation *)

Section random_rotation.

Context {F : Type} `{Num F}.
Local Open Scope num_scope.

(** The state of numpy's global random generator, and the two samplers and
    the factorisation the function calls; they belong to numpy. *)
Variable rng : Type.
Variable np_random_rand : rng → F * rng.
Variable np_random_randn : nat → nat → rng → fmatrix (F:=F) * rng.
Variable np_linalg_qr : fmatrix (F:=F) → fmatrix (F:=F) * fmatrix (F:=F).

Definition random_rotation (n : nat) (theta : option F) (s : rng)
  : result (fmatrix (F:=F) * rng) :=
  let '(theta, s) :=
    match theta with
    | None =>
        (* Sample a random, slow rotation *)
        let '(u, s) := np_random_rand s in (f_dec 5 (-1) * f_pi * u, s)
    | Some theta => (theta, s)
    end in
  if decide (n = 1%nat) then
    let '(u, s) := np_random_rand s in
    Ok (map (map (f_mul u)) (np_eye 1), s)
  else
    let rot := rotation2 theta in
    let out := np_zeros2 n n in
    out ← assign_top_left out rot;
    let '(a, s) := np_random_randn n n s in
    let q := (np_linalg_qr a).1 in
    Ok (np_dot (np_dot q out) (mtranspose q), s).

(** The angle of lines 64 to 66 and the generator after choosing it: the
    supplied angle, or half of pi times a fresh draw. *)
Definition rotation_angle (theta : option F) (s : rng) : F * rng :=
  match theta with
  | None => let '(u, s) := np_random_rand s in (f_dec 5 (-1) * f_pi * u, s)
  | Some theta => (theta, s)
  end.

(** Modelled from the spec: numpy's samplers and QR factorisation are not
    under src/.  [randn(n, m)] returns an [n x m] array; the first factor
    of the QR decomposition of a square matrix is a square matrix whose
    columns are orthonormal. *)
Definition randn_contract : Prop :=
  ∀ n s, square n (np_random_randn n n s).1.

Definition qr_contract (n : nat) : Prop :=
  ∀ a, square n a →
       let q := (np_linalg_qr a).1 in
       square n q ∧ np_dot (mtranspose q) q = np_eye n.

End random_rotation.

(** [rand] draws from [0, 1). *)
Definition rand_contract {rng : Type} (np_random_rand : rng → R * rng) : Prop :=
  ∀ s, (0 <= (np_random_rand s).1 < 1)%R.

(** Stand-ins for numpy's samplers and factorisation that meet the
    contracts: a generator that always draws 1/2, an all-zero "Gaussian"
    matrix, and a factorisation whose first factor is the identity. *)
Definition sample_half (s : unit) : R * unit := ((1 / 2)%R, s).

Definition sample_zeros (n m : nat) (s : unit) : fmatrix (F:=R) * unit :=
  (np_zeros2 n m, s).

Definition qr_identity (n : nat) (a : fmatrix (F:=R))
  : fmatrix (F:=R) * fmatrix (F:=R) :=
  (np_eye n, a).

(** The same factorisation for every size: the identity of the size of its
    argument. *)
Definition qr_eye (a : fmatrix (F:=R)) : fmatrix (F:=R) * fmatrix (F:=R) :=
  (np_eye (length a), a).

(** ** Vocabulary of the further statements about label alignment *)

(** How often the label [k] occurs in [z]. *)
Definition occurrences (z : list Z) (k : Z) : Z :=
  Z.of_nat (length (filter (λ x, x = k) z)).

(** The positions at which the two sequences carry the same label, a label
    below [K]. *)
Definition agreements (z1 z2 : list Z) (K : Z) : Z :=
  Z.of_nat (length (filter (λ p : Z * Z, p.1 = p.2 ∧ 0 ≤ p.1 < K) (zip z1 z2))).

(** ** Scalar transforms *)

(** [np.exp] and [np.log], which the transforms at the end of the module
    use on top of the arithmetic of [Num]. *)
Class Transcendental (F : Type) : Type := {
  f_exp : F → F;
  f_log : F → F
}.

(** Exact exponential and natural logarithm.  [ln] agrees with [np.log] on
    positive arguments; numpy returns [-inf] or [nan] (with a warning) on
    the others, so statements over the reals only take the logarithm of
    positive numbers. *)
Global Instance real_Transcendental : Transcendental R := {|
  f_exp := exp;
  f_log := ln
|}.

Section transforms.

Context {F : Type} `{Num F} `{Transcendental F}.
Local Open Scope num_scope.

Definition logistic (x : F) : F := 1 / (1 + f_exp (- x)).

Definition logit (p : F) : F := f_log (p / (1 - p)).

Definition softplus (x : F) : F := f_log (1 + f_exp x).

Definition inv_softplus (y : F) : F := f_log (f_exp y - 1).

End transforms.

(** ** Argument decorators *)

(** The data the decorated methods receive are numpy arrays with at least
    one axis ([data.shape[0]] is the number of time steps): the shape is
    kept as its first entry and the rest, the entries in row-major order. *)
Record ndarray (A : Type) : Type := NdArray {
  shape0 : nat;
  shape_rest : list nat;
  flat : list A
}.
Arguments NdArray {A}.
Arguments shape0 {A}.
Arguments shape_rest {A}.
Arguments flat {A}.

(** The number of entries of an array of the given shape. *)
Definition size_of (shape : list nat) : nat := foldr Nat.mul 1%nat shape.

(** An optional argument as the wrappers inspect it: [None], a list, or
    any other object. *)
#[warnings="-register-all"] Inductive arg (A : Type) : Type :=
  | ArgNone
  | ArgList (l : list (arg A))
  | ArgOne (a : A).
Arguments ArgNone {A}.
Arguments ArgList {A} l.
Arguments ArgOne {A} a.

(** The first argument of the list wrappers: a list of arrays, or one
    array. *)
Inductive datas_arg (A : Type) : Type :=
  | DataList (l : list (ndarray A))
  | DataOne (d : ndarray A).
Arguments DataList {A} l.
Arguments DataOne {A} d.

Section decorators.

Context {F : Type} `{Num F}.
Local Open Scope num_scope.

(** [Self] is the class of the decorated method, [M] reads [self.M];
    [T] are the tags, [K] the remaining keyword arguments, [B] what the
    method returns. *)
Context {Self T K B : Type}.
Variable M : Self → Z.

(** [np.zeros((T, M))] *)
Definition np_zeros_TM (T0 : nat) (M0 : Z) : result (ndarray F) :=
  if M0 <? 0
  then Raise (ValueError "negative dimensions are not allowed")
  else Ok (NdArray T0 [Z.to_nat M0] (replicate (T0 * Z.to_nat M0) 0)).

(** [np.ones_like(data, dtype=bool)] *)
Definition np_ones_like_bool (data : ndarray F) : ndarray bool :=
  NdArray (shape0 data) (shape_rest data)
          (replicate (size_of (shape0 data :: shape_rest data)) true).

Definition ensure_args_are_lists
    (f : Self → list (ndarray F) → arg (ndarray F) → arg (ndarray bool) →
         arg T → K → result B)
    (self : Self) (datas : datas_arg F) (inputs : arg (ndarray F))
    (masks : arg (ndarray bool)) (tags : arg T) (kwargs : K) : result B :=
  let datas := match datas with DataList l => l | DataOne d => [d] end in
  inputs ←
    match inputs with
    | ArgNone =>
        l ← mapM (λ data, np_zeros_TM (shape0 data) (M self)) datas;
        Ok (ArgList (map ArgOne l))
    | ArgList _ => Ok inputs
    | ArgOne _ => Ok (ArgList [inputs])
    end;
  let masks :=
    match masks with
    | ArgNone => ArgList (map (λ data, ArgOne (np_ones_like_bool data)) datas)
    | ArgList _ => masks
    | ArgOne _ => ArgList [masks]
    end in
  let tags :=
    match tags with
    | ArgNone => ArgList (replicate (length datas) ArgNone)
    | ArgList _ => tags
    | ArgOne _ => ArgList [tags]
    end in
  f self datas inputs masks tags kwargs.

Definition ensure_elbo_args_are_lists {V : Type}
    (f : Self → V → list (ndarray F) → arg (ndarray F) → arg (ndarray bool) →
         arg T → K → result B)
    (self : Self) (variational_params : V) (datas : datas_arg F)
    (inputs : arg (ndarray F)) (masks : arg (ndarray bool)) (tags : arg T)
    (kwargs : K) : result B :=
  let datas := match datas with DataList l => l | DataOne d => [d] end in
  inputs ←
    match inputs with
    | ArgNone =>
        l ← mapM (λ data, np_zeros_TM (shape0 data) (M self)) datas;
        Ok (ArgList (map ArgOne l))
    | ArgList _ => Ok inputs
    | ArgOne _ => Ok (ArgList [inputs])
    end;
  let masks :=
    match masks with
    | ArgNone => ArgList (map (λ data, ArgOne (np_ones_like_bool data)) datas)
    | ArgList _ => masks
    | ArgOne _ => ArgList [masks]
    end in
  let tags :=
    match tags with
    | ArgNone => ArgList (replicate (length datas) ArgNone)
    | ArgList _ => tags
    | ArgOne _ => ArgList [tags]
    end in
  f self variational_params datas inputs masks tags kwargs.

(** [data] may be [None] here; the assertion refuses it, and the method is
    called with the array. *)
Definition ensure_args_not_none
    (f : Self → ndarray F → arg (ndarray F) → arg (ndarray bool) →
         arg T → K → result B)
    (self : Self) (data : option (ndarray F)) (input : arg (ndarray F))
    (mask : arg (ndarray bool)) (tag : arg T) (kwargs : K) : result B :=
  match data with
  | None => Raise (AssertionError EmptyString)
  | Some data =>
      input ←
        match input with
        | ArgNone => z ← np_zeros_TM (shape0 data) (M self); Ok (ArgOne z)
        | _ => Ok input
        end;
      let mask :=
        match mask with
        | ArgNone => ArgOne (np_ones_like_bool data)
        | _ => mask
        end in
      f self data input mask tag kwargs
  end.

Definition ensure_slds_args_not_none {V : Type}
    (f : Self → V → ndarray F → arg (ndarray F) → arg (ndarray bool) →
         arg T → K → result B)
    (self : Self) (variational_mean : option V) (data : option (ndarray F))
    (input : arg (ndarray F)) (mask : arg (ndarray bool)) (tag : arg T)
    (kwargs : K) : result B :=
  match variational_mean with
  | None => Raise (AssertionError EmptyString)
  | Some variational_mean =>
      match data with
      | None => Raise (AssertionError EmptyString)
      | Some data =>
          input ←
            match input with
            | ArgNone => z ← np_zeros_TM (shape0 data) (M self); Ok (ArgOne z)
            | _ => Ok input
            end;
          let mask :=
            match mask with
            | ArgNone => ArgOne (np_ones_like_bool data)
            | _ => mask
            end in
          f self variational_mean data input mask tag kwargs
      end
  end.

End decorators.

(** An optional argument that is not a list. *)
Definition of_option {X : Type} (a : option X) : arg X :=
  match a with None => ArgNone | Some x => ArgOne x end.

(** The list of sequences a list wrapper works on. *)
Definition datas_list {A : Type} (datas : datas_arg A) : list (ndarray A) :=
  match datas with DataList l => l | DataOne d => [d] end.

(** An optional argument that matches [datas]: left out, a list with one
    entry per sequence, or a single object for a single sequence. *)
Definition fits {A X : Type} (datas : datas_arg A) (a : arg X) : Prop :=
  match a with
  | ArgNone => True
  | ArgList l => length l = length (datas_list datas)
  | ArgOne _ => ∃ d, datas = DataOne d
  end.

(** ** Vocabulary of the further statements about rotations *)

Section rotation_vocabulary.

Context {F : Type} `{Num F}.
Local Open Scope num_scope.

(** The determinant of a 2 x 2 array. *)
Definition det2 (A : fmatrix (F:=F)) : F :=
  match A with
  | [[a; b]; [c; d]] => a * d - b * c
  | _ => 0
  end.

(** [A[i][j]] (0 outside the shape). *)
Definition entry (A : fmatrix (F:=F)) (i j : nat) : F :=
  default 0 (default [] (A !! i) !! j).

(** The sum of the diagonal entries. *)
Definition trace (A : fmatrix (F:=F)) : F :=
  np_sum (map (λ i, entry A i i) (seq 0 (length A))).

End rotation_vocabulary.

(** The sum [f 0 + ... + f (n - 1)] of real numbers. *)
Fixpoint rsum (n : nat) (f : nat → R) : R :=
  match n with
  | O => 0%R
  | S n => (rsum n f + f n)%R
  end.

(** * Properties *)

(** ** compute_state_overlap *)

Example overlap_concrete :
compute_state_overlap [0;0;1;1] [1;1;0;0] None None
= Ok (Matrix 2 2 [[0;2];[2;0]]).
Proof. reflexivity. Qed.

Example overlap_concrete_rect :
compute_state_overlap [0;0;0;1;1] [0;1;2;2;2] (Some 2) (Some 3)
= Ok (Matrix 2 3 [[1;1;1];[0;0;2]]).
Proof. reflexivity. Qed.

(** ** Facts about the array primitives *)

Section array_facts.

Lemma np_sum_bool_acc (a : list bool) (acc : Z) :
  foldl (λ acc (b : bool), if b then acc + 1 else acc) acc a
  = acc + np_sum_bool a.
Proof.
  unfold np_sum_bool. revert acc.
  induction a as [|b a IH] using rev_ind; intros acc; simpl; [lia|].
  rewrite !foldl_app. simpl. rewrite (IH acc). destruct b; lia.
Qed.

Lemma np_sum_bool_cons (b : bool) (a : list bool) :
  np_sum_bool (b :: a) = (if b then 1 else 0) + np_sum_bool a.
Proof.
  unfold np_sum_bool at 1. simpl. rewrite np_sum_bool_acc. destruct b; lia.
Qed.

Lemma foldl_min_in (l : list Z) (x : Z) :
  foldl Z.min x l ∈ x :: l.
Proof.
  revert x. induction l as [|y l IH]; intros x; simpl; [apply list_elem_of_here|].
  specialize (IH (Z.min x y)).
  apply elem_of_cons in IH as [E|Hin].
  - rewrite E.
    destruct (Z.min_spec x y) as [[_ ->]|[_ ->]];
      [apply list_elem_of_here|apply list_elem_of_further, list_elem_of_here].
  - by do 2 apply list_elem_of_further.
Qed.

Lemma foldl_max_foldr (l : list Z) (x : Z) :
  0 ≤ x → foldl Z.max x l = foldr Z.max 0 (x :: l).
Proof.
  revert x. induction l as [|y l IH]; intros x Hx; simpl; [lia|].
  rewrite IH by lia. simpl. lia.
Qed.

Lemma foldr_max_ge (l : list Z) : Forall (λ y, y ≤ foldr Z.max 0 l) l.
Proof.
  induction l as [|y l IH]; simpl; constructor; [lia|].
  eapply Forall_impl; [exact IH|]. simpl. intros; lia.
Qed.

Lemma foldr_max_nonneg (l : list Z) : 0 ≤ foldr Z.max 0 l.
Proof. induction l; simpl; lia. Qed.

Lemma foldr_max_in (l : list Z) :
  l ≠ [] → Forall (λ x, 0 ≤ x) l → foldr Z.max 0 l ∈ l.
Proof.
  induction l as [|y l IH]; intros Hne Hpos; [done|]. simpl.
  inversion Hpos as [|? ? Hy Hl]; subst.
  destruct l as [|y' l'].
  - simpl. replace (Z.max y 0) with y by lia. apply list_elem_of_here.
  - specialize (IH ltac:(done) Hl).
    destruct (Z.max_spec y (foldr Z.max 0 (y' :: l'))) as [[_ ->]|[_ ->]];
      [by apply list_elem_of_further|apply list_elem_of_here].
Qed.

End array_facts.

(** ** The two nested loops fill the matrix entry by entry *)

Section overlap_loops.

Lemma fill_row_prefix (f : nat → Z) (row : list Z) (k : nat) :
  (k ≤ length row)%nat →
  foldl (λ r j, <[j := f j]> r) row (seq 0 k) = map f (seq 0 k) ++ drop k row.
Proof.
  induction k as [|k IH]; intros Hk; [by rewrite drop_0|].
  rewrite seq_S, foldl_app, map_app. simpl.
  rewrite IH by lia.
  destruct (lookup_lt_is_Some_2 row k ltac:(lia)) as [y Hy].
  rewrite (drop_S _ _ _ Hy).
  rewrite insert_app_r_alt by (rewrite length_map, length_seq; lia).
  rewrite length_map, length_seq, Nat.sub_diag. simpl.
  by rewrite <- app_assoc.
Qed.

Lemma fill_row (f : nat → Z) (row : list Z) :
  foldl (λ r j, <[j := f j]> r) row (seq 0 (length row))
  = map f (seq 0 (length row)).
Proof.
  rewrite fill_row_prefix by lia. by rewrite drop_all, app_nil_r.
Qed.

Lemma inner_loop (M : matrix) (k1 : nat) (f : nat → Z) (l : list nat) :
  foldl (λ M k2, mset M k1 k2 (f k2)) M l
  = Matrix (nrows M) (ncols M)
      (alter (λ row, foldl (λ r j, <[j := f j]> r) row l) k1 (rows_of M)).
Proof.
  revert M. induction l as [|k2 l IH]; intros M; simpl.
  - rewrite list_alter_id by done. by destruct M.
  - rewrite IH. unfold mset; simpl. f_equal.
    rewrite list_alter_alter_eq. reflexivity.
Qed.

Lemma fill_rows_prefix (h : nat → list Z → list Z) (rows : list (list Z)) (k : nat) :
  (k ≤ length rows)%nat →
  foldl (λ rows i, alter (h i) i rows) rows (seq 0 k)
  = zip_with h (seq 0 k) (take k rows) ++ drop k rows.
Proof.
  induction k as [|k IH]; intros Hk; [by rewrite drop_0|].
  rewrite seq_S, foldl_app. simpl. rewrite IH by lia.
  destruct (lookup_lt_is_Some_2 rows k ltac:(lia)) as [y Hy].
  rewrite (drop_S _ _ _ Hy), (take_S_r _ _ _ Hy).
  assert (length (zip_with h (seq 0 k) (take k rows)) = k) as Hlen.
  { rewrite length_zip_with, length_seq, length_take. lia. }
  rewrite alter_app_r_alt by lia.
  rewrite Hlen, Nat.sub_diag. simpl.
  rewrite zip_with_app by (rewrite length_seq, length_take; lia).
  simpl. by rewrite <- app_assoc.
Qed.

Lemma outer_loop (m : nat) (f : nat → nat → Z) (M : matrix) (l : list nat) :
  foldl (λ M k1, foldl (λ M k2, mset M k1 k2 (f k1 k2)) M (seq 0 m)) M l
  = Matrix (nrows M) (ncols M)
      (foldl (λ rows i,
                alter (λ row, foldl (λ r j, <[j := f i j]> r) row (seq 0 m)) i rows)
             (rows_of M) l).
Proof.
  revert M. induction l as [|k1 l IH]; intros M; simpl; [by destruct M|].
  rewrite IH, inner_loop. reflexivity.
Qed.

(** After both loops every cell holds the value computed for it. *)
Lemma overlap_loops (n m : nat) (f : nat → nat → Z) :
  foldl (λ M k1, foldl (λ M k2, mset M k1 k2 (f k1 k2)) M (seq 0 m))
        (Matrix n m (replicate n (replicate m 0))) (seq 0 n)
  = tabulate n m f.
Proof.
  rewrite outer_loop. unfold tabulate; simpl. f_equal.
  pose proof (fill_rows_prefix
    (λ i row, foldl (λ r j, <[j := f i j]> r) row (seq 0 m))
    (replicate n (replicate m 0)) n) as H.
  rewrite length_replicate in H. rewrite H by lia. clear H.
  rewrite drop_ge, app_nil_r by (rewrite length_replicate; lia).
  rewrite take_ge by (rewrite length_replicate; lia).
  apply list_eq. intros i.
  rewrite lookup_zip_with, list_lookup_fmap.
  destruct (decide (i < n)%nat) as [Hi|Hi].
  - rewrite lookup_seq_lt by done. simpl.
    rewrite lookup_replicate_2 by done. simpl. f_equal.
    pose proof (fill_row (f i) (replicate m 0)) as H.
    rewrite length_replicate in H. exact H.
  - rewrite lookup_seq_ge by lia. reflexivity.
Qed.

End overlap_loops.

(** ** What compute_state_overlap returns *)

Section overlap_result.

Lemma np_min_nonneg (z : list Z) :
  z ≠ [] → Forall (λ x, 0 ≤ x) z → ∃ mn, np_min z = Ok mn ∧ 0 ≤ mn.
Proof.
  intros Hne Hpos. destruct z as [|x l]; [done|].
  exists (foldl Z.min x l). split; [reflexivity|].
  pose proof (foldl_min_in l x) as Hin.
  rewrite Forall_forall in Hpos. by apply Hpos.
Qed.

Lemma np_max_foldr (z : list Z) :
  z ≠ [] → Forall (λ x, 0 ≤ x) z → np_max z = Ok (foldr Z.max 0 z).
Proof.
  intros Hne Hpos. destruct z as [|x l]; [done|].
  unfold np_max. inversion Hpos; subst.
  by rewrite foldl_max_foldr.
Qed.

Lemma int64_wrap_id (x : Z) : int64 x → int64_wrap x = x.
Proof.
  unfold int64, int64_wrap. intros Hx. rewrite Z.mod_small by lia. lia.
Qed.

Lemma int64_wrap_range (x : Z) : int64 (int64_wrap x).
Proof.
  unfold int64, int64_wrap.
  pose proof (Z.mod_pos_bound (x + 9223372036854775808) 18446744073709551616
                ltac:(lia)). lia.
Qed.

Lemma foldr_max_int64 (z : list Z) : Forall int64 z → int64 (foldr Z.max 0 z).
Proof.
  induction 1 as [|x z Hx _ IH]; simpl; unfold int64 in *; lia.
Qed.

(** A defaulted dimension that is not negative is one more than the largest
    label: nothing wrapped. *)
Lemma default_K_exact (z : list Z) :
  Forall int64 z → 0 ≤ default_K z → default_K z = foldr Z.max 0 z + 1.
Proof.
  intros Hz. pose proof (foldr_max_int64 z Hz) as Hm.
  pose proof (foldr_max_nonneg z) as H0.
  unfold default_K, int64 in *. intros Hk.
  destruct (decide (foldr Z.max 0 z + 1 < 9223372036854775808)) as [Hlt|Hge].
  - apply int64_wrap_id. unfold int64. lia.
  - replace (foldr Z.max 0 z + 1) with 9223372036854775808 in Hk by lia.
    vm_compute in Hk. by destruct Hk.
Qed.

(** The default wraps exactly when the largest label is 2^63 - 1. *)
Lemma default_K_below (z : list Z) :
  Forall (λ x, x < 9223372036854775807) z →
  default_K z = foldr Z.max 0 z + 1.
Proof.
  intros Hz. pose proof (foldr_max_nonneg z) as H0.
  assert (foldr Z.max 0 z < 9223372036854775807) as Hm.
  { induction Hz as [|x z Hx _ IH]; simpl in *; [lia|].
    pose proof (foldr_max_nonneg z). lia. }
  unfold default_K. apply int64_wrap_id. unfold int64. lia.
Qed.

Lemma resolve_K_Ok (K : option Z) (z : list Z) :
  z ≠ [] → Forall (λ x, 0 ≤ x) z →
  match K with
  | None => mx ← np_max z; Ok (int64_wrap (mx + 1))
  | Some k => Ok k
  end = Ok (resolve_K K z).
Proof.
  intros Hne Hpos. destruct K as [k|]; [reflexivity|].
  rewrite np_max_foldr by done. reflexivity.
Qed.

(** On valid labels only the allocation of the matrix can still fail. *)
Lemma compute_state_overlap_valid (z1 z2 : list Z) (K1 K2 : option Z) :
  valid_labels z1 z2 →
  compute_state_overlap z1 z2 K1 K2
  = if (resolve_K K1 z1 <? 0) || (resolve_K K2 z2 <? 0)
    then Raise (ValueError "negative dimensions are not allowed")
    else Ok (tabulate (Z.to_nat (resolve_K K1 z1)) (Z.to_nat (resolve_K K2 z2))
                      (cell z1 z2)).
Proof.
  intros (Hne & Hlen & Hp1 & Hp2).
  assert (z2 ≠ []) as Hne2 by (intros ->; destruct z1; simpl in *; done).
  unfold compute_state_overlap.
  rewrite bool_decide_eq_true_2 by done. simpl.
  destruct (np_min_nonneg z1 Hne Hp1) as (mn1 & -> & Hmn1).
  destruct (np_min_nonneg z2 Hne2 Hp2) as (mn2 & E2 & Hmn2). simpl.
  rewrite (proj2 (Z.leb_le 0 mn1) Hmn1). rewrite E2. simpl.
  rewrite (proj2 (Z.leb_le 0 mn2) Hmn2). simpl.
  rewrite (resolve_K_Ok K1 z1 Hne Hp1). simpl.
  rewrite (resolve_K_Ok K2 z2 Hne2 Hp2). simpl.
  unfold np_zeros.
  destruct ((resolve_K K1 z1 <? 0) || (resolve_K K2 z2 <? 0)); simpl; [reflexivity|].
  f_equal. unfold py_range. apply overlap_loops.
Qed.

Lemma compute_state_overlap_Ok (z1 z2 : list Z) (K1 K2 : option Z) :
  valid_labels z1 z2 →
  0 ≤ resolve_K K1 z1 → 0 ≤ resolve_K K2 z2 →
  compute_state_overlap z1 z2 K1 K2
  = Ok (tabulate (Z.to_nat (resolve_K K1 z1)) (Z.to_nat (resolve_K K2 z2))
                 (cell z1 z2)).
Proof.
  intros Hv HK1 HK2. rewrite compute_state_overlap_valid by done.
  by rewrite (proj2 (Z.ltb_ge _ _) HK1), (proj2 (Z.ltb_ge _ _) HK2).
Qed.

Lemma tabulate_wf (n m : nat) (f : nat → nat → Z) : matrix_wf (tabulate n m f).
Proof.
  split; simpl.
  - by rewrite length_map, length_seq.
  - rewrite Forall_forall. intros r Hr.
    apply list_elem_of_fmap in Hr as (i & -> & _).
    by rewrite length_map, length_seq.
Qed.

Lemma mget_tabulate (n m : nat) (f : nat → nat → Z) (i j : nat) :
  (i < n)%nat → (j < m)%nat → mget (tabulate n m f) i j = f i j.
Proof.
  intros Hi Hj. unfold mget, tabulate; simpl.
  rewrite list_lookup_fmap, lookup_seq_lt by done. simpl.
  rewrite list_lookup_fmap, lookup_seq_lt by done. reflexivity.
Qed.

Lemma length_filter_shift (P : nat → Prop) `{!∀ t, Decision (P t)} (n : nat) :
  length (filter P (seq 1 n)) = length (filter (λ t, P (S t)) (seq 0 n)).
Proof.
  generalize 0%nat as s. induction n as [|n IH]; intros s; [reflexivity|].
  simpl seq. rewrite !filter_cons.
  destruct (decide (P (S s))); simpl; by rewrite IH.
Qed.

(** The vectorised count of the code is the count by positions. *)
Lemma cell_cooccurrences (z1 z2 : list Z) (k1 k2 : Z) :
  length z1 = length z2 →
  np_sum_bool (np_and (np_eq z1 k1) (np_eq z2 k2)) = cooccurrences z1 z2 k1 k2.
Proof.
  revert z2. induction z1 as [|x z1 IH]; intros [|y z2] Hlen;
    simpl in Hlen; try discriminate; [reflexivity|].
  unfold np_and, np_eq in *. simpl. rewrite np_sum_bool_cons.
  rewrite IH by lia. unfold cooccurrences. simpl length at 2. simpl seq.
  rewrite filter_cons.
  assert (length (filter (λ t, (x :: z1) !! t = Some k1 ∧ (y :: z2) !! t = Some k2)
                         (seq 1 (length z1)))
          = length (filter (λ t, z1 !! t = Some k1 ∧ z2 !! t = Some k2)
                         (seq 0 (length z1)))) as Hs.
  { etrans; [apply length_filter_shift; apply _|].
    reflexivity. }
  destruct (Z.eqb_spec x k1) as [->|Hx], (Z.eqb_spec y k2) as [->|Hy]; simpl;
    case_decide as Hd; simpl length; rewrite ?Hs; try lia; exfalso.
  all: try (apply Hd; done).
  all: destruct Hd as [[=] [=]]; done.
Qed.

End overlap_result.

(** ** The entries of the overlap matrix add up to the positions in range *)

Section overlap_sum.

Lemma zsum_app (l1 l2 : list Z) : zsum (l1 ++ l2) = zsum l1 + zsum l2.
Proof. unfold zsum. induction l1; simpl; lia. Qed.

Lemma zsum_map_add {A} (a b : A → Z) (l : list A) :
  zsum (map (λ i, a i + b i) l) = zsum (map a l) + zsum (map b l).
Proof. unfold zsum. induction l; simpl; lia. Qed.

Lemma zsum_map_zero {A} (l : list A) : zsum (map (λ _, 0) l) = 0.
Proof. unfold zsum. induction l; simpl; lia. Qed.

Lemma zsum_indicator (n : nat) (x c : Z) :
  zsum (map (λ i : nat, if x =? Z.of_nat i then c else 0) (seq 0 n))
  = if decide (0 ≤ x < Z.of_nat n) then c else 0.
Proof.
  induction n as [|n IH].
  - simpl. case_decide; [lia|reflexivity].
  - rewrite seq_S, map_app, zsum_app, IH. simpl. unfold zsum; simpl.
    destruct (Z.eqb_spec x (Z.of_nat n)); repeat case_decide; lia.
Qed.

Lemma zsum_indicator2 (n m : nat) (x y : Z) :
  zsum (map (λ i : nat,
    zsum (map (λ j : nat,
      if (x =? Z.of_nat i) && (y =? Z.of_nat j) then 1 else 0) (seq 0 m)))
    (seq 0 n))
  = if decide (in_shape (Z.of_nat n) (Z.of_nat m) (x, y)) then 1 else 0.
Proof.
  erewrite map_ext.
  - rewrite (zsum_indicator n x (if decide (0 ≤ y < Z.of_nat m) then 1 else 0)).
    unfold in_shape; simpl. repeat case_decide; lia.
  - intros i. simpl. destruct (x =? Z.of_nat i); simpl.
    + apply zsum_indicator.
    + apply zsum_map_zero.
Qed.

Lemma cell_cons (x y : Z) (z1 z2 : list Z) (i j : nat) :
  cell (x :: z1) (y :: z2) i j
  = (if (x =? Z.of_nat i) && (y =? Z.of_nat j) then 1 else 0) + cell z1 z2 i j.
Proof. unfold cell, np_and, np_eq. simpl. apply np_sum_bool_cons. Qed.

Lemma msum_tabulate (n m : nat) (f : nat → nat → Z) :
  msum (tabulate n m f) = zsum (map (λ i, zsum (map (f i) (seq 0 m))) (seq 0 n)).
Proof. unfold msum, tabulate, zsum; simpl. by rewrite map_map. Qed.

(** Every position whose two labels fit the shape adds one to exactly one
    cell; the others add nothing. *)
Lemma msum_overlap (z1 z2 : list Z) (n m : nat) :
  length z1 = length z2 →
  msum (tabulate n m (cell z1 z2))
  = Z.of_nat (length (filter (in_shape (Z.of_nat n) (Z.of_nat m)) (zip z1 z2))).
Proof.
  rewrite msum_tabulate. revert z2.
  induction z1 as [|x z1 IH]; intros [|y z2] Hlen; simpl in Hlen; try discriminate.
  - simpl. erewrite map_ext; [apply zsum_map_zero|].
    intros i. simpl. apply zsum_map_zero.
  - erewrite map_ext.
    2:{ intros i. erewrite map_ext; [|intros j; apply cell_cons].
        apply zsum_map_add. }
    rewrite zsum_map_add, zsum_indicator2, IH by lia.
    simpl zip. rewrite filter_cons.
    case_decide; simpl length; lia.
Qed.

Lemma length_filter_le {A} (P : A → Prop) `{!∀ x, Decision (P x)} (l : list A) :
  (length (filter P l) ≤ length l)%nat.
Proof.
  induction l as [|a l IH]; [done|]. rewrite filter_cons.
  destruct (decide (P a)); simpl; lia.
Qed.

Lemma length_filter_all {A} (P : A → Prop) `{!∀ x, Decision (P x)} (l : list A) :
  Forall P l → length (filter P l) = length l.
Proof.
  induction 1 as [|a l Ha Hl IH]; [done|].
  rewrite filter_cons_True by done. simpl. by rewrite IH.
Qed.

Lemma length_filter_lt {A} (P : A → Prop) `{!∀ x, Decision (P x)} (l : list A) (a : A) :
  a ∈ l → ¬ P a → (length (filter P l) < length l)%nat.
Proof.
  induction 1 as [a l|a b l Hin IH]; intros Hna.
  - rewrite filter_cons_False by done. simpl.
    pose proof (length_filter_le P l). lia.
  - rewrite filter_cons. specialize (IH Hna).
    destruct (decide (P b)); simpl; lia.
Qed.

End overlap_sum.


(** ** find_permutation on the examples of the specification *)

Example find_permutation_swap :
  find_permutation exhaustive_lsa_first elements [0;0;1;1] [1;1;0;0] None None
  = Ok [1; 0]%nat.
Proof. vm_compute. reflexivity. Qed.

Example find_permutation_rect :
  find_permutation exhaustive_lsa_first elements [0;0;0;1;1] [0;1;2;2;2] (Some 2) (Some 3)
  = Ok [0; 2; 1]%nat.
Proof. vm_compute. reflexivity. Qed.

(** ** Assignments as lists and as maps *)

Section assignments.

Lemma mneg_wf (M : matrix) : matrix_wf M → matrix_wf (mneg M).
Proof.
  intros [Hr Hc]. split; simpl.
  - by rewrite length_map.
  - rewrite Forall_forall in Hc |- *. intros r Hr'.
    apply list_elem_of_fmap in Hr' as (r0 & -> & Hin).
    rewrite length_map. by apply Hc.
Qed.

Lemma mget_mneg (M : matrix) (i j : nat) : mget (mneg M) i j = - mget M i j.
Proof.
  unfold mget, mneg; simpl. rewrite list_lookup_fmap.
  destruct (rows_of M !! i) as [r|]; simpl; [|reflexivity].
  rewrite list_lookup_fmap. destruct (r !! j); reflexivity.
Qed.

Lemma zsum_map_opp {A} (f : A → Z) (l : list A) :
  zsum (map (λ a, - f a) l) = - zsum (map f l).
Proof. unfold zsum. induction l; simpl; lia. Qed.

Lemma assignment_cost_mneg (M : matrix) (rows cols : list nat) :
  assignment_cost (mneg M) rows cols = - assignment_cost M rows cols.
Proof.
  unfold assignment_cost. revert cols.
  induction rows as [|r rows IH]; intros [|c cols]; simpl; try reflexivity.
  unfold zsum in *; simpl. rewrite IH, mget_mneg. lia.
Qed.

Lemma cost_total_overlap (C : matrix) (sigma : nat → nat) :
  assignment_cost C (seq 0 (nrows C)) (map sigma (seq 0 (nrows C)))
  = total_overlap C sigma.
Proof.
  unfold assignment_cost, total_overlap. f_equal.
  generalize (seq 0 (nrows C)) as l.
  induction l as [|k l IH]; simpl; [reflexivity|]. by rewrite IH.
Qed.

Lemma map_as_map (cols : list nat) :
  map (as_map cols) (seq 0 (length cols)) = cols.
Proof.
  apply list_eq. intros i. rewrite list_lookup_fmap.
  destruct (decide (i < length cols)%nat) as [Hi|Hi].
  - rewrite lookup_seq_lt by done. simpl. unfold as_map.
    destruct (lookup_lt_is_Some_2 cols i Hi) as [c Hc]. by rewrite Hc.
  - rewrite lookup_seq_ge by lia. simpl. symmetry. apply lookup_ge_None. lia.
Qed.

Lemma injection_column_assignment (C : matrix) (sigma : nat → nat) :
  injection (nrows C) (ncols C) sigma →
  column_assignment C (map sigma (seq 0 (nrows C))).
Proof.
  intros [Hran Hinj]. repeat split.
  - by rewrite length_map, length_seq.
  - apply NoDup_alt. intros i j x Hi Hj.
    rewrite list_lookup_fmap in Hi, Hj.
    destruct (seq 0 (nrows C) !! i) as [i'|] eqn:Ei; [|done].
    destruct (seq 0 (nrows C) !! j) as [j'|] eqn:Ej; [|done].
    apply lookup_seq in Ei as [-> Hi'], Ej as [-> Hj'].
    simpl in *. apply Hinj; [done..|congruence].
  - rewrite Forall_forall. intros c Hc.
    apply list_elem_of_fmap in Hc as (k & -> & Hk).
    apply elem_of_seq in Hk. apply Hran. lia.
Qed.

Lemma column_assignment_injection (C : matrix) (cols : list nat) :
  column_assignment C cols → injection (nrows C) (ncols C) (as_map cols).
Proof.
  intros (Hlen & Hnd & Hran). split.
  - intros k Hk. unfold as_map.
    destruct (lookup_lt_is_Some_2 cols k ltac:(lia)) as [c Hc]. rewrite Hc. simpl.
    rewrite Forall_forall in Hran. apply Hran. by eapply list_elem_of_lookup_2.
  - intros j k Hj Hk. unfold as_map.
    destruct (lookup_lt_is_Some_2 cols j ltac:(lia)) as [c Hc].
    destruct (lookup_lt_is_Some_2 cols k ltac:(lia)) as [c' Hc'].
    rewrite Hc, Hc'. simpl. intros <-.
    eapply NoDup_lookup; eauto.
Qed.

(** A duplicate-free list of [n] numbers below [n] lists them all. *)
Lemma NoDup_below_Permutation (l : list nat) (n : nat) :
  NoDup l → Forall (λ c, (c < n)%nat) l → length l = n → l ≡ₚ seq 0 n.
Proof.
  intros Hnd Hran Hlen. apply submseteq_length_Permutation.
  - apply NoDup_submseteq; [done|]. intros x Hx.
    rewrite Forall_forall in Hran. apply elem_of_seq. specialize (Hran x Hx). lia.
  - rewrite length_seq. lia.
Qed.

End assignments.

(** ** find_permutation, for any solver that meets its contract *)

Section find_permutation_spec.

Variable lsa : matrix → list nat * list nat.
Variable py_list : gset nat → list nat.

Lemma np_all_eq_arrays (a b : list nat) :
  length a = length b →
  np_eq_arrays a b = Ok (zip_with Nat.eqb a b) ∧
  (np_all (zip_with Nat.eqb a b) = true ↔ a = b).
Proof.
  intros Hlen. split; [unfold np_eq_arrays; by rewrite decide_True|].
  unfold np_all. revert b Hlen.
  induction a as [|x a IH]; intros [|y b] Hlen; simpl in *; try discriminate;
    [done|].
  rewrite andb_true_iff, (IH b) by lia.
  rewrite Nat.eqb_eq. split; [intros [-> ->]; done|intros [= -> ->]; done].
Qed.

(** Past the first assertion the result is the solver's columns followed
    by the padding. *)
Lemma find_permutation_unfold (z1 z2 : list Z) (K1 K2 : option Z) (ov : matrix) :
  compute_state_overlap z1 z2 K1 K2 = Ok ov →
  (nrows ov ≤ ncols ov)%nat →
  (lsa (mneg ov)).1 = seq 0 (nrows ov) →
  find_permutation lsa py_list z1 z2 K1 K2
  = Ok ((lsa (mneg ov)).2 ++
        if (nrows ov <? ncols ov)%nat
        then py_list (list_to_set (seq 0 (ncols ov)) ∖ list_to_set (lsa (mneg ov)).2)
        else []).
Proof.
  intros Hov Hle Hrows. unfold find_permutation. rewrite Hov. simpl.
  rewrite (proj2 (Nat.leb_le _ _) Hle). simpl.
  destruct (lsa (mneg ov)) as [tmp perm] eqn:E. simpl in *. subst tmp.
  destruct (np_all_eq_arrays (seq 0 (nrows ov)) (seq 0 (nrows ov)) eq_refl)
    as [-> Hall].
  simpl. rewrite (proj2 Hall eq_refl). simpl.
  destruct (nrows ov <? ncols ov)%nat; [reflexivity|by rewrite app_nil_r].
Qed.

(** The first assertion. *)
Lemma find_permutation_too_many_rows (z1 z2 : list Z) (K1 K2 : option Z) (ov : matrix) :
  compute_state_overlap z1 z2 K1 K2 = Ok ov →
  (ncols ov < nrows ov)%nat →
  find_permutation lsa py_list z1 z2 K1 K2
  = Raise (AssertionError "Can only find permutation from more states to fewer").
Proof.
  intros Hov Hlt. unfold find_permutation. rewrite Hov. simpl.
  rewrite (proj2 (Nat.leb_gt _ _) Hlt). reflexivity.
Qed.

Hypothesis lsa_ok : lsa_contract lsa.
Hypothesis py_list_ok : set_order_contract py_list.

Lemma elem_of_py_list (s : gset nat) (x : nat) : x ∈ py_list s ↔ x ∈ s.
Proof. rewrite (py_list_ok s). apply elem_of_elements. Qed.

Lemma NoDup_py_list (s : gset nat) : NoDup (py_list s).
Proof. rewrite (py_list_ok s). apply NoDup_elements. Qed.

(** Matched columns followed by the unused ones list every column once. *)
Lemma padded_Permutation (cols : list nat) (n : nat) :
  NoDup cols → Forall (λ c, (c < n)%nat) cols →
  cols ++ py_list (list_to_set (seq 0 n) ∖ list_to_set cols) ≡ₚ seq 0 n.
Proof.
  intros Hnd Hran. apply NoDup_Permutation.
  - apply NoDup_app. split; [done|]. split; [|apply NoDup_py_list].
    intros x Hx. rewrite elem_of_py_list, elem_of_difference, !elem_of_list_to_set.
    tauto.
  - apply NoDup_seq.
  - intros x.
    rewrite elem_of_app, elem_of_py_list, elem_of_difference, !elem_of_list_to_set.
    rewrite Forall_forall in Hran. split.
    + intros [Hx|[Hx _]]; [|done]. apply elem_of_seq. specialize (Hran x Hx). lia.
    + intros Hx. destruct (decide (x ∈ cols)); tauto.
Qed.

Lemma find_permutation_Ok (z1 z2 : list Z) (K1 K2 : option Z) (ov : matrix) :
  compute_state_overlap z1 z2 K1 K2 = Ok ov →
  matrix_wf ov → (nrows ov ≤ ncols ov)%nat →
  ∃ matched unused,
    find_permutation lsa py_list z1 z2 K1 K2 = Ok (matched ++ unused) ∧
    matched = (lsa (mneg ov)).2 ∧
    column_assignment ov matched ∧
    matched ++ unused ≡ₚ seq 0 (ncols ov) ∧
    (∀ cols, column_assignment ov cols →
       assignment_cost ov (seq 0 (nrows ov)) cols
       ≤ assignment_cost ov (seq 0 (nrows ov)) matched).
Proof.
  intros Hov Hwf Hle.
  destruct (lsa_ok (mneg ov) (mneg_wf ov Hwf) Hle) as (Hrows & Hcols & Hopt).
  simpl in Hrows.
  eexists _, _. split; [by apply find_permutation_unfold|].
  split; [reflexivity|].
  destruct Hcols as (Hlen & Hnd & Hran). simpl in Hlen, Hran.
  split; [done|]. split.
  - destruct (Nat.ltb_spec (nrows ov) (ncols ov)) as [Hlt|Hge].
    + by apply padded_Permutation.
    + rewrite app_nil_r. apply NoDup_below_Permutation; [done..|lia].
  - intros cols Hc. specialize (Hopt cols Hc). simpl in Hopt.
    rewrite !assignment_cost_mneg in Hopt. lia.
Qed.

End find_permutation_spec.

(** ** The exhaustive solver meets the contract *)

Section exhaustive.

Lemma elem_of_tuples (n m : nat) (l : list nat) :
  l ∈ tuples n m ↔ length l = n ∧ Forall (λ c, (c < m)%nat) l.
Proof.
  revert l. induction n as [|n IH]; intros l; simpl.
  - rewrite list_elem_of_singleton. split.
    + intros ->. by split.
    + intros [Hl _]. by destruct l.
  - rewrite list_elem_of_bind. split.
    + intros (c & Hl & Hc). apply list_elem_of_fmap in Hl as (t & -> & Ht).
      apply IH in Ht as [Hlen Hall]. apply elem_of_seq in Hc.
      split; [simpl; lia|]. constructor; [lia|done].
    + intros [Hlen Hall]. destruct l as [|c t]; [done|].
      inversion Hall; subst. exists c. split.
      * apply list_elem_of_fmap. exists t. split; [done|].
        apply IH. split; [simpl in Hlen; lia|done].
      * apply elem_of_seq. lia.
Qed.

Lemma elem_of_assignments (C : matrix) (cols : list nat) :
  cols ∈ assignments (nrows C) (ncols C) ↔ column_assignment C cols.
Proof.
  unfold assignments, column_assignment.
  rewrite list_elem_of_filter, elem_of_tuples. tauto.
Qed.

Lemma seq_column_assignment (C : matrix) :
  (nrows C ≤ ncols C)%nat → column_assignment C (seq 0 (nrows C)).
Proof.
  intros Hle. repeat split.
  - apply length_seq.
  - apply NoDup_seq.
  - rewrite Forall_forall. intros c Hc. apply elem_of_seq in Hc. lia.
Qed.

Variable replace : Z → Z → bool.
Hypothesis replace_le : ∀ a b, replace a b = true → a ≤ b.
Hypothesis keep_le : ∀ a b, replace a b = false → b ≤ a.

Lemma argmin_in (cost : list nat → Z) (best : list nat) (cands : list (list nat)) :
  argmin replace cost best cands ∈ best :: cands.
Proof.
  unfold argmin. revert best. induction cands as [|c cands IH]; intros best; simpl.
  - apply list_elem_of_here.
  - destruct (replace (cost c) (cost best)).
    + specialize (IH c). apply list_elem_of_further. exact IH.
    + specialize (IH best). apply elem_of_cons in IH as [E|H].
      * rewrite E. apply list_elem_of_here.
      * do 2 apply list_elem_of_further. exact H.
Qed.

Lemma argmin_le (cost : list nat → Z) (best : list nat) (cands : list (list nat)) :
  ∀ c, c ∈ best :: cands → cost (argmin replace cost best cands) ≤ cost c.
Proof.
  unfold argmin. revert best. induction cands as [|c0 cands IH]; intros best c Hc; simpl.
  - apply list_elem_of_singleton in Hc as ->. lia.
  - destruct (replace (cost c0) (cost best)) eqn:E.
    + apply replace_le in E.
      apply elem_of_cons in Hc as [->|Hc]; [|apply elem_of_cons in Hc as [->|Hc]].
      * etrans; [apply (IH c0 c0); apply list_elem_of_here|done].
      * apply IH, list_elem_of_here.
      * apply IH, list_elem_of_further, Hc.
    + apply keep_le in E.
      apply elem_of_cons in Hc as [->|Hc]; [|apply elem_of_cons in Hc as [->|Hc]].
      * apply IH, list_elem_of_here.
      * etrans; [apply (IH best best); apply list_elem_of_here|done].
      * apply IH, list_elem_of_further, Hc.
Qed.

Lemma exhaustive_lsa_contract : lsa_contract (exhaustive_lsa replace).
Proof.
  intros C Hwf Hle. unfold exhaustive_lsa; simpl.
  set (cost := assignment_cost C (seq 0 (nrows C))).
  set (cands := assignments (nrows C) (ncols C)).
  split; [reflexivity|]. split.
  - pose proof (argmin_in cost (seq 0 (nrows C)) cands) as Hin.
    apply elem_of_cons in Hin as [->|Hin].
    + by apply seq_column_assignment.
    + by apply elem_of_assignments.
  - intros cols Hcols. apply argmin_le.
    apply list_elem_of_further. by apply elem_of_assignments.
Qed.

End exhaustive.

Lemma exhaustive_lsa_first_contract : lsa_contract exhaustive_lsa_first.
Proof.
  apply exhaustive_lsa_contract; intros a b H.
  - apply Z.ltb_lt in H. lia.
  - apply Z.ltb_ge in H. lia.
Qed.

Lemma exhaustive_lsa_last_contract : lsa_contract exhaustive_lsa_last.
Proof.
  apply exhaustive_lsa_contract; intros a b H.
  - apply Z.leb_le in H. lia.
  - apply Z.leb_gt in H. lia.
Qed.

Lemma elements_order_contract : set_order_contract elements.
Proof. intros s. reflexivity. Qed.

(** ** Dimensions *)

Section dimensions.

Lemma default_K_is_max (z : list Z) :
  z ≠ [] → Forall (λ x, 0 ≤ x) z → Forall int64 z → 0 ≤ default_K z →
  is_max z (default_K z - 1).
Proof.
  intros Hne Hpos Hz Hk. rewrite default_K_exact by done. unfold is_max.
  replace (foldr Z.max 0 z + 1 - 1) with (foldr Z.max 0 z) by lia.
  split; [by apply foldr_max_in|apply foldr_max_ge].
Qed.

Lemma resolve_K_dimension (K : option Z) (z : list Z) :
  z ≠ [] → Forall (λ x, 0 ≤ x) z → Forall int64 z → 0 ≤ resolve_K K z →
  dimension K z (Z.to_nat (resolve_K K z)).
Proof.
  intros Hne Hpos Hz H0.
  destruct K as [k|]; simpl in *; [lia|].
  exists (default_K z - 1). split; [by apply default_K_is_max|lia].
Qed.

Lemma default_K_exceeds (z : list Z) :
  Forall int64 z → 0 ≤ default_K z → Forall (λ x, x < default_K z) z.
Proof.
  intros Hz Hk. rewrite default_K_exact by done.
  eapply Forall_impl; [apply foldr_max_ge|].
  simpl. intros; lia.
Qed.

Lemma below_max_int64 (z : list Z) :
  Forall (λ x, 0 ≤ x) z → Forall (λ x, x < 9223372036854775807) z →
  Forall int64 z.
Proof.
  intros Hp Hb. rewrite Forall_forall in Hp, Hb. apply Forall_forall.
  intros x Hx. specialize (Hp x Hx). specialize (Hb x Hx). unfold int64. lia.
Qed.

Lemma default_K_pos (z : list Z) :
  Forall (λ x, x < 9223372036854775807) z → 1 ≤ default_K z.
Proof.
  intros Hb. rewrite default_K_below by done.
  pose proof (foldr_max_nonneg z). lia.
Qed.

Lemma is_max_unique (z : list Z) (a b : Z) : is_max z a → is_max z b → a = b.
Proof.
  intros [Ha Ha'] [Hb Hb']. rewrite Forall_forall in Ha', Hb'.
  specialize (Ha' b Hb). specialize (Hb' a Ha). lia.
Qed.

Lemma valid_labels_nonempty_r (z1 z2 : list Z) : valid_labels z1 z2 → z2 ≠ [].
Proof. intros (Hne & Hlen & _) ->. destruct z1; simpl in *; done. Qed.

End dimensions.

(** ** The claims about compute_state_overlap *)

(** C6, amended. On valid label sequences of dtype int whose resulting
    dimensions are not negative, compute_state_overlap returns a K1 x K2
    matrix whose entry (k1, k2) is the number of positions at which sequence
    1 carries k1 and sequence 2 carries k2; a dimension that is not supplied
    is one more than the largest label of its sequence.  (The default is
    computed in int64 and is negative exactly when the largest label is
    2^63 - 1.) *)
Theorem compute_state_overlap_counts (z1 z2 : list Z) (K1 K2 : option Z) :
  valid_labels z1 z2 → int64_labels z1 z2 →
  0 ≤ resolve_K K1 z1 → 0 ≤ resolve_K K2 z2 →
  ∃ ov, compute_state_overlap z1 z2 K1 K2 = Ok ov ∧
        matrix_wf ov ∧
        dimension K1 z1 (nrows ov) ∧ dimension K2 z2 (ncols ov) ∧
        ∀ k1 k2, (k1 < nrows ov)%nat → (k2 < ncols ov)%nat →
          mget ov k1 k2 = cooccurrences z1 z2 (Z.of_nat k1) (Z.of_nat k2).
Proof.
  intros Hv [Hi1 Hi2] HK1 HK2.
  pose proof (valid_labels_nonempty_r _ _ Hv) as Hne2.
  destruct Hv as (Hne & Hlen & Hp1 & Hp2).
  eexists. split.
  { by apply compute_state_overlap_Ok. }
  split; [apply tabulate_wf|]. simpl.
  split; [by apply resolve_K_dimension|].
  split; [by apply resolve_K_dimension|].
  intros k1 k2 H1 H2. rewrite mget_tabulate by done.
  by apply cell_cooccurrences.
Qed.

Lemma compute_state_overlap_counts_witness :
  valid_labels [0;0;1;1] [1;1;0;0] ∧ int64_labels [0;0;1;1] [1;1;0;0] ∧
  0 ≤ resolve_K None [0;0;1;1] ∧ 0 ≤ resolve_K None [1;1;0;0] ∧
  ∃ ov, compute_state_overlap [0;0;1;1] [1;1;0;0] None None = Ok ov ∧
        matrix_wf ov ∧
        dimension None [0;0;1;1] (nrows ov) ∧ dimension None [1;1;0;0] (ncols ov) ∧
        ∀ k1 k2, (k1 < nrows ov)%nat → (k2 < ncols ov)%nat →
          mget ov k1 k2 = cooccurrences [0;0;1;1] [1;1;0;0] (Z.of_nat k1) (Z.of_nat k2).
Proof.
  assert (valid_labels [0;0;1;1] [1;1;0;0]) as Hv
    by (repeat split; [done|repeat constructor; lia..]).
  assert (int64_labels [0;0;1;1] [1;1;0;0]) as Hi
    by (split; repeat constructor; unfold int64; lia).
  assert (0 ≤ resolve_K None [0;0;1;1]) as H1 by (vm_compute; discriminate).
  assert (0 ≤ resolve_K None [1;1;0;0]) as H2 by (vm_compute; discriminate).
  do 4 (split; [done|]).
  exact (compute_state_overlap_counts [0;0;1;1] [1;1;0;0] None None Hv Hi H1 H2).
Defined.

(** C6 as stated fails at the largest int64 label: the default dimension
    [z1.max() + 1] wraps around to -2^63 and [np.zeros] refuses it. *)
Lemma compute_state_overlap_counts_wraps :
  valid_labels [9223372036854775807] [0] ∧
  int64_labels [9223372036854775807] [0] ∧
  resolve_K None [9223372036854775807] = -9223372036854775808 ∧
  compute_state_overlap [9223372036854775807] [0] None None
  = Raise (ValueError "negative dimensions are not allowed") ∧
  ¬ (∃ ov, compute_state_overlap [9223372036854775807] [0] None None = Ok ov).
Proof.
  split; [repeat split; [done|repeat constructor; lia..]|].
  split; [split; repeat constructor; unfold int64; lia|].
  split; [vm_compute; reflexivity|].
  split; [vm_compute; reflexivity|].
  intros [ov Hov]. vm_compute in Hov. discriminate.
Qed.

Lemma Forall_in_shape (a b : Z) (z1 z2 : list Z) :
  length z1 = length z2 →
  Forall (λ x, 0 ≤ x) z1 → Forall (λ x, 0 ≤ x) z2 →
  Forall (λ x, x < a) z1 → Forall (λ x, x < b) z2 →
  Forall (in_shape a b) (zip z1 z2).
Proof.
  revert z2. induction z1 as [|x z1 IH]; intros [|y z2] Hlen Hp1 Hp2 Hr1 Hr2;
    simpl in *; try discriminate; [constructor|].
  inversion Hp1; inversion Hr1; inversion Hp2; inversion Hr2; subst.
  constructor; [unfold in_shape; simpl; lia|]. apply IH; auto.
Qed.

(** C5, amended. For non-empty sequences of dtype int: when every label of
    z1 is below K1 and every label of z2 is below K2 (defaulted or
    supplied, as the function resolves them), the entries of the overlap
    matrix add up to the length T of the sequences. *)
Theorem compute_state_overlap_sum (z1 z2 : list Z) (K1 K2 : option Z) :
  valid_labels z1 z2 → int64_labels z1 z2 →
  Forall (λ x, x < resolve_K K1 z1) z1 →
  Forall (λ x, x < resolve_K K2 z2) z2 →
  ∃ ov, compute_state_overlap z1 z2 K1 K2 = Ok ov ∧
        msum ov = Z.of_nat (length z1).
Proof.
  intros Hv _ Hr1 Hr2.
  pose proof (valid_labels_nonempty_r _ _ Hv) as Hne2.
  pose proof Hv as (Hne & Hlen & Hp1 & Hp2).
  assert (0 ≤ resolve_K K1 z1) as HK1.
  { destruct z1 as [|x z1]; [done|]. inversion Hr1; inversion Hp1; subst. lia. }
  assert (0 ≤ resolve_K K2 z2) as HK2.
  { destruct z2 as [|x z2]; [done|]. inversion Hr2; inversion Hp2; subst. lia. }
  eexists. split; [by apply compute_state_overlap_Ok|].
  rewrite msum_overlap by done. rewrite !Z2Nat.id by done.
  rewrite length_filter_all; [by rewrite length_zip_with, <- Hlen, Nat.min_id|].
  by apply Forall_in_shape.
Qed.

Lemma compute_state_overlap_sum_witness :
  valid_labels [0;0;0;1;1] [0;1;2;2;2] ∧ int64_labels [0;0;0;1;1] [0;1;2;2;2] ∧
  Forall (λ x, x < resolve_K (Some 2) [0;0;0;1;1]) [0;0;0;1;1] ∧
  Forall (λ x, x < resolve_K None [0;1;2;2;2]) [0;1;2;2;2] ∧
  ∃ ov, compute_state_overlap [0;0;0;1;1] [0;1;2;2;2] (Some 2) None = Ok ov ∧
        msum ov = Z.of_nat (length [0;0;0;1;1]).
Proof.
  assert (valid_labels [0;0;0;1;1] [0;1;2;2;2]) as Hv
    by (repeat split; [done|repeat constructor; lia..]).
  assert (int64_labels [0;0;0;1;1] [0;1;2;2;2]) as Hi
    by (split; repeat constructor; unfold int64; lia).
  assert (Forall (λ x, x < resolve_K (Some 2) [0;0;0;1;1]) [0;0;0;1;1]) as H1
    by (repeat constructor; simpl; lia).
  assert (Forall (λ x, x < resolve_K None [0;1;2;2;2]) [0;1;2;2;2]) as H2
    by (repeat constructor; vm_compute; reflexivity).
  do 4 (split; [done|]).
  exact (compute_state_overlap_sum [0;0;0;1;1] [0;1;2;2;2] (Some 2) None
           Hv Hi H1 H2).
Defined.

(** C5 as stated fails for sequences of length T = 0: every label is in
    range, the entries should add up to 0, but [z1.min()] of an empty array
    raises, whether the dimensions are supplied or not. *)
Lemma compute_state_overlap_sum_empty :
  length (@nil Z) = length (@nil Z) ∧
  Forall (λ x, 0 ≤ x < 1) (@nil Z) ∧
  compute_state_overlap [] [] (Some 1) (Some 1)
  = Raise (ValueError "zero-size array to reduction operation minimum which has no identity") ∧
  compute_state_overlap [] [] None None
  = Raise (ValueError "zero-size array to reduction operation minimum which has no identity") ∧
  ¬ (∃ ov, compute_state_overlap [] [] (Some 1) (Some 1) = Ok ov ∧
           msum ov = Z.of_nat (length (@nil Z))).
Proof.
  split; [reflexivity|]. split; [constructor|].
  split; [reflexivity|]. split; [reflexivity|].
  intros (ov & Hov & _). discriminate.
Qed.

(** ** The claims about find_permutation *)

Section find_permutation_claims.

Variable lsa : matrix → list nat * list nat.
Variable py_list : gset nat → list nat.

(** C4. When the resulting dimensions satisfy K1 > K2, find_permutation
    raises instead of returning: the assertion on the shape fails, whatever
    the solver (a negative K2 is refused even earlier, when the matrix is
    allocated). *)
Theorem find_permutation_rejects_more_rows (z1 z2 : list Z) (K1 K2 : option Z) :
  valid_labels z1 z2 →
  resolve_K K2 z2 < resolve_K K1 z1 →
  ∃ e, find_permutation lsa py_list z1 z2 K1 K2 = Raise e ∧
       (0 ≤ resolve_K K2 z2 →
        e = AssertionError "Can only find permutation from more states to fewer").
Proof.
  intros Hv Hlt.
  destruct (Z.le_gt_cases 0 (resolve_K K2 z2)) as [H2|H2].
  - eexists. split; [|reflexivity].
    eapply find_permutation_too_many_rows.
    + apply compute_state_overlap_Ok; [done|lia|done].
    + simpl. lia.
  - eexists. split; [|intros; lia].
    unfold find_permutation. rewrite compute_state_overlap_valid by done.
    rewrite (proj2 (Z.ltb_lt _ _) H2), orb_true_r. reflexivity.
Qed.

Hypothesis lsa_ok : lsa_contract lsa.
Hypothesis py_list_ok : set_order_contract py_list.

Lemma find_permutation_valid (z1 z2 : list Z) (K1 K2 : option Z) :
  valid_labels z1 z2 →
  0 ≤ resolve_K K1 z1 ≤ resolve_K K2 z2 →
  let n1 := Z.to_nat (resolve_K K1 z1) in
  let n2 := Z.to_nat (resolve_K K2 z2) in
  let ov := tabulate n1 n2 (cell z1 z2) in
  ∃ matched unused,
    compute_state_overlap z1 z2 K1 K2 = Ok ov ∧
    find_permutation lsa py_list z1 z2 K1 K2 = Ok (matched ++ unused) ∧
    matched = (lsa (mneg ov)).2 ∧
    column_assignment ov matched ∧
    matched ++ unused ≡ₚ seq 0 n2 ∧
    (∀ cols, column_assignment ov cols →
       assignment_cost ov (seq 0 n1) cols ≤ assignment_cost ov (seq 0 n1) matched).
Proof.
  intros Hv Hle n1 n2 ov.
  assert (compute_state_overlap z1 z2 K1 K2 = Ok ov) as Hov
    by (apply compute_state_overlap_Ok; [done|lia..]).
  destruct (find_permutation_Ok lsa py_list lsa_ok py_list_ok z1 z2 K1 K2 ov Hov)
    as (matched & unused & Hfp & Hm & Hca & Hperm & Hopt).
  { apply tabulate_wf. }
  { simpl. lia. }
  exists matched, unused. done.
Qed.

(** C3, amended. On valid label sequences of dtype int with 0 <= K1 <= K2
    (the dimensions as the function resolves them: a defaulted one is
    computed in int64), find_permutation returns a sequence of length
    K2 in which every index below K2 appears exactly once; its first K1
    entries are the columns the solver matched to the rows 0 .. K1-1, in
    this order, and the K2 - K1 entries after them are exactly the columns
    the solver left unmatched. *)
Theorem find_permutation_is_permutation (z1 z2 : list Z) (K1 K2 : option Z) :
  valid_labels z1 z2 → int64_labels z1 z2 →
  0 ≤ resolve_K K1 z1 ≤ resolve_K K2 z2 →
  ∃ ov perm,
    compute_state_overlap z1 z2 K1 K2 = Ok ov ∧
    Z.of_nat (nrows ov) = resolve_K K1 z1 ∧
    Z.of_nat (ncols ov) = resolve_K K2 z2 ∧
    find_permutation lsa py_list z1 z2 K1 K2 = Ok perm ∧
    length perm = ncols ov ∧
    perm ≡ₚ seq 0 (ncols ov) ∧
    take (nrows ov) perm = (lsa (mneg ov)).2 ∧
    length (drop (nrows ov) perm) = (ncols ov - nrows ov)%nat ∧
    ∀ c, c ∈ drop (nrows ov) perm ↔
         (c < ncols ov)%nat ∧ c ∉ (lsa (mneg ov)).2.
Proof.
  intros Hv _ Hle.
  destruct (find_permutation_valid z1 z2 K1 K2 Hv Hle)
    as (matched & unused & Hov & Hfp & Hm & (Hlen & Hnd & Hran) & Hperm & Hopt).
  set (ov := tabulate _ _ _) in *. simpl in Hlen, Hperm.
  change (Z.to_nat (resolve_K K1 z1)) with (nrows ov) in Hlen.
  change (Z.to_nat (resolve_K K2 z2)) with (ncols ov) in Hperm.
  exists ov, (matched ++ unused).
  assert (length (matched ++ unused) = ncols ov) as Hlen2.
  { by rewrite Hperm, length_seq. }
  split; [done|]. split; [simpl; lia|]. split; [simpl; lia|].
  split; [done|]. split; [done|]. split; [done|].
  assert (take (nrows ov) (matched ++ unused) = matched) as Htake
    by (rewrite <- Hlen; apply take_app_length).
  assert (drop (nrows ov) (matched ++ unused) = unused) as Hdrop
    by (rewrite <- Hlen; apply drop_app_length).
  rewrite Htake, Hdrop.
  split; [done|].
  split; [rewrite length_app in Hlen2; lia|].
  intros c. rewrite <- Hm.
  assert (NoDup (matched ++ unused)) as Hnd2 by (rewrite Hperm; apply NoDup_seq).
  apply NoDup_app in Hnd2 as (_ & Hdisj & _).
  assert (c ∈ matched ++ unused ↔ (c < ncols ov)%nat) as Hin.
  { rewrite Hperm, elem_of_seq. lia. }
  rewrite elem_of_app in Hin. split.
  - intros Hc. split; [tauto|]. intros Hc'. by apply (Hdisj c).
  - intros [Hc Hnc]. tauto.
Qed.

Lemma total_overlap_ext (ov : matrix) (f g : nat → nat) :
  (∀ k, (k < nrows ov)%nat → f k = g k) → total_overlap ov f = total_overlap ov g.
Proof.
  intros Hfg. unfold total_overlap. f_equal. apply map_ext_in.
  intros k Hk. apply in_seq in Hk. rewrite Hfg by lia. reflexivity.
Qed.

Lemma as_map_app_l (l1 l2 : list nat) (k : nat) :
  (k < length l1)%nat → as_map (l1 ++ l2) k = as_map l1 k.
Proof. intros Hk. unfold as_map. by rewrite lookup_app_l. Qed.

(** C2, amended. On valid label sequences of dtype int with 0 <= K1 <= K2
    (the dimensions as the function resolves them: a defaulted one is
    computed in int64), the first K1 entries of the permutation that
    find_permutation returns send the rows to distinct columns, and no
    one-to-one map from the rows {0..K1-1} into the columns {0..K2-1} has a
    larger total overlap. *)
Theorem find_permutation_maximizes_overlap (z1 z2 : list Z) (K1 K2 : option Z) :
  valid_labels z1 z2 → int64_labels z1 z2 →
  0 ≤ resolve_K K1 z1 ≤ resolve_K K2 z2 →
  ∃ ov perm,
    compute_state_overlap z1 z2 K1 K2 = Ok ov ∧
    Z.of_nat (nrows ov) = resolve_K K1 z1 ∧
    Z.of_nat (ncols ov) = resolve_K K2 z2 ∧
    find_permutation lsa py_list z1 z2 K1 K2 = Ok perm ∧
    NoDup (take (nrows ov) perm) ∧
    injection (nrows ov) (ncols ov) (as_map perm) ∧
    ∀ sigma, injection (nrows ov) (ncols ov) sigma →
      total_overlap ov sigma ≤ total_overlap ov (as_map perm).
Proof.
  intros Hv _ Hle.
  destruct (find_permutation_valid z1 z2 K1 K2 Hv Hle)
    as (matched & unused & Hov & Hfp & Hm & Hca & Hperm & Hopt).
  set (ov := tabulate _ _ _) in *.
  exists ov, (matched ++ unused).
  pose proof Hca as (Hlen & Hnd & Hran).
  assert (∀ k, (k < nrows ov)%nat → as_map (matched ++ unused) k = as_map matched k)
    as Hext by (intros k Hk; apply as_map_app_l; lia).
  split; [done|]. split; [simpl; lia|]. split; [simpl; lia|].
  split; [done|]. split.
  { rewrite take_app_length' by done. done. }
  split.
  - destruct (column_assignment_injection ov matched Hca) as [Hr Hi]. split.
    + intros k Hk. rewrite Hext by done. by apply Hr.
    + intros j k Hj Hk. rewrite !Hext by done. by apply Hi.
  - intros sigma Hs.
    rewrite (total_overlap_ext ov _ _ Hext).
    rewrite <- !cost_total_overlap.
    pose proof (map_as_map matched) as Hmm. rewrite Hlen in Hmm. rewrite Hmm.
    apply Hopt. by apply injection_column_assignment.
Qed.

End find_permutation_claims.

Lemma find_permutation_rejects_more_rows_witness :
  valid_labels [0;1;2] [0;0;0] ∧
  resolve_K None [0;0;0] < resolve_K None [0;1;2] ∧
  ∃ e, find_permutation exhaustive_lsa_first elements [0;1;2] [0;0;0] None None
       = Raise e ∧
       (0 ≤ resolve_K None [0;0;0] →
        e = AssertionError "Can only find permutation from more states to fewer").
Proof.
  assert (valid_labels [0;1;2] [0;0;0]) as Hv
    by (repeat split; [done|repeat constructor; lia..]).
  assert (resolve_K None [0;0;0] < resolve_K None [0;1;2]) as Hlt
    by (vm_compute; reflexivity).
  do 2 (split; [done|]).
  exact (find_permutation_rejects_more_rows exhaustive_lsa_first elements
           [0;1;2] [0;0;0] None None Hv Hlt).
Defined.

Example find_permutation_rejects_concrete :
  find_permutation exhaustive_lsa_first elements [0;1;2] [0;0;0] None None
  = Raise (AssertionError "Can only find permutation from more states to fewer").
Proof. vm_compute. reflexivity. Qed.

Lemma find_permutation_is_permutation_witness :
  lsa_contract exhaustive_lsa_first ∧ set_order_contract elements ∧
  valid_labels [0;0;0;1;1] [0;1;2;2;2] ∧ int64_labels [0;0;0;1;1] [0;1;2;2;2] ∧
  0 ≤ resolve_K None [0;0;0;1;1] ≤ resolve_K None [0;1;2;2;2] ∧
  ∃ ov perm,
    compute_state_overlap [0;0;0;1;1] [0;1;2;2;2] None None = Ok ov ∧
    Z.of_nat (nrows ov) = resolve_K None [0;0;0;1;1] ∧
    Z.of_nat (ncols ov) = resolve_K None [0;1;2;2;2] ∧
    find_permutation exhaustive_lsa_first elements [0;0;0;1;1] [0;1;2;2;2] None None
    = Ok perm ∧
    length perm = ncols ov ∧
    perm ≡ₚ seq 0 (ncols ov) ∧
    take (nrows ov) perm = (exhaustive_lsa_first (mneg ov)).2 ∧
    length (drop (nrows ov) perm) = (ncols ov - nrows ov)%nat ∧
    ∀ c, c ∈ drop (nrows ov) perm ↔
         (c < ncols ov)%nat ∧ c ∉ (exhaustive_lsa_first (mneg ov)).2.
Proof.
  assert (valid_labels [0;0;0;1;1] [0;1;2;2;2]) as Hv
    by (repeat split; [done|repeat constructor; lia..]).
  assert (int64_labels [0;0;0;1;1] [0;1;2;2;2]) as Hi
    by (split; repeat constructor; unfold int64; lia).
  assert (0 ≤ resolve_K None [0;0;0;1;1] ≤ resolve_K None [0;1;2;2;2]) as Hle
    by (vm_compute; split; discriminate).
  split; [exact exhaustive_lsa_first_contract|].
  split; [exact elements_order_contract|].
  do 3 (split; [done|]).
  exact (find_permutation_is_permutation exhaustive_lsa_first elements
           exhaustive_lsa_first_contract elements_order_contract
           [0;0;0;1;1] [0;1;2;2;2] None None Hv Hi Hle).
Defined.

Lemma find_permutation_maximizes_overlap_witness :
  lsa_contract exhaustive_lsa_first ∧ set_order_contract elements ∧
  valid_labels [0;0;0;1;1] [0;1;2;2;2] ∧ int64_labels [0;0;0;1;1] [0;1;2;2;2] ∧
  0 ≤ resolve_K (Some 2) [0;0;0;1;1] ≤ resolve_K (Some 3) [0;1;2;2;2] ∧
  ∃ ov perm,
    compute_state_overlap [0;0;0;1;1] [0;1;2;2;2] (Some 2) (Some 3) = Ok ov ∧
    Z.of_nat (nrows ov) = resolve_K (Some 2) [0;0;0;1;1] ∧
    Z.of_nat (ncols ov) = resolve_K (Some 3) [0;1;2;2;2] ∧
    find_permutation exhaustive_lsa_first elements
      [0;0;0;1;1] [0;1;2;2;2] (Some 2) (Some 3) = Ok perm ∧
    NoDup (take (nrows ov) perm) ∧
    injection (nrows ov) (ncols ov) (as_map perm) ∧
    ∀ sigma, injection (nrows ov) (ncols ov) sigma →
      total_overlap ov sigma ≤ total_overlap ov (as_map perm).
Proof.
  assert (valid_labels [0;0;0;1;1] [0;1;2;2;2]) as Hv
    by (repeat split; [done|repeat constructor; lia..]).
  assert (int64_labels [0;0;0;1;1] [0;1;2;2;2]) as Hi
    by (split; repeat constructor; unfold int64; lia).
  assert (0 ≤ resolve_K (Some 2) [0;0;0;1;1] ≤ resolve_K (Some 3) [0;1;2;2;2])
    as Hle by (simpl; lia).
  split; [exact exhaustive_lsa_first_contract|].
  split; [exact elements_order_contract|].
  do 3 (split; [done|]).
  exact (find_permutation_maximizes_overlap exhaustive_lsa_first elements
           exhaustive_lsa_first_contract elements_order_contract
           [0;0;0;1;1] [0;1;2;2;2] (Some 2) (Some 3) Hv Hi Hle).
Defined.

(** C3 as stated fails when the second sequence carries the largest int64
    label: K1 = 1 is below K2 = 2^63, but the function computes K2 in int64,
    where it is -2^63, and [np.zeros] refuses the shape; nothing is
    returned, whatever the solver. *)
Lemma find_permutation_is_permutation_wraps :
  valid_labels [0] [9223372036854775807] ∧
  int64_labels [0] [9223372036854775807] ∧
  foldr Z.max 0 [0] + 1 ≤ foldr Z.max 0 [9223372036854775807] + 1 ∧
  resolve_K None [9223372036854775807] = -9223372036854775808 ∧
  (∀ lsa py_list,
     find_permutation lsa py_list [0] [9223372036854775807] None None
     = Raise (ValueError "negative dimensions are not allowed")) ∧
  ¬ (∃ perm, find_permutation exhaustive_lsa_first elements
               [0] [9223372036854775807] None None = Ok perm).
Proof.
  assert (∀ lsa py_list,
            find_permutation lsa py_list [0] [9223372036854775807] None None
            = Raise (ValueError "negative dimensions are not allowed")) as Hraise.
  { intros lsa py_list. unfold find_permutation.
    assert (compute_state_overlap [0] [9223372036854775807] None None
            = Raise (ValueError "negative dimensions are not allowed")) as ->
      by (vm_compute; reflexivity).
    reflexivity. }
  split; [repeat split; [done|repeat constructor; lia..]|].
  split; [split; repeat constructor; unfold int64; lia|].
  split; [simpl; lia|].
  split; [vm_compute; reflexivity|].
  split; [exact Hraise|].
  intros [perm Hperm]. rewrite Hraise in Hperm. discriminate.
Qed.

(** C2 as stated fails in the same way when both sequences carry the
    largest int64 label: K1 = K2 = 2^63, both are computed as -2^63, and
    no permutation is returned. *)
Lemma find_permutation_maximizes_overlap_wraps :
  valid_labels [0; 9223372036854775807] [9223372036854775807; 0] ∧
  int64_labels [0; 9223372036854775807] [9223372036854775807; 0] ∧
  foldr Z.max 0 [0; 9223372036854775807] + 1
  ≤ foldr Z.max 0 [9223372036854775807; 0] + 1 ∧
  resolve_K None [0; 9223372036854775807] = -9223372036854775808 ∧
  resolve_K None [9223372036854775807; 0] = -9223372036854775808 ∧
  (∀ lsa py_list,
     find_permutation lsa py_list
       [0; 9223372036854775807] [9223372036854775807; 0] None None
     = Raise (ValueError "negative dimensions are not allowed")) ∧
  ¬ (∃ perm, find_permutation exhaustive_lsa_first elements
               [0; 9223372036854775807] [9223372036854775807; 0] None None
             = Ok perm).
Proof.
  assert (∀ lsa py_list,
            find_permutation lsa py_list
              [0; 9223372036854775807] [9223372036854775807; 0] None None
            = Raise (ValueError "negative dimensions are not allowed")) as Hraise.
  { intros lsa py_list. unfold find_permutation.
    assert (compute_state_overlap
              [0; 9223372036854775807] [9223372036854775807; 0] None None
            = Raise (ValueError "negative dimensions are not allowed")) as ->
      by (vm_compute; reflexivity).
    reflexivity. }
  split; [repeat split; [done|repeat constructor; lia..]|].
  split; [split; repeat constructor; unfold int64; lia|].
  split; [simpl; lia|].
  split; [vm_compute; reflexivity|].
  split; [vm_compute; reflexivity|].
  split; [exact Hraise|].
  intros [perm Hperm]. rewrite Hraise in Hperm. discriminate.
Qed.

(** ** A supplied dimension that is too small *)

Section undersized.

Lemma elem_of_zip_l_ex (z1 z2 : list Z) (x : Z) :
  length z1 = length z2 → x ∈ z1 → ∃ y, (x, y) ∈ zip z1 z2.
Proof.
  revert z2. induction z1 as [|a z1 IH]; intros [|b z2] Hlen Hx; simpl in *;
    try discriminate; [by apply elem_of_nil in Hx|].
  apply elem_of_cons in Hx as [->|Hx].
  - exists b. apply list_elem_of_here.
  - destruct (IH z2 ltac:(lia) Hx) as [y Hy]. exists y. by apply list_elem_of_further.
Qed.

Lemma elem_of_zip_r_ex (z1 z2 : list Z) (y : Z) :
  length z1 = length z2 → y ∈ z2 → ∃ x, (x, y) ∈ zip z1 z2.
Proof.
  revert z2. induction z1 as [|a z1 IH]; intros [|b z2] Hlen Hy; simpl in *;
    try discriminate; [by apply elem_of_nil in Hy|].
  apply elem_of_cons in Hy as [->|Hy].
  - exists a. apply list_elem_of_here.
  - destruct (IH z2 ltac:(lia) Hy) as [x Hx]. exists x. by apply list_elem_of_further.
Qed.

Variable lsa : matrix → list nat * list nat.
Variable py_list : gset nat → list nat.
Hypothesis lsa_ok : lsa_contract lsa.
Hypothesis py_list_ok : set_order_contract py_list.

(** C10, amended. When a supplied K1 is not negative and at most the
    largest label of seq1 (or a supplied K2 not negative and at most the
    largest label of seq2), and the other dimension is not negative either,
    compute_state_overlap still returns a K1 x K2 matrix and raises nothing;
    its cells count the positions carrying their two labels, so a position
    with a label outside the shape is in no cell and the entries add up to
    less than the length T.  find_permutation then returns a permutation of
    the columns when K1 <= K2, and fails its first assertion when
    K1 > K2. *)
Theorem undersized_dimension_truncates (z1 z2 : list Z) (K1 K2 : option Z) :
  valid_labels z1 z2 → int64_labels z1 z2 →
  0 ≤ resolve_K K1 z1 → 0 ≤ resolve_K K2 z2 →
  (∃ k mx, K1 = Some k ∧ is_max z1 mx ∧ k ≤ mx) ∨
  (∃ k mx, K2 = Some k ∧ is_max z2 mx ∧ k ≤ mx) →
  ∃ ov,
    compute_state_overlap z1 z2 K1 K2 = Ok ov ∧
    Z.of_nat (nrows ov) = resolve_K K1 z1 ∧
    Z.of_nat (ncols ov) = resolve_K K2 z2 ∧
    (∀ k1 k2, (k1 < nrows ov)%nat → (k2 < ncols ov)%nat →
       mget ov k1 k2 = cooccurrences z1 z2 (Z.of_nat k1) (Z.of_nat k2)) ∧
    msum ov = Z.of_nat (length (filter
                (in_shape (resolve_K K1 z1) (resolve_K K2 z2)) (zip z1 z2))) ∧
    msum ov < Z.of_nat (length z1) ∧
    ((nrows ov ≤ ncols ov)%nat →
     ∃ perm, find_permutation lsa py_list z1 z2 K1 K2 = Ok perm ∧
             perm ≡ₚ seq 0 (ncols ov)) ∧
    ((ncols ov < nrows ov)%nat →
     find_permutation lsa py_list z1 z2 K1 K2
     = Raise (AssertionError "Can only find permutation from more states to fewer")).
Proof.
  intros Hv _ H1 H2 Hsmall.
  pose proof Hv as (Hne & Hlen & Hp1 & Hp2).
  assert (compute_state_overlap z1 z2 K1 K2
          = Ok (tabulate (Z.to_nat (resolve_K K1 z1)) (Z.to_nat (resolve_K K2 z2))
                         (cell z1 z2))) as Hov
    by by apply compute_state_overlap_Ok.
  eexists. split; [exact Hov|]. simpl.
  split; [lia|]. split; [lia|]. split.
  { intros k1 k2 Hk1 Hk2. rewrite mget_tabulate by done. by apply cell_cooccurrences. }
  assert (msum (tabulate (Z.to_nat (resolve_K K1 z1)) (Z.to_nat (resolve_K K2 z2))
                         (cell z1 z2))
          = Z.of_nat (length (filter
              (in_shape (resolve_K K1 z1) (resolve_K K2 z2)) (zip z1 z2)))) as Hsum.
  { rewrite msum_overlap by done. by rewrite !Z2Nat.id. }
  split; [done|]. split; [|split].
  - rewrite Hsum.
    assert (length (zip z1 z2) = length z1) as Hzl
      by (rewrite length_zip_with; lia).
    rewrite <- Hzl. apply inj_lt.
    destruct Hsmall as [(k & mx & -> & [Hin _] & Hk)|(k & mx & -> & [Hin _] & Hk)].
    + destruct (elem_of_zip_l_ex z1 z2 mx Hlen Hin) as [y Hy].
      eapply length_filter_lt; [exact Hy|].
      unfold in_shape; simpl. lia.
    + destruct (elem_of_zip_r_ex z1 z2 mx Hlen Hin) as [x Hx].
      eapply length_filter_lt; [exact Hx|].
      unfold in_shape; simpl. lia.
  - intros Hle.
    destruct (find_permutation_valid lsa py_list lsa_ok py_list_ok
                z1 z2 K1 K2 Hv ltac:(lia))
      as (matched & unused & _ & Hfp & _ & _ & Hperm & _).
    exists (matched ++ unused). done.
  - intros Hgt. by apply (find_permutation_too_many_rows lsa py_list _ _ _ _ _ Hov).
Qed.

End undersized.

Lemma undersized_dimension_truncates_witness :
  lsa_contract exhaustive_lsa_first ∧ set_order_contract elements ∧
  valid_labels [0;1;2;2] [0;1;1;0] ∧ int64_labels [0;1;2;2] [0;1;1;0] ∧
  0 ≤ resolve_K (Some 2) [0;1;2;2] ∧ 0 ≤ resolve_K None [0;1;1;0] ∧
  ((∃ k mx, Some 2 = Some k ∧ is_max [0;1;2;2] mx ∧ k ≤ mx) ∨
   (∃ k mx, None = Some k ∧ is_max [0;1;1;0] mx ∧ k ≤ mx)) ∧
  ∃ ov,
    compute_state_overlap [0;1;2;2] [0;1;1;0] (Some 2) None = Ok ov ∧
    Z.of_nat (nrows ov) = resolve_K (Some 2) [0;1;2;2] ∧
    Z.of_nat (ncols ov) = resolve_K None [0;1;1;0] ∧
    (∀ k1 k2, (k1 < nrows ov)%nat → (k2 < ncols ov)%nat →
       mget ov k1 k2 = cooccurrences [0;1;2;2] [0;1;1;0] (Z.of_nat k1) (Z.of_nat k2)) ∧
    msum ov = Z.of_nat (length (filter
                (in_shape (resolve_K (Some 2) [0;1;2;2]) (resolve_K None [0;1;1;0]))
                (zip [0;1;2;2] [0;1;1;0]))) ∧
    msum ov < Z.of_nat (length [0;1;2;2]) ∧
    ((nrows ov ≤ ncols ov)%nat →
     ∃ perm, find_permutation exhaustive_lsa_first elements
               [0;1;2;2] [0;1;1;0] (Some 2) None = Ok perm ∧
             perm ≡ₚ seq 0 (ncols ov)) ∧
    ((ncols ov < nrows ov)%nat →
     find_permutation exhaustive_lsa_first elements [0;1;2;2] [0;1;1;0] (Some 2) None
     = Raise (AssertionError "Can only find permutation from more states to fewer")).
Proof.
  assert (valid_labels [0;1;2;2] [0;1;1;0]) as Hv
    by (repeat split; [done|repeat constructor; lia..]).
  assert (int64_labels [0;1;2;2] [0;1;1;0]) as Hi
    by (split; repeat constructor; unfold int64; lia).
  assert (0 ≤ resolve_K (Some 2) [0;1;2;2]) as H1 by (simpl; lia).
  assert (0 ≤ resolve_K None [0;1;1;0]) as H2 by (vm_compute; discriminate).
  assert ((∃ k mx, Some 2 = Some k ∧ is_max [0;1;2;2] mx ∧ k ≤ mx) ∨
          (∃ k mx, None = Some k ∧ is_max [0;1;1;0] mx ∧ k ≤ mx)) as Hsmall.
  { left. exists 2, 2. split; [done|]. split; [|lia].
    split; [set_solver|repeat constructor; lia]. }
  split; [exact exhaustive_lsa_first_contract|].
  split; [exact elements_order_contract|].
  do 5 (split; [done|]).
  exact (undersized_dimension_truncates exhaustive_lsa_first elements
           exhaustive_lsa_first_contract elements_order_contract
           [0;1;2;2] [0;1;1;0] (Some 2) None Hv Hi H1 H2 Hsmall).
Defined.

Example undersized_concrete :
  compute_state_overlap [0;1;2;2] [0;1;1;0] (Some 2) None
  = Ok (Matrix 2 2 [[1;0];[0;1]]) ∧
  find_permutation exhaustive_lsa_first elements [0;1;2;2] [0;1;1;0] (Some 2) None
  = Ok [0; 1]%nat.
Proof. split; vm_compute; reflexivity. Qed.

(** C10 as stated fails for a supplied dimension that is negative, which is
    below every label: [np.zeros] refuses it.  And a supplied K2 that is too
    small can leave K1 > K2, which find_permutation does not accept. *)
Lemma undersized_dimension_negative :
  valid_labels [0;1] [0;1] ∧ is_max [0;1] 1 ∧ -1 ≤ 1 ∧
  compute_state_overlap [0;1] [0;1] (Some (-1)) None
  = Raise (ValueError "negative dimensions are not allowed") ∧
  ¬ (∃ ov, compute_state_overlap [0;1] [0;1] (Some (-1)) None = Ok ov) ∧
  find_permutation exhaustive_lsa_first elements [0;1] [0;1] None (Some 1)
  = Raise (AssertionError "Can only find permutation from more states to fewer").
Proof.
  split; [repeat split; [done|repeat constructor; lia..]|].
  split; [split; [set_solver|repeat constructor; lia]|].
  split; [lia|].
  split; [vm_compute; reflexivity|].
  split; [|vm_compute; reflexivity].
  intros [ov Hov]. vm_compute in Hov. discriminate.
Qed.

(** ** Aligning a sequence with itself *)

Section same_labels.

Lemma cell_nonneg (z1 z2 : list Z) (i j : nat) : 0 ≤ cell z1 z2 i j.
Proof.
  revert z2. induction z1 as [|x z1 IH]; intros [|y z2];
    try (unfold cell, np_and, np_eq, np_sum_bool; simpl; lia).
  rewrite cell_cons. specialize (IH z2).
  destruct ((x =? Z.of_nat i) && (y =? Z.of_nat j)); lia.
Qed.

(** The overlap of a sequence with itself is diagonal. *)
Lemma cell_same_off_diagonal (z : list Z) (i j : nat) : i ≠ j → cell z z i j = 0.
Proof.
  intros Hij. induction z as [|x z IH]; [reflexivity|].
  rewrite cell_cons, IH.
  destruct (Z.eqb_spec x (Z.of_nat i)), (Z.eqb_spec x (Z.of_nat j)); simpl; lia.
Qed.

(** A label that occurs has mass on the diagonal. *)
Lemma cell_same_diagonal_pos (z : list Z) (i : nat) :
  Z.of_nat i ∈ z → 0 < cell z z i i.
Proof.
  induction z as [|x z IH]; intros Hin; [by apply elem_of_nil in Hin|].
  rewrite cell_cons. pose proof (cell_nonneg z z i i).
  apply elem_of_cons in Hin as [<-|Hin].
  - rewrite Z.eqb_refl. simpl. lia.
  - specialize (IH Hin). destruct ((x =? Z.of_nat i) && (x =? Z.of_nat i)); lia.
Qed.

Lemma zsum_map_le {A} (f g : A → Z) (l : list A) :
  (∀ a, a ∈ l → f a ≤ g a) → zsum (map f l) ≤ zsum (map g l).
Proof.
  induction l as [|a l IH]; intros H; unfold zsum in *; simpl; [lia|].
  pose proof (H a (list_elem_of_here _ _)).
  specialize (IH (λ b Hb, H b (list_elem_of_further _ _ _ Hb))). lia.
Qed.

Lemma zsum_map_lt {A} (f g : A → Z) (l : list A) (a0 : A) :
  (∀ a, a ∈ l → f a ≤ g a) → a0 ∈ l → f a0 < g a0 →
  zsum (map f l) < zsum (map g l).
Proof.
  induction l as [|a l IH]; intros H Hin Hlt; [by apply elem_of_nil in Hin|].
  pose proof (H a (list_elem_of_here _ _)).
  pose proof (zsum_map_le f g l (λ b Hb, H b (list_elem_of_further _ _ _ Hb))).
  unfold zsum in *; simpl.
  apply elem_of_cons in Hin as [->|Hin]; [lia|].
  specialize (IH (λ b Hb, H b (list_elem_of_further _ _ _ Hb)) Hin Hlt). lia.
Qed.

(** In the negated overlap of a sequence with itself no entry of a row is
    below its diagonal entry. *)
Lemma self_overlap_diagonal_minimal (z : list Z) (K : nat) :
  diagonal_minimal (mneg (tabulate K K (cell z z))).
Proof.
  intros i j Hi Hj. simpl in Hi, Hj. rewrite !mget_mneg.
  rewrite !mget_tabulate by done.
  destruct (decide (i = j)) as [->|Hne]; [lia|].
  rewrite (cell_same_off_diagonal z i j) by done.
  pose proof (cell_nonneg z z i i). lia.
Qed.

Variable lsa : matrix → list nat * list nat.
Variable py_list : gset nat → list nat.
Hypothesis lsa_ok : lsa_contract lsa.
Hypothesis py_list_ok : set_order_contract py_list.

(** C8, amended. Aligning a valid sequence z whose labels are below
    2^63 - 1 with itself (K1 = K2 = K defaulted) returns a permutation of
    the K labels that sends every label occurring in z to itself; it is the
    identity when every label below K occurs in z, and also when the solver
    settles ties as scipy's does (it returns the identity on a cost matrix
    whose diagonal entries are minimal in their rows). *)
Theorem find_permutation_same_labels (z : list Z) :
  valid_labels z z → Forall (λ x, x < 9223372036854775807) z →
  let K := Z.to_nat (default_K z) in
  ∃ perm,
    find_permutation lsa py_list z z None None = Ok perm ∧
    perm ≡ₚ seq 0 K ∧
    (∀ k, k ∈ z → perm !! Z.to_nat k = Some (Z.to_nat k)) ∧
    ((∀ k, 0 ≤ k < default_K z → k ∈ z) → perm = seq 0 K) ∧
    (lsa_keeps_diagonal lsa → perm = seq 0 K).
Proof.
  intros Hv Hb K.
  pose proof (default_K_pos z Hb) as HKpos.
  destruct (find_permutation_valid lsa py_list lsa_ok py_list_ok
              z z None None Hv ltac:(simpl; lia))
    as (matched & unused & Hov & Hfp & Hm & Hca & Hperm & Hopt).
  simpl resolve_K in *. fold K in Hov, Hca, Hperm, Hopt, Hm.
  set (ov := tabulate K K (cell z z)) in *.
  pose proof Hca as (Hlen & Hnd & Hran). simpl in Hlen, Hran.
  assert (unused = []) as ->.
  { apply length_zero_iff_nil.
    apply Permutation_length in Hperm. rewrite length_app, length_seq in Hperm. lia. }
  rewrite app_nil_r in *.
  assert (∀ i, (i < K)%nat → Z.of_nat i ∈ z → matched !! i = Some i) as Hfix.
  { intros i Hi Hin.
    destruct (lookup_lt_is_Some_2 matched i ltac:(lia)) as [c Hc].
    destruct (decide (c = i)) as [->|Hne]; [done|]. exfalso.
    specialize (Hopt (seq 0 K) (seq_column_assignment ov ltac:(simpl; lia))).
    pose proof (map_as_map matched) as Hmm. rewrite Hlen in Hmm.
    rewrite <- Hmm in Hopt.
    rewrite <- (map_id (seq 0 K)) in Hopt at 2.
    change K with (nrows ov) in Hopt.
    rewrite !cost_total_overlap in Hopt. unfold total_overlap in Hopt.
    simpl nrows in Hopt.
    assert (∀ k, k ∈ seq 0 K → mget ov k (as_map matched k) ≤ mget ov k k) as Hle.
    { intros k Hk. apply elem_of_seq in Hk.
      destruct (column_assignment_injection ov matched Hca) as [Hr _].
      specialize (Hr k ltac:(simpl; lia)). simpl in Hr.
      unfold ov. rewrite !mget_tabulate by lia.
      destruct (decide (k = as_map matched k)) as [<-|Hd']; [lia|].
      rewrite cell_same_off_diagonal by done. apply cell_nonneg. }
    pose proof (zsum_map_lt (λ k, mget ov k (as_map matched k)) (λ k, mget ov k k)
                  (seq 0 K) i Hle) as Hlt.
    assert (i ∈ seq 0 K) as Hik by (apply elem_of_seq; lia).
    specialize (Hlt Hik).
    assert (mget ov i (as_map matched i) < mget ov i i) as Hstrict.
    { unfold as_map. rewrite Hc. simpl.
      assert (c < K)%nat as HcK.
      { rewrite Forall_forall in Hran. apply Hran. by eapply list_elem_of_lookup_2. }
      unfold ov. rewrite !mget_tabulate by lia.
      rewrite cell_same_off_diagonal by done.
      by apply cell_same_diagonal_pos. }
    specialize (Hlt Hstrict). lia. }
  exists matched. split; [done|]. split; [done|]. split; [|split].
  - intros k Hk.
    destruct Hv as (_ & _ & Hpos & _). rewrite Forall_forall in Hpos.
    pose proof (Hpos k Hk) as Hk0.
    pose proof (foldr_max_ge z) as Hmax. rewrite Forall_forall in Hmax.
    pose proof (Hmax k Hk). pose proof (default_K_below z Hb) as HK.
    apply Hfix; [unfold K; lia|]. by rewrite Z2Nat.id.
  - intros Hall. apply list_eq. intros i.
    destruct (decide (i < K)%nat) as [Hi|Hi].
    + rewrite lookup_seq_lt by done. simpl. apply Hfix; [done|].
      apply Hall. unfold K in Hi. lia.
    + rewrite lookup_seq_ge by lia. apply lookup_ge_None. lia.
  - intros Hties. rewrite Hm.
    apply (Hties (mneg ov)).
    + apply mneg_wf, tabulate_wf.
    + simpl. lia.
    + apply self_overlap_diagonal_minimal.
Qed.

End same_labels.

(** ** The optimizer *)

Section adam_facts.

Context {F E : Type} `{Num F}.
Local Open Scope num_scope.

Variable grad : list F → nat → list F.
Variable callback : option (list F → nat → list F → E).
Variable o : adam_options F.

Lemma np_binop_same_length (op : F → F → F) (a b : list F) :
  length a = length b → np_binop op a b = Ok (zip_with op a b).
Proof. intros Hl. unfold np_binop. by rewrite decide_True. Qed.

Lemma unflatten_Ok (shape : nat) (a : list F) :
  length a = shape → unflatten shape a = Ok a.
Proof. intros Hl. unfold unflatten. by rewrite decide_True. Qed.

Lemma unflatten_inv (shape : nat) (a b : list F) :
  unflatten shape a = Ok b → b = a ∧ length a = shape.
Proof. unfold unflatten. case_decide; [by intros [= <-]|discriminate]. Qed.

Lemma unflatten_mismatch (shape : nat) (a : list F) :
  length a ≠ shape →
  unflatten shape a = Raise (ValueError "cannot reshape array").
Proof. intros Hl. unfold unflatten. by rewrite decide_False. Qed.

(** The body of the loop, when [x] and the gradient have the shape of the
    initial [x]. *)
Lemma adam_iteration_Ok (i : nat) (l : adam_locals F E) :
  length (loc_x l) = loc_shape l →
  length (grad (loc_x l) i) = length (loc_x l) →
  length (loc_m l) = length (loc_x l) →
  length (loc_v l) = length (loc_x l) →
  let g := grad (loc_x l) i in
  let m := zip_with f_add (scalar_l f_mul (1 - b1 o) g) (scalar_l f_mul (b1 o) (loc_m l)) in
  let v := zip_with f_add (scalar_l f_mul (1 - b2 o) (map (λ a, a ^ 2) g))
                          (scalar_l f_mul (b2 o) (loc_v l)) in
  let mhat := scalar_r f_div m (1 - b1 o ^ (i + 1)) in
  let vhat := scalar_r f_div v (1 - b2 o ^ (i + 1)) in
  let dx := zip_with f_div (scalar_l f_mul (- step_size o) mhat)
                           (scalar_r f_add (map f_sqrt vhat) (eps o)) in
  adam_iteration grad callback o i l
  = Ok (AdamLocals (zip_with f_add (loc_x l) dx) m v g mhat vhat dx
          (S (loc_iters l))
          (match callback with
           | Some cb => loc_events l ++ [cb (loc_x l) i g]
           | None => loc_events l
           end)
          (loc_shape l)) ∧
  length m = length (loc_x l) ∧ length v = length (loc_x l) ∧
  length dx = length (loc_x l).
Proof.
  intros Hs Hg Hm Hv. cbv zeta.
  assert (∀ (op : F → F → F) (a b : list F), length a = length (loc_x l) →
            length b = length (loc_x l) →
            length (zip_with op a b) = length (loc_x l)) as Hzip
    by (intros; rewrite length_zip_with; lia).
  assert (∀ (op : F → F → F) s (a : list F), length a = length (loc_x l) →
            length (scalar_l op s a) = length (loc_x l)) as Hsl
    by (intros; unfold scalar_l; by rewrite length_map).
  assert (∀ (op : F → F → F) s (a : list F), length a = length (loc_x l) →
            length (scalar_r op a s) = length (loc_x l)) as Hsr
    by (intros; unfold scalar_r; by rewrite length_map).
  assert (∀ (f : F → F) (a : list F), length a = length (loc_x l) →
            length (map f a) = length (loc_x l)) as Hmap
    by (intros; by rewrite length_map).
  split; [|by auto 10].
  unfold adam_iteration.
  rewrite (unflatten_Ok _ (loc_x l)) by done. simpl.
  destruct callback as [cb|]; rewrite ?unflatten_Ok by congruence; simpl.
  all: rewrite np_binop_same_length by (etrans; [|symmetry]; auto 10); simpl.
  all: rewrite np_binop_same_length by (etrans; [|symmetry]; auto 10); simpl.
  all: rewrite np_binop_same_length by (etrans; [|symmetry]; auto 10); simpl.
  all: rewrite np_binop_same_length by (symmetry; auto 10); reflexivity.
Qed.

Lemma adam_loop_iterations (start n : nat) (l lf : adam_locals F E) :
  adam_loop grad callback o (seq start n) l = Ok lf →
  ∃ k, (k ≤ n)%nat ∧
       adam_iterations grad callback o start k l = Ok lf ∧
       loc_iters lf = (loc_iters l + k)%nat ∧
       ((k < n)%nat → converged o lf = true).
Proof.
  revert start l. induction n as [|n IH]; intros start l Hrun; simpl in Hrun.
  - injection Hrun as <-. exists 0%nat. repeat split; [lia..|]. lia.
  - destruct (adam_iteration grad callback o start l) as [l'|e] eqn:Hit;
      simpl in Hrun; [|discriminate].
    assert (loc_iters l' = S (loc_iters l)).
    { unfold adam_iteration in Hit.
      repeat match type of Hit with
             | (mbind _ ?r) = _ => destruct r; simpl in Hit; [|discriminate]
             end.
      injection Hit as <-. reflexivity. }
    destruct (converged o l') eqn:Hc.
    + injection Hrun as <-. exists 1%nat. simpl. rewrite Hit. simpl.
      repeat split; [lia..|done].
    + destruct (IH _ _ Hrun) as (k & Hk & Hiter & Hcount & Hconv).
      exists (S k). simpl. rewrite Hit. simpl.
      repeat split; [lia|done|lia|]. intros ?. apply Hconv. lia.
Qed.

End adam_facts.

Section adam_claims.

Context {F E : Type} `{Num F}.
Local Open Scope num_scope.

Variable grad : list F → nat → list F.
Variable callback : option (list F → nat → list F → E).

Lemma bind_keywords_unexpected (kwargs : list (string * F)) (o : adam_options F) :
  (∃ a, ("num_iters", a) ∈ kwargs) →
  bind_keywords kwargs o = Raise (TypeError "got an unexpected keyword argument").
Proof.
  revert o. induction kwargs as [|[k a] rest IH]; intros o [a0 Hin];
    [by apply elem_of_nil in Hin|].
  simpl.
  destruct (String.eqb_spec k "step_size") as [->|_].
  { apply IH. exists a0. apply elem_of_cons in Hin as [[=]|Hin]; done. }
  destruct (String.eqb_spec k "b1") as [->|_].
  { apply IH. exists a0. apply elem_of_cons in Hin as [[=]|Hin]; done. }
  destruct (String.eqb_spec k "b2") as [->|_].
  { apply IH. exists a0. apply elem_of_cons in Hin as [[=]|Hin]; done. }
  destruct (String.eqb_spec k "eps") as [->|_].
  { apply IH. exists a0. apply elem_of_cons in Hin as [[=]|Hin]; done. }
  destruct (String.eqb_spec k "tol") as [->|_].
  { apply IH. exists a0. apply elem_of_cons in Hin as [[=]|Hin]; done. }
  reflexivity.
Qed.

(** C1, as the code behaves. The signature of adam_with_convergence_check
    has no parameter num_iters and the module binds no such global: a call
    that passes num_iters is refused, and every other call stops at the
    loop header with a NameError, before any iteration and without
    returning x. *)
Theorem adam_num_iters_unbound :
  ("num_iters" ∉ adam_parameters) ∧
  (∀ x kwargs, (∃ a, ("num_iters", a) ∈ kwargs) →
     adam_call util_globals grad x callback kwargs
     = Raise (TypeError "got an unexpected keyword argument")) ∧
  (∀ x o, adam_with_convergence_check grad callback o util_globals x
          = Raise (NameError "num_iters")).
Proof.
  split; [|split].
  - unfold adam_parameters. rewrite !elem_of_cons, elem_of_nil.
    intros H'. repeat destruct H' as [H'|H']; done.
  - intros x kwargs Hk. unfold adam_call.
    by rewrite bind_keywords_unexpected.
  - intros x o. reflexivity.
Qed.

(** Were [num_iters] bound to [n] in the module, the loop would run at most
    [n] iterations and stop earlier only on convergence. *)
Lemma adam_with_global_num_iters (globals : gmap string pyobj) (n : Z)
    (o : adam_options F) (x xf : list F) (l : adam_locals F E) :
  globals !! "num_iters" = Some (PyInt n) →
  adam_with_convergence_check grad callback o globals x = Ok (xf, l) →
  xf = loc_x l ∧
  ∃ k, (k ≤ Z.to_nat n)%nat ∧ loc_iters l = k ∧
       adam_iterations grad callback o 0 k (adam_initial x) = Ok l ∧
       ((k < Z.to_nat n)%nat → converged o l = true).
Proof.
  intros Hg Hrun. unfold adam_with_convergence_check, load_global in Hrun.
  rewrite Hg in Hrun. simpl in Hrun. unfold py_range in Hrun.
  destruct (adam_loop grad callback o (seq 0 (Z.to_nat n)) (adam_initial x))
    as [lf|e] eqn:Hloop; simpl in Hrun; [|discriminate].
  destruct (unflatten (loc_shape lf) (loc_x lf)) as [xu|e] eqn:Hu;
    simpl in Hrun; [|discriminate].
  apply unflatten_inv in Hu as [-> _].
  injection Hrun as <- <-. split; [reflexivity|].
  destruct (adam_loop_iterations grad callback o _ _ _ _ Hloop)
    as (k & Hk & Hit & Hcount & Hconv).
  exists k. simpl in Hcount. done.
Qed.

(** One iteration, for an [x] and a gradient of the shape of the initial
    [x]: it follows the recurrence and keeps the shapes. *)
Lemma adam_iteration_step (o : adam_options F) (i : nat) (l : adam_locals F E) :
  (∀ x i, length (grad x i) = length x) →
  length (loc_x l) = loc_shape l →
  length (loc_m l) = length (loc_x l) → length (loc_v l) = length (loc_x l) →
  ∃ l', adam_iteration grad callback o i l = Ok l' ∧
    adam_step o (grad (loc_x l) i) i l l' ∧
    length (loc_x l') = loc_shape l' ∧
    length (loc_m l') = length (loc_x l') ∧
    length (loc_v l') = length (loc_x l').
Proof.
  intros Hgrad Hs Hm Hv.
  destruct (adam_iteration_Ok grad callback o i l Hs (Hgrad _ _) Hm Hv)
    as (Hit & Hm' & Hv' & Hdx).
  eexists. split; [exact Hit|]. unfold adam_step. simpl.
  assert (∀ dx : list F, length dx = length (loc_x l) →
            length (zip_with f_add (loc_x l) dx) = length (loc_x l)) as Hx'
    by (intros dx Hd; rewrite length_zip_with; lia).
  split; [|by rewrite !Hx'].
  split; [by rewrite Hx'|]. split; [reflexivity|].
  intros j x m v Hx Hmj Hvj.
  destruct (lookup_lt_is_Some_2 (grad (loc_x l) i) j) as [g Hg].
  { rewrite Hgrad. by eapply lookup_lt_Some. }
  exists g. split; [done|]. simpl.
  unfold scalar_l, scalar_r, spec_m, spec_v, spec_mhat, spec_vhat, spec_dx.
  repeat (rewrite ?lookup_zip_with, ?list_lookup_fmap, ?Hg, ?Hmj, ?Hvj, ?Hx; simpl).
  done.
Qed.

(** The loop performs a run of updates, one per index, until the
    convergence test is met or the indices are used up. *)
Lemma adam_loop_run (o : adam_options F) (n start : nat) (l : adam_locals F E) :
  (∀ x i, length (grad x i) = length x) →
  length (loc_x l) = loc_shape l →
  length (loc_m l) = length (loc_x l) → length (loc_v l) = length (loc_x l) →
  ∃ rest,
    adam_loop grad callback o (seq start n) l = Ok (default l (last rest)) ∧
    (length rest ≤ n)%nat ∧
    adam_run grad o start l rest ∧
    ((length rest < n)%nat → converged o (default l (last rest)) = true) ∧
    length (loc_x (default l (last rest))) = loc_shape (default l (last rest)).
Proof.
  intros Hgrad. revert start l.
  induction n as [|n IH]; intros start l Hs Hm Hv.
  - exists []. simpl. repeat split; [lia|lia|done].
  - destruct (adam_iteration_step o start l Hgrad Hs Hm Hv)
      as (l1 & Hit & Hstep & Hs1 & Hm1 & Hv1).
    simpl. rewrite Hit. simpl.
    destruct (converged o l1) eqn:Hc.
    + exists [l1]. simpl. split; [done|]. split; [lia|].
      split; [split; [done|]; split; done|]. split; done.
    + destruct (IH (S start) l1 Hs1 Hm1 Hv1)
        as (rest & Hrun & Hlen & Htrace & Hconv & Hshape).
      exists (l1 :: rest).
      assert (default l (last (l1 :: rest)) = default l1 (last rest)) as ->.
      { destruct rest as [|s rest]; [reflexivity|].
        rewrite last_cons. by destruct (last (s :: rest)). }
      simpl. split; [done|]. split; [lia|].
      split; [split; [done|]; split; [by intros _|done]|].
      split; [|done]. intros Hlt. apply Hconv. lia.
Qed.

(** C7. Were [num_iters] bound to n in the module, the optimizer would
    perform a run of at most n updates from the initial x with zero
    moments: iteration i (counted from 0) takes the gradient at the x
    before it and updates each coordinate by m <- (1-beta1) g + beta1 m,
    v <- (1-beta2) g^2 + beta2 v, mhat = m / (1 - beta1^(i+1)),
    vhat = v / (1 - beta2^(i+1)), dx = -stepSize mhat / (sqrt vhat +
    epsilon), x <- x + dx, on the m, v and x the iteration before left;
    the x of the last state is returned.  After the first iteration mhat
    and vhat are the first moving averages divided by 1 - beta1 and
    1 - beta2. *)
Theorem adam_update_recurrence (o : adam_options F)
    (globals : gmap string pyobj) (n : Z) (x0 : list F) :
  globals !! "num_iters" = Some (PyInt n) →
  (∀ x i, length (grad x i) = length x) →
  (∀ b : F, b ^ 1 = b) →
  ∃ rest lf,
    adam_with_convergence_check grad callback o globals x0 = Ok (loc_x lf, lf) ∧
    last (adam_initial x0 :: rest) = Some lf ∧
    loc_x (adam_initial (E:=E) x0) = x0 ∧
    loc_m (adam_initial (E:=E) x0) = replicate (length x0) 0 ∧
    loc_v (adam_initial (E:=E) x0) = replicate (length x0) 0 ∧
    (length rest ≤ Z.to_nat n)%nat ∧
    adam_run grad o 0 (adam_initial x0) rest ∧
    ((length rest < Z.to_nat n)%nat → converged o lf = true) ∧
    ∀ s1, rest !! 0%nat = Some s1 →
      ∀ j x, x0 !! j = Some x →
        ∃ m1 v1, loc_m s1 !! j = Some m1 ∧ loc_v s1 !! j = Some v1 ∧
                 loc_mhat s1 !! j = Some (m1 / (1 - b1 o)) ∧
                 loc_vhat s1 !! j = Some (v1 / (1 - b2 o)).
Proof.
  intros Hn Hgrad Hpow.
  destruct (adam_loop_run o (Z.to_nat n) 0 (adam_initial x0) Hgrad)
    as (rest & Hrun & Hlen & Htrace & Hconv & Hshape);
    [simpl; try apply length_replicate; reflexivity..|].
  exists rest, (default (adam_initial x0) (last rest)).
  split.
  { unfold adam_with_convergence_check, load_global. rewrite Hn. simpl.
    unfold py_range. rewrite Hrun. simpl.
    rewrite unflatten_Ok by done. reflexivity. }
  split.
  { destruct rest as [|s rest]; [reflexivity|].
    rewrite last_cons. by destruct (last (s :: rest)). }
  do 3 (split; [reflexivity|]).
  split; [done|]. split; [done|]. split; [done|].
  intros s1 Hs1. destruct rest as [|s rest]; [done|].
  injection Hs1 as ->. destruct Htrace as ((_ & _ & Hstep) & _).
  intros j x Hx.
  assert (j < length x0)%nat as Hj by (by eapply lookup_lt_Some).
  destruct (Hstep j x (f_of_nat 0) (f_of_nat 0)) as (gj & _ & Hm1 & Hv1 & Hmh & Hvh & _);
    [done|simpl; by apply lookup_replicate_2..|].
  eexists _, _. split; [exact Hm1|]. split; [exact Hv1|].
  unfold spec_mhat, spec_vhat in Hmh, Hvh. simpl in Hmh, Hvh.
  rewrite !Hpow in Hmh, Hvh. done.
Qed.

End adam_claims.

Section adam_witness.

Local Open Scope num_scope.

(** The gradient of [(x - 5)^2], coordinate by coordinate; no callback;
    the default options; a module in which [num_iters] is 3. *)
Let grad5 : list R → nat → list R := λ x _, map (λ a : R, (2 * (a - 5))%R) x.
Let no_callback : option (list R → nat → list R → unit) := None.
Let o : adam_options R := adam_defaults.
Let globals3 : gmap string pyobj := <["num_iters" := PyInt 3]> util_globals.

Lemma adam_update_recurrence_witness :
  globals3 !! "num_iters" = Some (PyInt 3) ∧
  (∀ x i, length (grad5 x i) = length x) ∧
  (∀ b : R, b ^ 1 = b) ∧
  ∃ rest lf,
    adam_with_convergence_check grad5 no_callback o globals3 [0%R]
    = Ok (loc_x lf, lf) ∧
    last (adam_initial [0%R] :: rest) = Some lf ∧
    loc_x (adam_initial (E:=unit) [0%R]) = [0%R] ∧
    loc_m (adam_initial (E:=unit) [0%R]) = replicate (length [0%R]) 0 ∧
    loc_v (adam_initial (E:=unit) [0%R]) = replicate (length [0%R]) 0 ∧
    (length rest ≤ Z.to_nat 3)%nat ∧
    adam_run grad5 o 0 (adam_initial [0%R]) rest ∧
    ((length rest < Z.to_nat 3)%nat → converged o lf = true) ∧
    ∀ s1, rest !! 0%nat = Some s1 →
      ∀ j x, [0%R] !! j = Some x →
        ∃ m1 v1, loc_m s1 !! j = Some m1 ∧ loc_v s1 !! j = Some v1 ∧
                 loc_mhat s1 !! j = Some (m1 / (1 - b1 o)) ∧
                 loc_vhat s1 !! j = Some (v1 / (1 - b2 o)).
Proof.
  assert (globals3 !! "num_iters" = Some (PyInt 3)) as Hn by reflexivity.
  assert (∀ x i, length (grad5 x i) = length x) as Hg
    by (intros x i; apply length_map).
  assert (∀ b : R, b ^ 1 = b) as Hp by (intros b; simpl; apply Rmult_1_r).
  split; [exact Hn|]. split; [exact Hg|]. split; [exact Hp|].
  exact (adam_update_recurrence grad5 no_callback o globals3 3 [0%R] Hn Hg Hp).
Defined.

End adam_witness.


(** ** random_rotation, in exact arithmetic *)

Section rotation_facts.

Local Open Scope R_scope.

Lemma square_2_inv (M : fmatrix (F:=R)) :
  square 2 M → ∃ a b c d, M = [[a; b]; [c; d]].
Proof.
  intros [Hl Hr].
  destruct M as [|r0 [|r1 [|? ?]]]; simpl in Hl; try discriminate.
  inversion Hr as [|? ? H0 Hr']; subst. inversion Hr' as [|? ? H1 _]; subst.
  destruct r0 as [|a [|b [|? ?]]]; simpl in H0; try discriminate.
  destruct r1 as [|c [|d [|? ?]]]; simpl in H1; try discriminate.
  by exists a, b, c, d.
Qed.

Lemma conjugate_rotation_orthogonal (a b c d t : R) :
  np_dot (mtranspose [[a; b]; [c; d]]) [[a; b]; [c; d]] = np_eye 2 →
  orthogonal 2 (np_dot (np_dot [[a; b]; [c; d]] (rotation2 t))
                       (mtranspose [[a; b]; [c; d]])).
Proof.
  intros Hq. unfold np_dot, mtranspose, np_eye, np_sum in Hq. simpl in Hq.
  injection Hq as H1 H2 H3 H4.
  split; [split; [reflexivity|repeat constructor]|].
  unfold np_dot, mtranspose, np_eye, np_sum, rotation2. simpl.
  pose proof (sin2_cos2 t) as Ht. unfold Rsqr in Ht.
  generalize dependent (cos t). generalize dependent (sin t). intros S C Ht.
  repeat f_equal; nsatz.
Qed.

Variable rng : Type.
Variable np_random_rand : rng → R * rng.
Variable np_random_randn : nat → nat → rng → fmatrix (F:=R) * rng.
Variable np_linalg_qr : fmatrix (F:=R) → fmatrix (F:=R) * fmatrix (F:=R).

End rotation_facts.

Section rotation_examples.

Local Open Scope R_scope.

Lemma sample_half_contract : rand_contract sample_half.
Proof. intros s. simpl. lra. Qed.

Lemma sample_zeros_contract : randn_contract unit sample_zeros.
Proof.
  intros n s. simpl. split.
  - apply length_replicate.
  - apply Forall_replicate. apply length_replicate.
Qed.

Lemma qr_identity_contract_2 : qr_contract (qr_identity 2) 2.
Proof.
  intros a _. simpl. split; [split; [reflexivity|repeat constructor]|].
  unfold np_dot, mtranspose, np_eye, np_sum. simpl.
  repeat f_equal; ring.
Qed.

(** For n = 3 the block of zeros that pads the rotation makes the result
    singular: with the identity as QR factor its last row is zero. *)
Example random_rotation_three_singular :
  ∃ M, random_rotation unit sample_half sample_zeros (qr_identity 3) 3 (Some 0) tt
       = Ok (M, tt) ∧
       ¬ orthogonal 3 M.
Proof.
  eexists. split; [reflexivity|].
  intros [_ Horth]. unfold np_dot, mtranspose, np_eye, np_sum in Horth.
  simpl in Horth. injection Horth as _ _ _ _ _ _ _ _ Horth.
  ring_simplify in Horth. lra.
Qed.

End rotation_examples.

(** ** Aligning a sequence with itself: examples *)

Lemma zip_with_diagonal_le (C : matrix) (rows cols : list nat) :
  diagonal_minimal C → length cols = length rows →
  Forall (λ i, (i < nrows C)%nat) rows → Forall (λ c, (c < ncols C)%nat) cols →
  zsum (zip_with (mget C) rows rows) ≤ zsum (zip_with (mget C) rows cols).
Proof.
  intros Hd. revert cols.
  induction rows as [|i rows IH]; intros [|c cols] Hlen Hr Hc;
    simpl in *; try discriminate; try done.
  inversion Hr; inversion Hc; subst. unfold zsum in *. simpl.
  pose proof (Hd i c ltac:(done) ltac:(done)).
  specialize (IH cols ltac:(lia) ltac:(done) ltac:(done)). lia.
Qed.

Lemma diagonal_minimalb_spec (C : matrix) :
  diagonal_minimalb C = true ↔ diagonal_minimal C.
Proof.
  unfold diagonal_minimalb, diagonal_minimal. rewrite forallb_forall. split.
  - intros Hb i j Hi Hj. specialize (Hb i). rewrite in_seq in Hb.
    specialize (Hb ltac:(lia)). rewrite forallb_forall in Hb.
    specialize (Hb j). rewrite in_seq in Hb. apply Z.leb_le, Hb. lia.
  - intros Hd i Hi. apply in_seq in Hi. apply forallb_forall. intros j Hj.
    apply in_seq in Hj. apply Z.leb_le, Hd; lia.
Qed.

(** The stand-in solver [diagonal_lsa] meets the contract of §6 and
    settles ties as scipy's solver does. *)
Lemma diagonal_lsa_contract :
  lsa_contract diagonal_lsa ∧ lsa_keeps_diagonal diagonal_lsa.
Proof.
  split.
  - intros C Hwf Hle. unfold diagonal_lsa.
    destruct (diagonal_minimalb C) eqn:Hd;
      [|by apply exhaustive_lsa_first_contract].
    apply diagonal_minimalb_spec in Hd. simpl.
    split; [done|]. split; [by apply seq_column_assignment|].
    intros cols (Hlen & _ & Hran). unfold assignment_cost.
    apply zip_with_diagonal_le; [done|by rewrite length_seq| |done].
    apply Forall_forall. intros i Hi. apply elem_of_seq in Hi. lia.
  - intros C _ _ Hd. unfold diagonal_lsa.
    apply diagonal_minimalb_spec in Hd. by rewrite Hd.
Qed.

Lemma find_permutation_same_labels_witness :
  lsa_contract diagonal_lsa ∧ set_order_contract elements ∧
  valid_labels [0;2;2;0] [0;2;2;0] ∧
  Forall (λ x, x < 9223372036854775807) [0;2;2;0] ∧
  ∃ perm,
    find_permutation diagonal_lsa elements [0;2;2;0] [0;2;2;0] None None
    = Ok perm ∧
    perm ≡ₚ seq 0 (Z.to_nat (default_K [0;2;2;0])) ∧
    (∀ k, k ∈ [0;2;2;0] → perm !! Z.to_nat k = Some (Z.to_nat k)) ∧
    ((∀ k, 0 ≤ k < default_K [0;2;2;0] → k ∈ [0;2;2;0]) →
     perm = seq 0 (Z.to_nat (default_K [0;2;2;0]))) ∧
    (lsa_keeps_diagonal diagonal_lsa →
     perm = seq 0 (Z.to_nat (default_K [0;2;2;0]))).
Proof.
  assert (valid_labels [0;2;2;0] [0;2;2;0]) as Hv
    by (repeat split; [done|repeat constructor; lia..]).
  assert (Forall (λ x, x < 9223372036854775807) [0;2;2;0]) as Hb
    by (repeat constructor; lia).
  split; [exact (proj1 diagonal_lsa_contract)|].
  split; [exact elements_order_contract|].
  split; [exact Hv|]. split; [exact Hb|].
  exact (find_permutation_same_labels diagonal_lsa elements
           (proj1 diagonal_lsa_contract) elements_order_contract [0;2;2;0] Hv Hb).
Defined.

(** The sequence [2] uses neither label 0 nor label 1: its overlap with
    itself is diag(0, 0, 1), and exchanging columns 0 and 1 costs nothing.
    Of the stand-in solvers, the one that keeps the first optimal assignment
    and the one that settles ties as scipy does return the identity, the one
    that keeps the last returns [1; 0; 2]: the contract of §6 alone does not
    decide the unused labels. *)
Example find_permutation_unused_labels :
  compute_state_overlap [2] [2] None None
  = Ok (Matrix 3 3 [[0;0;0];[0;0;0];[0;0;1]]) ∧
  find_permutation exhaustive_lsa_first elements [2] [2] None None
  = Ok [0; 1; 2]%nat ∧
  find_permutation diagonal_lsa elements [2] [2] None None
  = Ok [0; 1; 2]%nat ∧
  find_permutation exhaustive_lsa_last elements [2] [2] None None
  = Ok [1; 0; 2]%nat.
Proof. repeat split; vm_compute; reflexivity. Qed.

(** C8 as stated fails at the largest int64 label, for every solver: the
    default dimension wraps around to -2^63, [np.zeros] refuses it, and
    nothing is returned. *)
Lemma find_permutation_same_labels_wraps :
  valid_labels [9223372036854775807] [9223372036854775807] ∧
  int64_labels [9223372036854775807] [9223372036854775807] ∧
  (∀ lsa py_list,
     find_permutation lsa py_list
       [9223372036854775807] [9223372036854775807] None None
     = Raise (ValueError "negative dimensions are not allowed")) ∧
  ¬ (∀ lsa py_list, lsa_contract lsa → set_order_contract py_list →
       ∀ z, valid_labels z z → int64_labels z z →
         ∃ perm, find_permutation lsa py_list z z None None = Ok perm).
Proof.
  assert (valid_labels [9223372036854775807] [9223372036854775807]) as Hv
    by (repeat split; [done|repeat constructor; lia..]).
  assert (int64_labels [9223372036854775807] [9223372036854775807]) as Hi
    by (split; repeat constructor; unfold int64; lia).
  assert (∀ lsa py_list,
            find_permutation lsa py_list
              [9223372036854775807] [9223372036854775807] None None
            = Raise (ValueError "negative dimensions are not allowed")) as Hraise.
  { intros lsa py_list. unfold find_permutation.
    assert (compute_state_overlap
              [9223372036854775807] [9223372036854775807] None None
            = Raise (ValueError "negative dimensions are not allowed")) as ->
      by (vm_compute; reflexivity).
    reflexivity. }
  do 3 (split; [done|]).
  intros Hclaim.
  destruct (Hclaim exhaustive_lsa_first elements
              exhaustive_lsa_first_contract elements_order_contract
              [9223372036854775807] Hv Hi) as [perm Hperm].
  rewrite Hraise in Hperm. discriminate.
Qed.

(** * Further properties *)

(** ** When compute_state_overlap returns, and how it fails *)

Section overlap_errors.

Lemma foldl_min_le_all (l : list Z) (x : Z) :
  Forall (λ y, foldl Z.min x l ≤ y) (x :: l).
Proof.
  revert x. induction l as [|y l IH]; intros x; simpl.
  - repeat constructor. lia.
  - specialize (IH (Z.min x y)). inversion IH as [|? ? H1 H2]; subst.
    constructor; [lia|]. constructor; [lia|done].
Qed.

Lemma np_min_spec (z : list Z) (mn : Z) :
  np_min z = Ok mn → (0 ≤ mn ↔ Forall (λ x, 0 ≤ x) z).
Proof.
  destruct z as [|x l]; [discriminate|]. intros [= <-].
  pose proof (foldl_min_le_all l x) as Hle.
  pose proof (foldl_min_in l x) as Hin. split.
  - intros H0. eapply Forall_impl; [exact Hle|]. simpl. intros; lia.
  - intros Hall. rewrite Forall_forall in Hall. by apply Hall.
Qed.

Lemma compute_state_overlap_shape_mismatch (z1 z2 : list Z) (K1 K2 : option Z) :
  length z1 ≠ length z2 →
  compute_state_overlap z1 z2 K1 K2 = Raise (AssertionError "").
Proof.
  intros Hne. unfold compute_state_overlap.
  by rewrite bool_decide_eq_false_2.
Qed.

Lemma compute_state_overlap_negative (z1 z2 : list Z) (K1 K2 : option Z) :
  length z1 = length z2 → z1 ≠ [] →
  ¬ (Forall (λ x, 0 ≤ x) z1 ∧ Forall (λ x, 0 ≤ x) z2) →
  compute_state_overlap z1 z2 K1 K2 = Raise (AssertionError "").
Proof.
  intros Hlen Hne Hneg. unfold compute_state_overlap.
  rewrite bool_decide_eq_true_2 by done. simpl.
  destruct z1 as [|x1 l1]; [done|].
  destruct z2 as [|x2 l2]; [discriminate|].
  pose proof (np_min_spec (x1 :: l1) _ eq_refl) as H1.
  pose proof (np_min_spec (x2 :: l2) _ eq_refl) as H2.
  simpl. destruct (Z.leb_spec 0 (foldl Z.min x1 l1)) as [Hm1|Hm1]; simpl.
  - destruct (Z.leb_spec 0 (foldl Z.min x2 l2)) as [Hm2|Hm2]; simpl; [|reflexivity].
    exfalso. apply Hneg. split; [by apply H1|by apply H2].
  - reflexivity.
Qed.

(** Whatever compute_state_overlap returns is the table of the cells of
    valid sequences. *)
Lemma compute_state_overlap_inv (z1 z2 : list Z) (K1 K2 : option Z) (ov : matrix) :
  compute_state_overlap z1 z2 K1 K2 = Ok ov →
  valid_labels z1 z2 ∧ 0 ≤ resolve_K K1 z1 ∧ 0 ≤ resolve_K K2 z2 ∧
  ov = tabulate (Z.to_nat (resolve_K K1 z1)) (Z.to_nat (resolve_K K2 z2))
                (cell z1 z2).
Proof.
  intros Hov.
  destruct (decide (length z1 = length z2)) as [Hlen|Hlen];
    [|by rewrite compute_state_overlap_shape_mismatch in Hov].
  destruct (decide (z1 = [])) as [->|Hne].
  { destruct z2; [|discriminate]. discriminate Hov. }
  destruct (decide (Forall (λ x, 0 ≤ x) z1 ∧ Forall (λ x, 0 ≤ x) z2))
    as [[Hp1 Hp2]|Hneg];
    [|by rewrite compute_state_overlap_negative in Hov].
  assert (valid_labels z1 z2) as Hv by done.
  split; [done|]. rewrite compute_state_overlap_valid in Hov by done.
  destruct (Z.ltb_spec (resolve_K K1 z1) 0); [discriminate|].
  destruct (Z.ltb_spec (resolve_K K2 z2) 0); [discriminate|].
  simpl in Hov. injection Hov as <-. done.
Qed.

(** X1. On arrays of dtype int, compute_state_overlap returns a matrix
    exactly when the two sequences have one length, are not empty and carry
    no negative label, and neither resulting dimension is negative: a
    supplied dimension as it is, a defaulted one as max + 1 in int64
    arithmetic, which is negative when the largest label is 2^63 - 1. *)
Theorem compute_state_overlap_returns_iff (z1 z2 : list Z) (K1 K2 : option Z) :
  int64_labels z1 z2 →
  (∃ ov, compute_state_overlap z1 z2 K1 K2 = Ok ov) ↔
  valid_labels z1 z2 ∧ 0 ≤ resolve_K K1 z1 ∧ 0 ≤ resolve_K K2 z2.
Proof.
  intros _. split.
  - intros [ov Hov].
    destruct (compute_state_overlap_inv _ _ _ _ _ Hov) as (Hv & H1 & H2 & _).
    done.
  - intros (Hv & H1 & H2). eexists. by apply compute_state_overlap_Ok.
Qed.

(** X2. How compute_state_overlap fails: sequences of different lengths and
    negative labels fail an assertion, two empty sequences make the
    reduction [min] raise ValueError, and a negative supplied dimension is
    refused with ValueError when the matrix is allocated. *)
Theorem compute_state_overlap_errors (z1 z2 : list Z) (K1 K2 : option Z) :
  (length z1 ≠ length z2 →
   compute_state_overlap z1 z2 K1 K2 = Raise (AssertionError "")) ∧
  (z1 = [] → z2 = [] →
   compute_state_overlap z1 z2 K1 K2
   = Raise (ValueError "zero-size array to reduction operation minimum which has no identity")) ∧
  (length z1 = length z2 → z1 ≠ [] →
   Exists (λ x, x < 0) z1 ∨ Exists (λ x, x < 0) z2 →
   compute_state_overlap z1 z2 K1 K2 = Raise (AssertionError "")) ∧
  (valid_labels z1 z2 → resolve_K K1 z1 < 0 ∨ resolve_K K2 z2 < 0 →
   compute_state_overlap z1 z2 K1 K2
   = Raise (ValueError "negative dimensions are not allowed")).
Proof.
  split; [apply compute_state_overlap_shape_mismatch|].
  split; [by intros -> ->|]. split.
  - intros Hlen Hne Hneg. apply compute_state_overlap_negative; [done..|].
    intros [Hp1 Hp2]. rewrite Forall_forall in Hp1, Hp2.
    destruct Hneg as [Hneg|Hneg]; apply Exists_exists in Hneg as (x & Hin & Hx).
    + specialize (Hp1 x Hin). lia.
    + specialize (Hp2 x Hin). lia.
  - intros Hv HK. rewrite compute_state_overlap_valid by done.
    destruct HK as [HK|HK].
    + by rewrite (proj2 (Z.ltb_lt _ _) HK).
    + by rewrite (proj2 (Z.ltb_lt _ _) HK), orb_true_r.
Qed.

End overlap_errors.

(** ** The overlap matrix as a contingency table *)

Section contingency.

Lemma cell_nil_r (z : list Z) (i j : nat) : cell z [] i j = 0.
Proof. unfold cell, np_and, np_eq. by destruct z. Qed.

Lemma cell_swap (z1 z2 : list Z) (i j : nat) : cell z2 z1 j i = cell z1 z2 i j.
Proof.
  revert z2. induction z1 as [|x z1 IH]; intros [|y z2];
    rewrite ?cell_nil_r; try reflexivity.
  rewrite !cell_cons, IH. by rewrite andb_comm.
Qed.

Lemma cell_le_occurrences (z1 z2 : list Z) (i j : nat) :
  cell z1 z2 i j ≤ occurrences z1 (Z.of_nat i).
Proof.
  unfold occurrences. revert z2. induction z1 as [|x z1 IH]; intros [|y z2];
    rewrite ?cell_nil_r; try (unfold cell, np_and, np_eq, np_sum_bool; simpl; lia).
  rewrite cell_cons, filter_cons. specialize (IH z2).
  destruct (Z.eqb_spec x (Z.of_nat i)); simpl; case_decide; simpl length;
    try done; destruct (y =? Z.of_nat j); lia.
Qed.

Lemma cell_same_diagonal (z : list Z) (i : nat) :
  cell z z i i = occurrences z (Z.of_nat i).
Proof.
  unfold occurrences. induction z as [|x z IH]; [reflexivity|].
  rewrite cell_cons, filter_cons, IH.
  destruct (Z.eqb_spec x (Z.of_nat i)); simpl; case_decide; simpl length;
    try done; lia.
Qed.

Lemma row_sum_cells (z1 z2 : list Z) (i m : nat) :
  length z1 = length z2 →
  Forall (λ y, 0 ≤ y < Z.of_nat m) z2 →
  zsum (map (cell z1 z2 i) (seq 0 m)) = occurrences z1 (Z.of_nat i).
Proof.
  unfold occurrences. revert z2.
  induction z1 as [|x z1 IH]; intros [|y z2] Hlen Hran; simpl in Hlen;
    try discriminate.
  - erewrite map_ext; [apply zsum_map_zero|]. intros j. apply cell_nil_r.
  - inversion Hran as [|? ? Hy Hran']; subst.
    erewrite map_ext; [|intros j; apply cell_cons].
    rewrite zsum_map_add, IH, filter_cons by (done || lia).
    destruct (Z.eqb_spec x (Z.of_nat i)) as [->|Hx]; simpl.
    + rewrite (zsum_indicator m y 1).
      rewrite decide_True by done. rewrite decide_True by lia. simpl length. lia.
    + rewrite zsum_map_zero. rewrite decide_False by done. lia.
Qed.

(** X3. Exchanging the two sequences (and their dimensions) transposes the
    overlap matrix. *)
Theorem compute_state_overlap_transpose (z1 z2 : list Z) (K1 K2 : option Z)
    (ov : matrix) :
  compute_state_overlap z1 z2 K1 K2 = Ok ov →
  ∃ ov', compute_state_overlap z2 z1 K2 K1 = Ok ov' ∧
         nrows ov' = ncols ov ∧ ncols ov' = nrows ov ∧
         ∀ i j, (i < nrows ov)%nat → (j < ncols ov)%nat →
           mget ov' j i = mget ov i j.
Proof.
  intros Hov.
  destruct (compute_state_overlap_inv _ _ _ _ _ Hov) as (Hv & H1 & H2 & ->).
  pose proof (valid_labels_nonempty_r _ _ Hv) as Hne2.
  destruct Hv as (Hne & Hlen & Hp1 & Hp2).
  eexists. split.
  { apply compute_state_overlap_Ok; [by repeat split|done..]. }
  simpl. split; [done|]. split; [done|].
  intros i j Hi Hj. rewrite !mget_tabulate by done. apply cell_swap.
Qed.

(** X4. The overlap matrix has the label counts as its marginals: when
    every label of z2 is below K2, row k1 adds up to the number of
    occurrences of k1 in z1; when every label of z1 is below K1, column k2
    adds up to the number of occurrences of k2 in z2. *)
Theorem compute_state_overlap_marginals (z1 z2 : list Z) (K1 K2 : option Z)
    (ov : matrix) :
  compute_state_overlap z1 z2 K1 K2 = Ok ov →
  (Forall (λ y, y < Z.of_nat (ncols ov)) z2 →
   ∀ k1, (k1 < nrows ov)%nat →
     zsum (map (mget ov k1) (seq 0 (ncols ov))) = occurrences z1 (Z.of_nat k1)) ∧
  (Forall (λ x, x < Z.of_nat (nrows ov)) z1 →
   ∀ k2, (k2 < ncols ov)%nat →
     zsum (map (λ k1, mget ov k1 k2) (seq 0 (nrows ov)))
     = occurrences z2 (Z.of_nat k2)).
Proof.
  intros Hov.
  destruct (compute_state_overlap_inv _ _ _ _ _ Hov) as (Hv & H1 & H2 & ->).
  destruct Hv as (Hne & Hlen & Hp1 & Hp2). simpl.
  set (n := Z.to_nat (resolve_K K1 z1)). set (m := Z.to_nat (resolve_K K2 z2)).
  assert (∀ (z : list Z) (k : nat), Forall (λ x, 0 ≤ x) z →
            Forall (λ x, x < Z.of_nat k) z →
            Forall (λ x, 0 ≤ x < Z.of_nat k) z) as Hboth.
  { intros z k Ha Hb. rewrite Forall_forall in Ha, Hb |- *.
    intros x Hx. specialize (Ha x Hx). specialize (Hb x Hx). lia. }
  split.
  - intros Hran k1 Hk1.
    erewrite map_ext_in; [by apply row_sum_cells; [|apply Hboth]|].
    intros j Hj. apply in_seq in Hj. apply mget_tabulate; lia.
  - intros Hran k2 Hk2.
    erewrite map_ext_in; [by apply (row_sum_cells z2 z1 k2 n); [|apply Hboth]|].
    intros i Hi. apply in_seq in Hi. simpl.
    rewrite mget_tabulate by lia. symmetry. apply cell_swap.
Qed.

(** X5. Every entry of the overlap matrix lies between 0 and the number of
    occurrences of its row label in z1 and of its column label in z2; so
    the row of a label that z1 never carries and the column of a label
    that z2 never carries are zero. *)
Theorem compute_state_overlap_entry_bounds (z1 z2 : list Z) (K1 K2 : option Z)
    (ov : matrix) (k1 k2 : nat) :
  compute_state_overlap z1 z2 K1 K2 = Ok ov →
  (k1 < nrows ov)%nat → (k2 < ncols ov)%nat →
  0 ≤ mget ov k1 k2 ∧
  mget ov k1 k2 ≤ occurrences z1 (Z.of_nat k1) ∧
  mget ov k1 k2 ≤ occurrences z2 (Z.of_nat k2) ∧
  (Z.of_nat k1 ∉ z1 ∨ Z.of_nat k2 ∉ z2 → mget ov k1 k2 = 0).
Proof.
  intros Hov Hk1 Hk2.
  destruct (compute_state_overlap_inv _ _ _ _ _ Hov) as (Hv & H1 & H2 & ->).
  simpl in Hk1, Hk2. rewrite mget_tabulate by done.
  pose proof (cell_nonneg z1 z2 k1 k2) as H0.
  pose proof (cell_le_occurrences z1 z2 k1 k2) as Ha.
  pose proof (cell_le_occurrences z2 z1 k2 k1) as Hb. rewrite cell_swap in Hb.
  split; [done|]. split; [done|]. split; [done|].
  assert (∀ (z : list Z) k, k ∉ z → occurrences z k = 0) as Hocc.
  { intros z k Hk. unfold occurrences.
    induction z as [|x z IH]; [done|].
    apply not_elem_of_cons in Hk as [Hx Hk].
    rewrite filter_cons_False by (intros ->; done). by apply IH. }
  intros [Hn|Hn]; apply Hocc in Hn; lia.
Qed.

(** X6. The overlap of a sequence with itself is diagonal, with the number
    of occurrences of each label on the diagonal. *)
Theorem compute_state_overlap_self (z : list Z) (K1 K2 : option Z)
    (ov : matrix) (i j : nat) :
  compute_state_overlap z z K1 K2 = Ok ov →
  (i < nrows ov)%nat → (j < ncols ov)%nat →
  mget ov i j = if decide (i = j) then occurrences z (Z.of_nat i) else 0.
Proof.
  intros Hov Hi Hj.
  destruct (compute_state_overlap_inv _ _ _ _ _ Hov) as (Hv & H1 & H2 & ->).
  simpl in Hi, Hj. rewrite mget_tabulate by done.
  destruct (decide (i = j)) as [<-|Hne].
  - apply cell_same_diagonal.
  - by apply cell_same_off_diagonal.
Qed.

End contingency.

Lemma compute_state_overlap_transpose_witness :
  compute_state_overlap [0;0;0;1;1] [0;1;2;2;2] None None
  = Ok (Matrix 2 3 [[1;1;1];[0;0;2]]) ∧
  ∃ ov', compute_state_overlap [0;1;2;2;2] [0;0;0;1;1] None None = Ok ov' ∧
         nrows ov' = 3%nat ∧ ncols ov' = 2%nat ∧
         ∀ i j, (i < 2)%nat → (j < 3)%nat →
           mget ov' j i = mget (Matrix 2 3 [[1;1;1];[0;0;2]]) i j.
Proof.
  assert (compute_state_overlap [0;0;0;1;1] [0;1;2;2;2] None None
          = Ok (Matrix 2 3 [[1;1;1];[0;0;2]])) as Hov by reflexivity.
  split; [exact Hov|].
  exact (compute_state_overlap_transpose _ _ _ _ _ Hov).
Defined.

Lemma compute_state_overlap_marginals_witness :
  compute_state_overlap [0;0;0;1;1] [0;1;2;2;2] None None
  = Ok (Matrix 2 3 [[1;1;1];[0;0;2]]) ∧
  (Forall (λ y, y < 3) [0;1;2;2;2] →
   ∀ k1, (k1 < 2)%nat →
     zsum (map (mget (Matrix 2 3 [[1;1;1];[0;0;2]]) k1) (seq 0 3))
     = occurrences [0;0;0;1;1] (Z.of_nat k1)) ∧
  (Forall (λ x, x < 2) [0;0;0;1;1] →
   ∀ k2, (k2 < 3)%nat →
     zsum (map (λ k1, mget (Matrix 2 3 [[1;1;1];[0;0;2]]) k1 k2) (seq 0 2))
     = occurrences [0;1;2;2;2] (Z.of_nat k2)).
Proof.
  assert (compute_state_overlap [0;0;0;1;1] [0;1;2;2;2] None None
          = Ok (Matrix 2 3 [[1;1;1];[0;0;2]])) as Hov by reflexivity.
  split; [exact Hov|].
  exact (compute_state_overlap_marginals _ _ _ _ _ Hov).
Defined.

Lemma compute_state_overlap_entry_bounds_witness :
  compute_state_overlap [0;2;2] [1;1;0] (Some 3) None
  = Ok (Matrix 3 2 [[0;1];[0;0];[1;1]]) ∧
  (1 < 3)%nat ∧ (0 < 2)%nat ∧
  0 ≤ mget (Matrix 3 2 [[0;1];[0;0];[1;1]]) 1 0 ∧
  mget (Matrix 3 2 [[0;1];[0;0];[1;1]]) 1 0 ≤ occurrences [0;2;2] 1 ∧
  mget (Matrix 3 2 [[0;1];[0;0];[1;1]]) 1 0 ≤ occurrences [1;1;0] 0 ∧
  (1 ∉ [0;2;2] ∨ 0 ∉ [1;1;0] → mget (Matrix 3 2 [[0;1];[0;0];[1;1]]) 1 0 = 0).
Proof.
  assert (compute_state_overlap [0;2;2] [1;1;0] (Some 3) None
          = Ok (Matrix 3 2 [[0;1];[0;0];[1;1]])) as Hov by reflexivity.
  assert (1 < 3)%nat as H1 by lia. assert (0 < 2)%nat as H2 by lia.
  do 3 (split; [done|]).
  exact (compute_state_overlap_entry_bounds _ _ _ _ _ 1%nat 0%nat Hov H1 H2).
Defined.

Lemma compute_state_overlap_self_witness :
  compute_state_overlap [0;2;2] [0;2;2] None None
  = Ok (Matrix 3 3 [[1;0;0];[0;0;0];[0;0;2]]) ∧
  (2 < 3)%nat ∧
  mget (Matrix 3 3 [[1;0;0];[0;0;0];[0;0;2]]) 2 2
  = if decide (2%nat = 2%nat) then occurrences [0;2;2] 2 else 0.
Proof.
  assert (compute_state_overlap [0;2;2] [0;2;2] None None
          = Ok (Matrix 3 3 [[1;0;0];[0;0;0];[0;0;2]])) as Hov by reflexivity.
  assert (2 < 3)%nat as H2 by lia.
  do 2 (split; [done|]).
  exact (compute_state_overlap_self _ _ _ _ 2%nat 2%nat Hov H2 H2).
Defined.

(** ** When find_permutation returns, and how it fails *)

Section find_permutation_returns.

Variable lsa : matrix → list nat * list nat.
Variable py_list : gset nat → list nat.

(** X8. find_permutation hands on whatever compute_state_overlap raises.
    When the solver returns K1 row indices that are not 0 .. K1-1, the
    second assertion stops it, whatever columns the solver proposed.  The
    assertion compares by broadcasting, so it does not check how many rows
    came back: for K1 = 1 any number of row indices that are all 0 passes,
    and the solver's columns are returned (padded when 1 < K2). *)
Theorem find_permutation_failures (z1 z2 : list Z) (K1 K2 : option Z) :
  (∀ e, compute_state_overlap z1 z2 K1 K2 = Raise e →
        find_permutation lsa py_list z1 z2 K1 K2 = Raise e) ∧
  (∀ ov, compute_state_overlap z1 z2 K1 K2 = Ok ov →
         (nrows ov ≤ ncols ov)%nat →
         length (lsa (mneg ov)).1 = nrows ov →
         (lsa (mneg ov)).1 ≠ seq 0 (nrows ov) →
         find_permutation lsa py_list z1 z2 K1 K2
         = Raise (AssertionError "All indices should have been matched!")) ∧
  (∀ ov, compute_state_overlap z1 z2 K1 K2 = Ok ov →
         nrows ov = 1%nat → (1 ≤ ncols ov)%nat →
         Forall (λ r, r = 0%nat) (lsa (mneg ov)).1 →
         find_permutation lsa py_list z1 z2 K1 K2
         = Ok ((lsa (mneg ov)).2 ++
               if (1 <? ncols ov)%nat
               then py_list (list_to_set (seq 0 (ncols ov))
                             ∖ list_to_set (lsa (mneg ov)).2)
               else [])).
Proof.
  split; [|split].
  - intros e He. unfold find_permutation. by rewrite He.
  - intros ov Hov Hle Hlen Hrows. unfold find_permutation. rewrite Hov. simpl.
    rewrite (proj2 (Nat.leb_le _ _) Hle). simpl.
    destruct (lsa (mneg ov)) as [tmp perm]. simpl in Hrows, Hlen.
    destruct (np_all_eq_arrays tmp (seq 0 (nrows ov))) as [-> Hall];
      [by rewrite length_seq|].
    simpl.
    destruct (np_all (zip_with Nat.eqb tmp (seq 0 (nrows ov)))) eqn:Ha;
      [|reflexivity].
    rewrite <- Ha in Hall. destruct Hrows. by apply Hall.
  - intros ov Hov Hn Hm Hrows. unfold find_permutation. rewrite Hov. simpl.
    rewrite Hn. rewrite (proj2 (Nat.leb_le _ _) Hm). simpl.
    destruct (lsa (mneg ov)) as [tmp perm]. simpl in Hrows.
    assert (np_eq_arrays tmp [0%nat] = Ok (map (λ x, Nat.eqb x 0) tmp)) as ->.
    { unfold np_eq_arrays. case_decide as Hl.
      - destruct tmp as [|r [|? ?]]; simpl in Hl; try discriminate. reflexivity.
      - destruct tmp as [|r [|? ?]]; simpl in Hl; try done. }
    simpl.
    assert (np_all (map (λ x, Nat.eqb x 0) tmp) = true) as ->.
    { unfold np_all. induction Hrows as [|r tmp' -> _ IH]; simpl; done. }
    simpl. destruct (1 <? ncols ov)%nat; [reflexivity|by rewrite app_nil_r].
Qed.

Hypothesis lsa_ok : lsa_contract lsa.

(** X7. With a solver that meets its contract, find_permutation returns a
    permutation of arrays of dtype int exactly when the sequences are valid
    and the resulting dimensions (supplied, or max + 1 in int64 arithmetic)
    satisfy 0 <= K1 <= K2. *)
Theorem find_permutation_returns_iff (z1 z2 : list Z) (K1 K2 : option Z) :
  int64_labels z1 z2 →
  (∃ perm, find_permutation lsa py_list z1 z2 K1 K2 = Ok perm) ↔
  valid_labels z1 z2 ∧ 0 ≤ resolve_K K1 z1 ≤ resolve_K K2 z2.
Proof.
  intros _. split.
  - intros [perm Hfp].
    destruct (compute_state_overlap z1 z2 K1 K2) as [ov|e] eqn:Hov;
      [|by unfold find_permutation in Hfp; rewrite Hov in Hfp].
    destruct (compute_state_overlap_inv _ _ _ _ _ Hov) as (Hv & H1 & H2 & ->).
    split; [done|].
    destruct (Z.le_gt_cases (resolve_K K1 z1) (resolve_K K2 z2)) as [Hle|Hgt];
      [lia|].
    rewrite (find_permutation_too_many_rows lsa py_list _ _ _ _ _ Hov) in Hfp;
      [discriminate|]. simpl. lia.
  - intros (Hv & H1 & H2).
    eexists. eapply find_permutation_unfold.
    + apply compute_state_overlap_Ok; [done|lia..].
    + simpl. lia.
    + set (ov := tabulate _ _ _).
      destruct (lsa_ok (mneg ov)) as (Hrows & _);
        [apply mneg_wf, tabulate_wf|simpl; lia|exact Hrows].
Qed.

End find_permutation_returns.

Example find_permutation_unmatched_rows :
  find_permutation (λ _, ([0%nat], [0%nat])) elements [0;1] [0;1] None None
  = Raise (AssertionError "All indices should have been matched!").
Proof. vm_compute. reflexivity. Qed.

(** Two row indices for a single row pass the comparison by broadcasting. *)
Example find_permutation_rows_not_counted :
  find_permutation (λ _, ([0; 0]%nat, [0%nat])) elements [0] [0] None None
  = Ok [0%nat].
Proof. vm_compute. reflexivity. Qed.

(** ** What the permutation achieves *)

Section find_permutation_quality.

Lemma zsum_indicator_both (n : nat) (x y : Z) :
  zsum (map (λ k : nat, if (x =? Z.of_nat k) && (y =? Z.of_nat k) then 1 else 0)
            (seq 0 n))
  = if decide (x = y ∧ 0 ≤ x < Z.of_nat n) then 1 else 0.
Proof.
  erewrite map_ext.
  - rewrite (zsum_indicator n x (if decide (x = y) then 1 else 0)).
    repeat case_decide; lia.
  - intros k. simpl.
    destruct (Z.eqb_spec x (Z.of_nat k)) as [->|Hx]; simpl; [|reflexivity].
    destruct (Z.eqb_spec y (Z.of_nat k)); case_decide; lia.
Qed.

(** The diagonal of the overlap matrix counts the agreements. *)
Lemma diagonal_sum_cells (z1 z2 : list Z) (n : nat) :
  length z1 = length z2 →
  zsum (map (λ k, cell z1 z2 k k) (seq 0 n)) = agreements z1 z2 (Z.of_nat n).
Proof.
  unfold agreements. revert z2.
  induction z1 as [|x z1 IH]; intros [|y z2] Hlen; simpl in Hlen; try discriminate.
  - erewrite map_ext; [apply zsum_map_zero|]. intros k. apply cell_nil_r.
  - erewrite map_ext; [|intros k; apply cell_cons].
    rewrite zsum_map_add, zsum_indicator_both, IH by lia.
    simpl zip. rewrite filter_cons. simpl.
    repeat case_decide; simpl length; lia.
Qed.

Lemma elem_le_zsum (f : nat → Z) (m c : nat) :
  (∀ j, 0 ≤ f j) → (c < m)%nat → f c ≤ zsum (map f (seq 0 m)).
Proof.
  intros Hpos Hc. induction m as [|m IH]; [lia|].
  rewrite seq_S, map_app, zsum_app. simpl.
  replace (zsum [f m]) with (f m) by (unfold zsum; simpl; lia).
  assert (0 ≤ zsum (map f (seq 0 m))) as H0.
  { clear -Hpos. unfold zsum. induction (seq 0 m) as [|a l IHl]; simpl; [lia|].
    specialize (Hpos a). lia. }
  destruct (decide (c = m)) as [->|Hne]; [lia|].
  specialize (IH ltac:(lia)). specialize (Hpos m). lia.
Qed.

Lemma total_overlap_le_msum (n m : nat) (z1 z2 : list Z) (sigma : nat → nat) :
  (∀ k, (k < n)%nat → (sigma k < m)%nat) →
  total_overlap (tabulate n m (cell z1 z2)) sigma ≤ msum (tabulate n m (cell z1 z2)).
Proof.
  intros Hran. rewrite msum_tabulate. unfold total_overlap. simpl.
  apply zsum_map_le. intros k Hk. apply elem_of_seq in Hk.
  rewrite mget_tabulate by (try apply Hran; lia).
  apply elem_le_zsum; [intros j; apply cell_nonneg|apply Hran; lia].
Qed.

Variable lsa : matrix → list nat * list nat.
Variable py_list : gset nat → list nat.
Hypothesis lsa_ok : lsa_contract lsa.
Hypothesis py_list_ok : set_order_contract py_list.

(** X10. Relabelling with the permutation never loses agreements and
    cannot make more than T of them: the total overlap of the permutation
    that find_permutation returns is at least the number of positions at
    which the two sequences already agree (on a label below K1), and at
    most the length T of the sequences. *)
Theorem find_permutation_agreements (z1 z2 : list Z) (K1 K2 : option Z)
    (perm : list nat) :
  find_permutation lsa py_list z1 z2 K1 K2 = Ok perm →
  ∃ ov, compute_state_overlap z1 z2 K1 K2 = Ok ov ∧
        agreements z1 z2 (Z.of_nat (nrows ov)) ≤ total_overlap ov (as_map perm) ∧
        total_overlap ov (as_map perm) ≤ Z.of_nat (length z1).
Proof.
  intros Hfp.
  assert (valid_labels z1 z2 ∧ 0 ≤ resolve_K K1 z1 ≤ resolve_K K2 z2)
    as (Hv & H1 & H2).
  { destruct (compute_state_overlap z1 z2 K1 K2) as [ov|e] eqn:Hov;
      [|by unfold find_permutation in Hfp; rewrite Hov in Hfp].
    destruct (compute_state_overlap_inv _ _ _ _ _ Hov) as (Hv & H1 & H2 & ->).
    split; [done|].
    destruct (Z.le_gt_cases (resolve_K K1 z1) (resolve_K K2 z2)) as [Hle|Hgt];
      [lia|].
    rewrite (find_permutation_too_many_rows lsa py_list _ _ _ _ _ Hov) in Hfp;
      [discriminate|]. simpl. lia. }
  destruct (find_permutation_valid lsa py_list lsa_ok py_list_ok
              z1 z2 K1 K2 Hv (conj H1 H2))
    as (matched & unused & Hov & Hfp' & _ & Hca & Hperm & Hopt).
  rewrite Hfp in Hfp'. injection Hfp' as ->.
  set (n := Z.to_nat (resolve_K K1 z1)) in *.
  set (m := Z.to_nat (resolve_K K2 z2)) in *.
  set (ov := tabulate n m (cell z1 z2)) in *.
  pose proof Hca as (Hlen & Hnd & Hran). simpl in Hlen.
  pose proof Hv as (_ & Hlenz & _ & _).
  assert (total_overlap ov (as_map (matched ++ unused))
          = assignment_cost ov (seq 0 n) matched) as Htot.
  { rewrite (total_overlap_ext ov _ (as_map matched))
      by (intros k Hk; apply as_map_app_l; simpl in Hk; lia).
    rewrite <- cost_total_overlap. simpl nrows.
    pose proof (map_as_map matched) as Hmm. rewrite Hlen in Hmm. by rewrite Hmm. }
  exists ov. split; [done|]. split.
  - rewrite Htot. simpl nrows.
    specialize (Hopt (seq 0 n) (seq_column_assignment ov ltac:(simpl; lia))).
    etrans; [|exact Hopt].
    rewrite <- (map_id (seq 0 n)) at 2.
    change n with (nrows ov) at 2 3. rewrite cost_total_overlap.
    unfold total_overlap. simpl nrows.
    rewrite <- (diagonal_sum_cells z1 z2 n Hlenz).
    apply Z.eq_le_incl. f_equal. apply map_ext_in.
    intros k Hk. apply in_seq in Hk. unfold ov.
    rewrite mget_tabulate by (unfold n, m in *; lia). reflexivity.
  - etrans; [apply total_overlap_le_msum|].
    + destruct (column_assignment_injection ov matched Hca) as [Hr _].
      intros k Hk. rewrite as_map_app_l by lia. by apply Hr.
    + rewrite msum_overlap by done.
      pose proof (length_filter_le (in_shape (Z.of_nat n) (Z.of_nat m)) (zip z1 z2)).
      rewrite length_zip_with in H. lia.
Qed.

End find_permutation_quality.

(** ** Recovering a relabelling *)

Section relabelling.

Lemma occurrences_nonneg (z : list Z) (k : Z) : 0 ≤ occurrences z k.
Proof. unfold occurrences. lia. Qed.

Lemma occurrences_pos (z : list Z) (k : Z) : k ∈ z → 0 < occurrences z k.
Proof.
  unfold occurrences. induction 1 as [k z|k x z Hin IH].
  - rewrite filter_cons_True by done. simpl. lia.
  - rewrite filter_cons. case_decide; simpl; lia.
Qed.

(** The overlap of a sequence with a relabelled copy of itself: the mass of
    label [i] sits in column [sigma i]. *)
Lemma cell_relabelled (z : list Z) (sigma : Z → Z) (i j : nat) :
  cell z (map sigma z) i j
  = if decide (sigma (Z.of_nat i) = Z.of_nat j)
    then occurrences z (Z.of_nat i) else 0.
Proof.
  unfold occurrences. induction z as [|x z IH]; [by case_decide|].
  simpl map. rewrite cell_cons, IH, filter_cons.
  destruct (Z.eqb_spec x (Z.of_nat i)) as [Hx|Hx],
           (Z.eqb_spec (sigma x) (Z.of_nat j)) as [Hs|Hs]; simpl;
    repeat case_decide; simpl length; subst; try lia; congruence.
Qed.

Variable lsa : matrix → list nat * list nat.
Variable py_list : gset nat → list nat.
Hypothesis lsa_ok : lsa_contract lsa.
Hypothesis py_list_ok : set_order_contract py_list.

(** X9. find_permutation recovers a relabelling: when z2 is z1 with its
    labels renamed one-to-one by sigma, the labels of both sequences are
    below 2^63 - 1, and z1 uses every label below its K1, the permutation
    returned for (z1, z2) sends every label k to sigma k. *)
Theorem find_permutation_recovers_relabelling (z : list Z) (sigma : Z → Z) :
  valid_labels z (map sigma z) →
  Forall (λ x, x < 9223372036854775807) z →
  Forall (λ x, x < 9223372036854775807) (map sigma z) →
  (∀ k, 0 ≤ k < default_K z → k ∈ z) →
  (∀ a b, a ∈ z → b ∈ z → sigma a = sigma b → a = b) →
  ∃ perm,
    find_permutation lsa py_list z (map sigma z) None None = Ok perm ∧
    ∀ k, k ∈ z → perm !! Z.to_nat k = Some (Z.to_nat (sigma k)).
Proof.
  intros Hv Hb1 Hb2 Hall Hinj.
  pose proof Hv as (Hne & Hlen & Hp1 & Hp2).
  set (z2 := map sigma z) in *.
  set (n1 := Z.to_nat (default_K z)). set (n2 := Z.to_nat (default_K z2)).
  set (f := λ k : nat, Z.to_nat (sigma (Z.of_nat k))).
  pose proof (default_K_pos z Hb1) as HK1.
  pose proof (default_K_pos z2 Hb2) as HK2.
  pose proof (default_K_exceeds z (below_max_int64 z Hp1 Hb1) ltac:(lia))
    as Hex1.
  pose proof (default_K_exceeds z2 (below_max_int64 z2 Hp2 Hb2) ltac:(lia))
    as Hex2.
  assert (∀ k, (k < n1)%nat → Z.of_nat k ∈ z) as Hocc
    by (intros k Hk; apply Hall; unfold n1 in Hk; lia).
  assert (∀ k, (k < n1)%nat → 0 ≤ sigma (Z.of_nat k) < default_K z2) as Hsig.
  { intros k Hk. specialize (Hocc k Hk).
    assert (sigma (Z.of_nat k) ∈ z2) as Hin
      by (unfold z2; apply list_elem_of_fmap; eauto).
    rewrite Forall_forall in Hp2, Hex2.
    specialize (Hp2 _ Hin). specialize (Hex2 _ Hin). lia. }
  assert (NoDup (map f (seq 0 n1))) as Hnd0.
  { apply NoDup_alt. intros i j x Hi Hj.
    rewrite list_lookup_fmap in Hi, Hj.
    destruct (seq 0 n1 !! i) as [i'|] eqn:Ei; [|done].
    destruct (seq 0 n1 !! j) as [j'|] eqn:Ej; [|done].
    apply lookup_seq in Ei as [-> Hi'], Ej as [-> Hj'].
    simpl in *. injection Hi as Hi. injection Hj as Hj. subst x. unfold f in Hj.
    pose proof (Hsig i Hi'). pose proof (Hsig j Hj').
    assert (Z.of_nat j = Z.of_nat i); [|lia].
    apply Hinj; [by apply Hocc..|lia]. }
  assert (Forall (λ c, (c < n2)%nat) (map f (seq 0 n1))) as Hran0.
  { rewrite Forall_forall. intros c Hc.
    apply list_elem_of_fmap in Hc as (k & -> & Hk). apply elem_of_seq in Hk.
    pose proof (Hsig k ltac:(lia)). unfold f, n2. lia. }
  assert (n1 ≤ n2)%nat as Hle.
  { assert (map f (seq 0 n1) ⊆+ seq 0 n2) as Hsub.
    { apply NoDup_submseteq; [done|]. intros c Hc.
      rewrite Forall_forall in Hran0. apply elem_of_seq.
      specialize (Hran0 c Hc). lia. }
    apply submseteq_length in Hsub.
    by rewrite length_map, !length_seq in Hsub. }
  destruct (find_permutation_valid lsa py_list lsa_ok py_list_ok
              z z2 None None Hv ltac:(simpl; unfold n1, n2 in Hle; lia))
    as (matched & unused & Hov & Hfp & _ & Hca & Hperm & Hopt).
  simpl resolve_K in *. fold n1 n2 in Hov, Hca, Hperm, Hopt.
  set (ov := tabulate n1 n2 (cell z z2)) in *.
  pose proof Hca as (Hlenm & Hndm & Hranm). simpl in Hlenm, Hranm.
  exists (matched ++ unused). split; [done|].
  intros k Hk.
  assert (0 ≤ k < default_K z) as Hkr.
  { rewrite Forall_forall in Hp1, Hex1. specialize (Hp1 k Hk).
    specialize (Hex1 k Hk). lia. }
  set (i := Z.to_nat k). assert (i < n1)%nat as Hi by (unfold i, n1; lia).
  assert (Z.of_nat i = k) as Hik by (unfold i; lia).
  rewrite lookup_app_l by lia.
  destruct (lookup_lt_is_Some_2 matched i ltac:(lia)) as [c Hc].
  rewrite Hc. f_equal. change (Z.to_nat (sigma k)) with (Z.to_nat (sigma k)).
  rewrite <- Hik. fold (f i).
  destruct (decide (c = f i)) as [->|Hcne]; [done|]. exfalso.
  assert (column_assignment ov (map f (seq 0 n1))) as Hca0.
  { repeat split; [by rewrite length_map, length_seq|done|done]. }
  specialize (Hopt _ Hca0).
  pose proof (map_as_map matched) as Hmm. rewrite Hlenm in Hmm.
  rewrite <- Hmm in Hopt.
  change n1 with (nrows ov) in Hopt.
  rewrite !cost_total_overlap in Hopt. unfold total_overlap in Hopt.
  simpl nrows in Hopt.
  assert (∀ j, (j < n1)%nat → mget ov j (f j) = occurrences z (Z.of_nat j)) as Hdiag.
  { intros j Hj. pose proof (Hsig j Hj).
    assert (f j < n2)%nat by (unfold f, n2; lia).
    unfold ov. rewrite mget_tabulate by done. unfold z2.
    rewrite cell_relabelled. rewrite decide_True; [done|]. unfold f. lia. }
  assert (∀ j c', (j < n1)%nat → (c' < n2)%nat → c' ≠ f j → mget ov j c' = 0)
    as Hoff.
  { intros j c' Hj Hc' Hne'. pose proof (Hsig j Hj).
    unfold ov. rewrite mget_tabulate by done. unfold z2.
    rewrite cell_relabelled. rewrite decide_False; [done|].
    intros Heq. apply Hne'. unfold f. lia. }
  assert (∀ j, (j < n1)%nat → (as_map matched j < n2)%nat) as Hmr.
  { destruct (column_assignment_injection ov matched Hca) as [Hr _]. exact Hr. }
  pose proof (zsum_map_lt (λ j, mget ov j (as_map matched j)) (λ j, mget ov j (f j))
                (seq 0 n1) i) as Hlt.
  assert (zsum (map (λ j, mget ov j (as_map matched j)) (seq 0 n1))
          < zsum (map (λ j, mget ov j (f j)) (seq 0 n1))); [|lia].
  apply Hlt.
  - intros j Hj. apply elem_of_seq in Hj.
    rewrite Hdiag by lia.
    destruct (decide (as_map matched j = f j)) as [->|Hd'].
    + rewrite Hdiag by lia. lia.
    + rewrite Hoff by (try apply Hmr; try done; lia). apply occurrences_nonneg.
  - apply elem_of_seq. lia.
  - rewrite Hdiag by done.
    unfold as_map. rewrite Hc. simpl.
    rewrite Hoff; [|done| |done].
    + apply occurrences_pos. by rewrite Hik.
    + rewrite Forall_forall in Hranm. apply Hranm.
      by eapply list_elem_of_lookup_2.
Qed.

End relabelling.

Lemma compute_state_overlap_returns_iff_witness :
  int64_labels [0;9223372036854775807] [1;0] ∧
  ((∃ ov, compute_state_overlap [0;9223372036854775807] [1;0] None (Some 2)
          = Ok ov) ↔
   valid_labels [0;9223372036854775807] [1;0] ∧
   0 ≤ resolve_K None [0;9223372036854775807] ∧
   0 ≤ resolve_K (Some 2) [1;0]).
Proof.
  assert (int64_labels [0;9223372036854775807] [1;0]) as Hi
    by (split; repeat constructor; unfold int64; lia).
  split; [exact Hi|].
  exact (compute_state_overlap_returns_iff
           [0;9223372036854775807] [1;0] None (Some 2) Hi).
Defined.

Lemma find_permutation_returns_iff_witness :
  lsa_contract exhaustive_lsa_first ∧
  int64_labels [0;0;1;1] [1;1;0;0] ∧
  ((∃ perm, find_permutation exhaustive_lsa_first elements
              [0;0;1;1] [1;1;0;0] None None = Ok perm) ↔
   valid_labels [0;0;1;1] [1;1;0;0] ∧
   0 ≤ resolve_K None [0;0;1;1] ≤ resolve_K None [1;1;0;0]).
Proof.
  assert (int64_labels [0;0;1;1] [1;1;0;0]) as Hi
    by (split; repeat constructor; unfold int64; lia).
  split; [exact exhaustive_lsa_first_contract|].
  split; [exact Hi|].
  exact (find_permutation_returns_iff exhaustive_lsa_first elements
           exhaustive_lsa_first_contract [0;0;1;1] [1;1;0;0] None None Hi).
Defined.

Lemma find_permutation_agreements_witness :
  lsa_contract exhaustive_lsa_first ∧ set_order_contract elements ∧
  find_permutation exhaustive_lsa_first elements [0;0;1;1;2] [1;1;0;2;2] None None
  = Ok [1; 0; 2]%nat ∧
  ∃ ov, compute_state_overlap [0;0;1;1;2] [1;1;0;2;2] None None = Ok ov ∧
        agreements [0;0;1;1;2] [1;1;0;2;2] (Z.of_nat (nrows ov))
        ≤ total_overlap ov (as_map [1; 0; 2]%nat) ∧
        total_overlap ov (as_map [1; 0; 2]%nat) ≤ Z.of_nat (length [0;0;1;1;2]).
Proof.
  assert (find_permutation exhaustive_lsa_first elements
            [0;0;1;1;2] [1;1;0;2;2] None None = Ok [1; 0; 2]%nat) as Hfp
    by (vm_compute; reflexivity).
  split; [exact exhaustive_lsa_first_contract|].
  split; [exact elements_order_contract|].
  split; [exact Hfp|].
  exact (find_permutation_agreements exhaustive_lsa_first elements
           exhaustive_lsa_first_contract elements_order_contract
           _ _ _ _ _ Hfp).
Defined.

Lemma find_permutation_recovers_relabelling_witness :
  lsa_contract exhaustive_lsa_last ∧ set_order_contract elements ∧
  valid_labels [0;2;1;1] (map (λ k, (k + 1) mod 3) [0;2;1;1]) ∧
  Forall (λ x, x < 9223372036854775807) [0;2;1;1] ∧
  Forall (λ x, x < 9223372036854775807) (map (λ k, (k + 1) mod 3) [0;2;1;1]) ∧
  (∀ k, 0 ≤ k < default_K [0;2;1;1] → k ∈ [0;2;1;1]) ∧
  (∀ a b, a ∈ [0;2;1;1] → b ∈ [0;2;1;1] →
          (a + 1) mod 3 = (b + 1) mod 3 → a = b) ∧
  ∃ perm,
    find_permutation exhaustive_lsa_last elements
      [0;2;1;1] (map (λ k, (k + 1) mod 3) [0;2;1;1]) None None = Ok perm ∧
    ∀ k, k ∈ [0;2;1;1] → perm !! Z.to_nat k = Some (Z.to_nat ((k + 1) mod 3)).
Proof.
  assert (valid_labels [0;2;1;1] (map (λ k, (k + 1) mod 3) [0;2;1;1])) as Hv.
  { repeat split; [done|repeat constructor; lia|].
    simpl. repeat constructor; by vm_compute. }
  assert (Forall (λ x, x < 9223372036854775807) [0;2;1;1]) as Hb1
    by (repeat constructor; lia).
  assert (Forall (λ x, x < 9223372036854775807)
                 (map (λ k, (k + 1) mod 3) [0;2;1;1])) as Hb2
    by (simpl; repeat constructor; by vm_compute).
  assert (∀ k, k ∈ [0;2;1;1] → k = 0 ∨ k = 1 ∨ k = 2) as Hcases.
  { intros k Hk. rewrite !elem_of_cons, elem_of_nil in Hk. lia. }
  assert (∀ k, 0 ≤ k < default_K [0;2;1;1] → k ∈ [0;2;1;1]) as Hall.
  { intros k Hk. change (default_K [0;2;1;1]) with 3 in Hk.
    rewrite !elem_of_cons. lia. }
  assert (∀ a b, a ∈ [0;2;1;1] → b ∈ [0;2;1;1] →
                 (a + 1) mod 3 = (b + 1) mod 3 → a = b) as Hinj.
  { intros a b Ha Hb Hab.
    destruct (Hcases a Ha) as [-> | [-> | ->]],
             (Hcases b Hb) as [-> | [-> | ->]];
      vm_compute in Hab; congruence. }
  split; [exact exhaustive_lsa_last_contract|].
  split; [exact elements_order_contract|].
  do 5 (split; [done|]).
  exact (find_permutation_recovers_relabelling exhaustive_lsa_last elements
           exhaustive_lsa_last_contract elements_order_contract
           [0;2;1;1] (λ k, (k + 1) mod 3) Hv Hb1 Hb2 Hall Hinj).
Defined.

(** ** The loop of the optimizer *)

Section adam_loop_facts.

Context {F E : Type} `{Num F}.
Local Open Scope num_scope.

Variable grad : list F → nat → list F.
Variable o : adam_options F.

(** What an iteration that succeeds does to the counter and to the record
    of callback calls. *)
Lemma adam_iteration_events (callback : option (list F → nat → list F → E))
    (i : nat) (l l' : adam_locals F E) :
  adam_iteration grad callback o i l = Ok l' →
  loc_iters l' = S (loc_iters l) ∧
  loc_events l' = match callback with
                  | Some cb => loc_events l ++ [cb (loc_x l) i (grad (loc_x l) i)]
                  | None => loc_events l
                  end.
Proof.
  intros Hit. unfold adam_iteration in Hit.
  destruct (unflatten (loc_shape l) (loc_x l)) as [ux|] eqn:Hux;
    simpl in Hit; [|discriminate].
  apply unflatten_inv in Hux as [-> Hs].
  destruct callback as [cb|]; simpl in Hit.
  - destruct (unflatten (loc_shape l) (grad (loc_x l) i)) as [ug|] eqn:Hug;
      simpl in Hit; [|discriminate].
    apply unflatten_inv in Hug as [-> _].
    repeat match type of Hit with
           | (mbind _ ?r) = _ => destruct r; simpl in Hit; [|discriminate]
           end.
    injection Hit as <-. done.
  - repeat match type of Hit with
           | (mbind _ ?r) = _ => destruct r; simpl in Hit; [|discriminate]
           end.
    injection Hit as <-. done.
Qed.

(** With a gradient of the shape of [x] the loop cannot fail, and keeps
    the shapes. *)
Lemma adam_loop_Ok (callback : option (list F → nat → list F → E))
    (start n : nat) (l : adam_locals F E) :
  (∀ x i, length (grad x i) = length x) →
  length (loc_x l) = loc_shape l →
  length (loc_m l) = length (loc_x l) →
  length (loc_v l) = length (loc_x l) →
  ∃ lf, adam_loop grad callback o (seq start n) l = Ok lf ∧
        length (loc_x lf) = length (loc_x l) ∧
        length (loc_m lf) = length (loc_x l) ∧
        length (loc_v lf) = length (loc_x l) ∧
        loc_shape lf = loc_shape l.
Proof.
  intros Hg. revert start l.
  induction n as [|n IH]; intros start l Hs Hm Hv; simpl.
  - exists l. done.
  - destruct (adam_iteration_Ok grad callback o start l Hs (Hg _ _) Hm Hv)
      as (Hit & Hm' & Hv' & Hdx).
    rewrite Hit. simpl.
    match goal with
    | |- context [converged o ?l'] => set (l1 := l')
    end.
    assert (length (loc_x l1) = length (loc_x l)) as Hx1.
    { unfold l1; simpl. rewrite length_zip_with.
      cbv zeta in Hdx. rewrite Hdx. lia. }
    assert (length (loc_m l1) = length (loc_x l)) as Hm1 by exact Hm'.
    assert (length (loc_v l1) = length (loc_x l)) as Hv1 by exact Hv'.
    assert (loc_shape l1 = loc_shape l) as Hs1 by reflexivity.
    clearbody l1.
    destruct (converged o l1).
    + exists l1. done.
    + destruct (IH (S start) l1) as (lf & Hrun & Hxf & Hmf & Hvf & Hsf);
        [congruence..|].
      exists lf. split; [done|]. repeat split; congruence.
Qed.

(** X11. Were [num_iters] bound to n in the module, then for a gradient of
    the shape of x the optimizer would never raise: it returns an x of the
    same length after at most n iterations, having stopped before the n-th
    only because the last update met the convergence test; for n <= 0 it
    returns x untouched. *)
Theorem adam_returns_within_bound
    (callback : option (list F → nat → list F → E))
    (globals : gmap string pyobj) (n : Z) (x : list F) :
  globals !! "num_iters" = Some (PyInt n) →
  (∀ x i, length (grad x i) = length x) →
  ∃ xf l,
    adam_with_convergence_check grad callback o globals x = Ok (xf, l) ∧
    xf = loc_x l ∧ length xf = length x ∧
    (loc_iters l ≤ Z.to_nat n)%nat ∧
    ((loc_iters l < Z.to_nat n)%nat → converged o l = true) ∧
    (n ≤ 0 → xf = x).
Proof.
  intros Hn Hg. unfold adam_with_convergence_check, load_global.
  rewrite Hn. simpl. unfold py_range.
  destruct (adam_loop_Ok callback 0 (Z.to_nat n) (adam_initial x) Hg)
    as (lf & Hrun & Hx & _ & _ & Hsf);
    [simpl; try apply length_replicate; reflexivity..|].
  rewrite Hrun. simpl. rewrite unflatten_Ok by (simpl in *; congruence).
  simpl. exists (loc_x lf), lf.
  destruct (adam_loop_iterations grad callback o _ _ _ _ Hrun)
    as (k & Hk & _ & Hcount & Hconv). simpl in Hcount. subst k.
  split; [done|]. split; [done|]. split; [done|]. split; [done|].
  split; [done|].
  intros Hn0. replace (Z.to_nat n) with 0%nat in Hrun by lia.
  simpl in Hrun. injection Hrun as <-. done.
Qed.

(** X12. The callback is called once in every iteration, in order: if it
    records the index it is given, the record after the loop is
    0, 1, ..., k-1 for the k iterations performed; without a callback
    nothing is recorded. *)
Theorem adam_callback_once_per_iteration (n : nat) (x : list F) :
  (∀ (cb : list F → nat → list F → E) (idx : E → nat) lf,
     (∀ x i g, idx (cb x i g) = i) →
     adam_loop grad (Some cb) o (seq 0 n) (adam_initial x) = Ok lf →
     map idx (loc_events lf) = seq 0 (loc_iters lf)) ∧
  (∀ lf, adam_loop grad (None (A:=list F → nat → list F → E)) o (seq 0 n)
           (adam_initial x) = Ok lf →
         loc_events lf = []).
Proof.
  split.
  - intros cb idx lf Hidx.
    assert (∀ start (l : adam_locals F E),
              start = loc_iters l →
              map idx (loc_events l) = seq 0 (loc_iters l) →
              adam_loop grad (Some cb) o (seq start n) l = Ok lf →
              map idx (loc_events lf) = seq 0 (loc_iters lf)) as Hgen.
    { induction n as [|n' IH]; intros start l Hs Hev Hrun; simpl in Hrun.
      - by injection Hrun as <-.
      - destruct (adam_iteration grad (Some cb) o start l) as [l'|e] eqn:Hit;
          simpl in Hrun; [|discriminate].
        destruct (adam_iteration_events _ _ _ _ Hit) as [Hc He].
        assert (map idx (loc_events l') = seq 0 (loc_iters l')) as Hev'.
        { rewrite He, Hc, map_app, Hev, seq_S. simpl. by rewrite Hidx, Hs. }
        destruct (converged o l').
        + by injection Hrun as <-.
        + apply (IH (S start) l'); [lia|done..]. }
    apply Hgen; done.
  - intros lf.
    assert (∀ start (l : adam_locals F E),
              loc_events l = [] →
              adam_loop grad None o (seq start n) l = Ok lf →
              loc_events lf = []) as Hgen.
    { induction n as [|n' IH]; intros start l Hev Hrun; simpl in Hrun.
      - by injection Hrun as <-.
      - destruct (adam_iteration grad None o start l) as [l'|e] eqn:Hit;
          simpl in Hrun; [|discriminate].
        destruct (adam_iteration_events _ _ _ _ Hit) as [Hc He].
        destruct (converged o l').
        + injection Hrun as <-. congruence.
        + apply (IH (S start) l'); [congruence|done]. }
    apply Hgen. done.
Qed.

Lemma np_binop_mismatch (op : F → F → F) (a b : list F) :
  length a ≠ length b → length a ≠ 1%nat → length b ≠ 1%nat →
  np_binop op a b = Raise (ValueError "operands could not be broadcast together").
Proof.
  intros Hab Ha Hb. unfold np_binop. rewrite decide_False by done.
  destruct a as [|? [|? ?]], b as [|? [|? ?]]; simpl in *; done.
Qed.

Lemma np_binop_stretch (op : F → F → F) (s : F) (b : list F) :
  np_binop op [s] b = Ok (map (op s) b).
Proof.
  unfold np_binop. case_decide as Hl; [|reflexivity].
  destruct b as [|b0 [|? ?]]; simpl in Hl; try discriminate. reflexivity.
Qed.

(** X13. A gradient of another size than x.  With a callback, the
    decorator reshapes the gradient for it and raises ValueError before the
    callback is called and before any update.  Without a callback nothing
    reshapes the gradient: when neither the gradient nor x has exactly one
    entry the first array operation of the iteration raises ValueError, and
    a gradient with a single entry is not refused but stretched over the
    coordinates of x. *)
Theorem adam_gradient_shape (i : nat) (l : adam_locals F E) :
  length (loc_x l) = loc_shape l →
  length (loc_m l) = length (loc_x l) →
  length (loc_v l) = length (loc_x l) →
  (∀ cb, length (grad (loc_x l) i) ≠ length (loc_x l) →
   adam_iteration grad (Some cb) o i l
   = Raise (ValueError "cannot reshape array")) ∧
  (length (grad (loc_x l) i) ≠ length (loc_x l) →
   length (grad (loc_x l) i) ≠ 1%nat → length (loc_x l) ≠ 1%nat →
   adam_iteration grad None o i l
   = Raise (ValueError "operands could not be broadcast together")) ∧
  (∀ g0, grad (loc_x l) i = [g0] →
   ∃ l', adam_iteration grad None o i l = Ok l' ∧
         loc_m l' = map (λ m, (1 - b1 o) * g0 + b1 o * m) (loc_m l) ∧
         loc_v l' = map (λ v, (1 - b2 o) * g0 ^ 2 + b2 o * v) (loc_v l) ∧
         length (loc_x l') = length (loc_x l)).
Proof.
  intros Hs Hm Hv. split; [|split].
  - intros cb Hg. unfold adam_iteration.
    rewrite (unflatten_Ok _ (loc_x l)) by done. simpl.
    rewrite unflatten_mismatch by congruence. reflexivity.
  - intros Hg Hg1 Hx1. unfold adam_iteration.
    rewrite (unflatten_Ok _ (loc_x l)) by done. simpl.
    rewrite (np_binop_mismatch f_add
               (scalar_l f_mul (1 - b1 o) (grad (loc_x l) i))
               (scalar_l f_mul (b1 o) (loc_m l)));
      [reflexivity|..]; unfold scalar_l; rewrite ?length_map; lia.
  - intros g0 Hg. unfold adam_iteration.
    rewrite (unflatten_Ok _ (loc_x l)) by done. simpl. rewrite Hg.
    change (scalar_l f_mul (1 - b1 o) [g0]) with [(1 - b1 o) * g0].
    change (scalar_l f_mul (1 - b2 o) (map (λ a : F, a ^ 2) [g0]))
      with [(1 - b2 o) * g0 ^ 2].
    rewrite !np_binop_stretch. simpl.
    rewrite np_binop_same_length
      by (unfold scalar_l, scalar_r; rewrite !length_map; lia).
    simpl.
    rewrite np_binop_same_length
      by (rewrite length_zip_with; unfold scalar_l, scalar_r;
          rewrite !length_map; lia).
    eexists. split; [reflexivity|]. simpl.
    unfold scalar_l. rewrite !map_map.
    split; [reflexivity|]. split; [reflexivity|].
    rewrite !length_zip_with. unfold scalar_r. rewrite !length_map. lia.
Qed.

End adam_loop_facts.

(** ** The first step of the optimizer, in exact arithmetic *)

Section adam_real.

Context {E : Type}.
Local Open Scope R_scope.

Variable grad : list R → nat → list R.
Variable callback : option (list R → nat → list R → E).
Variable o : adam_options R.

Lemma first_step_bounded (s g e : R) :
  0 < e → Rabs (- s * g / (Rabs g + e)) <= Rabs s.
Proof.
  intros He. pose proof (Rabs_pos g) as Hg.
  assert (0 < Rabs g + e) as Hd by lra.
  unfold Rdiv. rewrite !Rabs_mult, Rabs_Ropp.
  rewrite (Rabs_pos_eq (/ (Rabs g + e)))
    by (left; by apply Rinv_0_lt_compat).
  pose proof (Rabs_pos s) as Hs.
  assert (Rabs g * / (Rabs g + e) <= 1) as Hle.
  { apply Rmult_le_reg_r with (Rabs g + e); [done|].
    rewrite Rmult_assoc, Rinv_l by lra. lra. }
  rewrite Rmult_assoc. nra.
Qed.

(** X14. The first update does not depend on the decay rates: from zero
    moments the bias correction gives mhat = g and vhat = g^2 exactly, so
    every coordinate moves by -step_size g / (|g| + eps), that is by no
    more than |step_size|. *)
Theorem adam_first_step (x0 : list R) :
  (∀ x i, length (grad x i) = length x) →
  b1 o ≠ 1 → b2 o ≠ 1 → 0 < eps o →
  ∃ l1,
    adam_iteration grad callback o 0 (adam_initial x0) = Ok l1 ∧
    ∀ j x g, x0 !! j = Some x → grad x0 0 !! j = Some g →
      loc_mhat l1 !! j = Some g ∧
      loc_vhat l1 !! j = Some (g * g) ∧
      loc_dx l1 !! j = Some (- step_size o * g / (Rabs g + eps o)) ∧
      loc_x l1 !! j = Some (x + - step_size o * g / (Rabs g + eps o)) ∧
      Rabs (- step_size o * g / (Rabs g + eps o)) <= Rabs (step_size o).
Proof.
  intros Hg Hb1 Hb2 He.
  destruct (adam_iteration_Ok grad callback o 0 (adam_initial x0)) as (Hit & _).
  { reflexivity. }
  { apply Hg. }
  { simpl. apply length_replicate. }
  { simpl. apply length_replicate. }
  eexists. split; [exact Hit|]. simpl.
  intros j x g Hx Hgj.
  assert (j < length x0)%nat as Hj by (by eapply lookup_lt_Some).
  assert (f_div (f_add (f_mul (f_sub (f_of_nat 1) (b1 o)) g)
                       (f_mul (b1 o) (f_of_nat 0)))
                (f_sub (f_of_nat 1) (f_pow (b1 o) 1)) = g) as Hmhat.
  { simpl. field. lra. }
  assert (f_div (f_add (f_mul (f_sub (f_of_nat 1) (b2 o)) (f_pow g 2))
                       (f_mul (b2 o) (f_of_nat 0)))
                (f_sub (f_of_nat 1) (f_pow (b2 o) 1)) = g * g) as Hvhat.
  { simpl. field. lra. }
  assert (sqrt (g * g) = Rabs g) as Hsqrt by apply sqrt_Rsqr_abs.
  unfold scalar_l, scalar_r, np_zeros1.
  repeat (rewrite ?lookup_zip_with, ?list_lookup_fmap, ?Hgj, ?Hx,
                  ?lookup_replicate_2 by done; simpl).
  change (1 - b1 o * 1) with (f_sub (f_of_nat 1) (f_pow (b1 o) 1)).
  change (1 - b2 o * 1) with (f_sub (f_of_nat 1) (f_pow (b2 o) 1)).
  change (((1 - b1 o) * g + b1 o * 0) / f_sub (f_of_nat 1) (f_pow (b1 o) 1))
    with (f_div (f_add (f_mul (f_sub (f_of_nat 1) (b1 o)) g)
                       (f_mul (b1 o) (f_of_nat 0)))
                (f_sub (f_of_nat 1) (f_pow (b1 o) 1))).
  change (((1 - b2 o) * (g * (g * 1)) + b2 o * 0)
          / f_sub (f_of_nat 1) (f_pow (b2 o) 1))
    with (f_div (f_add (f_mul (f_sub (f_of_nat 1) (b2 o)) (f_pow g 2))
                       (f_mul (b2 o) (f_of_nat 0)))
                (f_sub (f_of_nat 1) (f_pow (b2 o) 1))).
  rewrite Hmhat, Hvhat, Hsqrt.
  repeat split; try reflexivity. by apply first_step_bounded.
Qed.

End adam_real.

(** ** The optimizer at a stationary point, in exact arithmetic *)

Section adam_stationary.

Context {E : Type}.
Local Open Scope R_scope.

Variable grad : list R → nat → list R.
Variable callback : option (list R → nat → list R → E).
Variable o : adam_options R.

Lemma zip_with_plus_zeros (x : list R) :
  zip_with Rplus x (replicate (length x) 0) = x.
Proof. induction x as [|a x IH]; simpl; [done|]. rewrite IH. f_equal. lra. Qed.

Lemma foldl_plus_zeros (n : nat) : foldl Rplus 0 (replicate n 0) = 0.
Proof. induction n as [|n IH]; simpl; [done|]. by rewrite Rplus_0_r. Qed.

(** X15. At a point where the gradient vanishes the optimizer does not
    move: the first update is zero, the convergence test fires at once (for
    a positive tolerance), and the loop returns x unchanged after a single
    iteration.  The conditions on b1, b2, eps and x keep every division of
    the iteration defined. *)
Theorem adam_stationary_point (x : list R) (n : nat) :
  x ≠ [] →
  (∀ i, grad x i = replicate (length x) 0) →
  b1 o ≠ 1 → b2 o ≠ 1 → 0 < eps o → 0 < tol o →
  (1 ≤ n)%nat →
  ∃ lf, adam_loop grad callback o (seq 0 n) (adam_initial x) = Ok lf ∧
        loc_x lf = x ∧ loc_iters lf = 1%nat ∧
        loc_dx lf = replicate (length x) 0.
Proof.
  intros Hne Hg Hb1 Hb2 He Ht Hn.
  destruct n as [|n]; [lia|]. simpl seq. simpl adam_loop.
  destruct (adam_iteration_Ok grad callback o 0 (adam_initial x)) as (Hit & _).
  { reflexivity. }
  { simpl. rewrite Hg. apply length_replicate. }
  { simpl. apply length_replicate. }
  { simpl. apply length_replicate. }
  rewrite Hit. clear Hit. simpl. rewrite Hg.
  unfold scalar_l, scalar_r, np_zeros1.
  rewrite !fmap_replicate, !zip_with_replicate, !fmap_replicate,
          !zip_with_replicate.
  match goal with
  | |- context [zip_with Rplus x (replicate (length x) ?d)] =>
      assert (d = 0) as -> by (simpl; unfold Rdiv; ring)
  end.
  rewrite zip_with_plus_zeros, fmap_replicate, Rabs_R0, length_replicate.
  unfold np_sum. simpl f_add. change (f_of_nat 0) with 0.
  rewrite foldl_plus_zeros.
  match goal with
  | |- context [Rlt_dec ?a (tol o)] =>
      assert (a = 0) as Ha by (unfold Rdiv; ring);
      destruct (Rlt_dec a (tol o)) as [_|Hnt]; [|exfalso; apply Hnt; lra]
  end.
  eexists. split; [reflexivity|]. done.
Qed.

End adam_stationary.

Section adam_examples.

Local Open Scope R_scope.

(** The gradient of [(x - 5)^2]; a module in which [num_iters] is 3. *)
Let grad5 : list R → nat → list R := λ x _, map (λ a : R, 2 * (a - 5)) x.
Let no_callback : option (list R → nat → list R → unit) := None.
Let globals3 : gmap string pyobj := <["num_iters" := PyInt 3]> util_globals.
Let defaults : adam_options R := adam_defaults.

Lemma defaults_in_range :
  b1 defaults ≠ 1 ∧ b2 defaults ≠ 1 ∧ 0 < eps defaults ∧ 0 < tol defaults.
Proof. unfold defaults. simpl. repeat split; lra. Qed.

Lemma adam_returns_within_bound_witness :
  globals3 !! "num_iters" = Some (PyInt 3) ∧
  (∀ x i, length (grad5 x i) = length x) ∧
  ∃ xf l,
    adam_with_convergence_check grad5 no_callback defaults globals3 [0] = Ok (xf, l) ∧
    xf = loc_x l ∧ length xf = length [0] ∧
    (loc_iters l ≤ Z.to_nat 3)%nat ∧
    ((loc_iters l < Z.to_nat 3)%nat → converged defaults l = true) ∧
    ((3 ≤ 0)%Z → xf = [0]).
Proof.
  assert (globals3 !! "num_iters" = Some (PyInt 3)) as Hn by reflexivity.
  assert (∀ x i, length (grad5 x i) = length x) as Hg
    by (intros x i; apply length_map).
  split; [exact Hn|]. split; [exact Hg|].
  exact (adam_returns_within_bound grad5 defaults no_callback globals3 3 [0] Hn Hg).
Defined.

Lemma adam_gradient_shape_witness :
  length (loc_x (adam_initial (E:=unit) [1; 2]))
  = loc_shape (adam_initial (E:=unit) [1; 2]) ∧
  length (loc_m (adam_initial (E:=unit) [1; 2])) = length [1; 2] ∧
  length (loc_v (adam_initial (E:=unit) [1; 2])) = length [1; 2] ∧
  (∀ cb, length ((λ (_ : list R) (_ : nat), [7]) [1; 2] 0%nat) ≠ length [1; 2] →
   adam_iteration (λ _ _, [7]) (Some cb) defaults 0
     (adam_initial (E:=unit) [1; 2])
   = Raise (ValueError "cannot reshape array")) ∧
  (length ((λ (_ : list R) (_ : nat), [7]) [1; 2] 0%nat) ≠ length [1; 2] →
   length ((λ (_ : list R) (_ : nat), [7]) [1; 2] 0%nat) ≠ 1%nat →
   length [1; 2] ≠ 1%nat →
   adam_iteration (λ _ _, [7]) None defaults 0 (adam_initial (E:=unit) [1; 2])
   = Raise (ValueError "operands could not be broadcast together")) ∧
  (∀ g0, (λ (_ : list R) (_ : nat), [7]) [1; 2] 0%nat = [g0] →
   ∃ l', adam_iteration (λ _ _, [7]) None defaults 0
           (adam_initial (E:=unit) [1; 2]) = Ok l' ∧
         loc_m l' = map (λ m, f_add (f_mul (f_sub (f_of_nat 1) (b1 defaults)) g0)
                                    (f_mul (b1 defaults) m))
                        (loc_m (adam_initial (E:=unit) [1; 2])) ∧
         loc_v l' = map (λ v, f_add (f_mul (f_sub (f_of_nat 1) (b2 defaults))
                                           (f_pow g0 2))
                                    (f_mul (b2 defaults) v))
                        (loc_v (adam_initial (E:=unit) [1; 2])) ∧
         length (loc_x l') = length [1; 2]).
Proof.
  assert (length (loc_x (adam_initial (E:=unit) [1; 2]))
          = loc_shape (adam_initial (E:=unit) [1; 2])) as Hs by reflexivity.
  assert (length (loc_m (adam_initial (E:=unit) [1; 2])) = length [1; 2]) as Hm
    by reflexivity.
  assert (length (loc_v (adam_initial (E:=unit) [1; 2])) = length [1; 2]) as Hv
    by reflexivity.
  split; [exact Hs|]. split; [exact Hm|]. split; [exact Hv|].
  exact (adam_gradient_shape (λ _ _, [7]) defaults 0
           (adam_initial [1; 2]) Hs Hm Hv).
Defined.

(** With a callback the gradient of one entry is refused, and the callback
    is not called. *)
Example adam_gradient_shape_callback :
  adam_iteration (λ _ _, [7]) (Some (λ _ i _, i)) defaults 0
    (adam_initial [1; 2])
  = Raise (ValueError "cannot reshape array").
Proof. reflexivity. Qed.

Example adam_gradient_shape_refused :
  adam_iteration (λ _ _, [7; 8; 9]) no_callback defaults 0 (adam_initial [1; 2])
  = Raise (ValueError "operands could not be broadcast together").
Proof. reflexivity. Qed.

Lemma adam_first_step_witness :
  (∀ x i, length (grad5 x i) = length x) ∧
  b1 defaults ≠ 1 ∧ b2 defaults ≠ 1 ∧ 0 < eps defaults ∧
  ∃ l1,
    adam_iteration grad5 no_callback defaults 0 (adam_initial [0]) = Ok l1 ∧
    ∀ j x g, [0] !! j = Some x → grad5 [0] 0 !! j = Some g →
      loc_mhat l1 !! j = Some g ∧
      loc_vhat l1 !! j = Some (g * g) ∧
      loc_dx l1 !! j = Some (- step_size defaults * g / (Rabs g + eps defaults)) ∧
      loc_x l1 !! j
      = Some (x + - step_size defaults * g / (Rabs g + eps defaults)) ∧
      Rabs (- step_size defaults * g / (Rabs g + eps defaults))
      <= Rabs (step_size defaults).
Proof.
  assert (∀ x i, length (grad5 x i) = length x) as Hg
    by (intros x i; apply length_map).
  destruct defaults_in_range as (Hb1 & Hb2 & He & _).
  split; [exact Hg|]. do 3 (split; [done|]).
  exact (adam_first_step grad5 no_callback defaults [0] Hg Hb1 Hb2 He).
Defined.

Lemma adam_stationary_point_witness :
  [5] ≠ [] ∧
  (∀ i : nat, (λ (x : list R) (_ : nat), replicate (length x) 0) [5] i
              = replicate (length [5]) 0) ∧
  b1 defaults ≠ 1 ∧ b2 defaults ≠ 1 ∧ 0 < eps defaults ∧ 0 < tol defaults ∧
  (1 ≤ 3)%nat ∧
  ∃ lf, adam_loop (λ x _, replicate (length x) 0) no_callback defaults
          (seq 0 3) (adam_initial [5]) = Ok lf ∧
        loc_x lf = [5] ∧ loc_iters lf = 1%nat ∧
        loc_dx lf = replicate (length [5]) 0.
Proof.
  assert ([5] ≠ @nil R) as Hne by done.
  assert (∀ i : nat, (λ (x : list R) (_ : nat), replicate (length x) 0) [5] i
                     = replicate (length [5]) 0) as Hg by done.
  destruct defaults_in_range as (Hb1 & Hb2 & He & Ht).
  assert (1 ≤ 3)%nat as Hn by lia.
  do 7 (split; [done|]).
  exact (adam_stationary_point (λ x _, replicate (length x) 0) no_callback
           defaults [5] 3 Hne Hg Hb1 Hb2 He Ht Hn).
Defined.

End adam_examples.

(** ** The scalar transforms, in exact arithmetic *)

Section transform_facts.

Local Open Scope R_scope.

Lemma logistic_eq (x : R) : logistic x = / (1 + exp (- x)).
Proof. unfold logistic. simpl. unfold Rdiv. ring. Qed.

Lemma logistic_bounds (x : R) : 0 < logistic x < 1.
Proof.
  rewrite logistic_eq. pose proof (exp_pos (- x)) as He.
  split.
  - apply Rinv_0_lt_compat. lra.
  - rewrite <- Rinv_1 at 2. apply Rinv_lt_contravar; lra.
Qed.

Lemma odds_logistic (x : R) : logistic x / (1 - logistic x) = exp x.
Proof.
  rewrite logistic_eq. pose proof (exp_pos (- x)) as He.
  rewrite exp_Ropp in *. pose proof (exp_pos x) as Hx.
  field. lra.
Qed.

(** X16. logistic maps the reals into the open interval (0, 1), and logit
    is its inverse there: logit(logistic(x)) = x for every x, and
    logistic(logit(p)) = p for every p strictly between 0 and 1. *)
Theorem logistic_logit_inverse :
  (∀ x : R, 0 < logistic x < 1 ∧ logit (logistic x) = x) ∧
  (∀ p : R, 0 < p < 1 → logistic (logit p) = p).
Proof.
  split.
  - intros x. split; [apply logistic_bounds|].
    pose proof (odds_logistic x) as Hodds.
    unfold logit. simpl in *. rewrite Hodds. apply ln_exp.
  - intros p Hp. rewrite logistic_eq. unfold logit. simpl.
    change (INR 1) with 1.
    assert (0 < p / (1 - p)) as Hodds
      by (apply Rdiv_lt_0_compat; lra).
    rewrite exp_Ropp, exp_ln by exact Hodds.
    field. lra.
Qed.

(** X17. softplus maps the reals into the positive reals, and inv_softplus
    is its inverse there: inv_softplus(softplus(x)) = x for every x, and
    softplus(inv_softplus(y)) = y for every y > 0. *)
Theorem softplus_inverse :
  (∀ x : R, 0 < softplus x ∧ inv_softplus (softplus x) = x) ∧
  (∀ y : R, 0 < y → softplus (inv_softplus y) = y).
Proof.
  split.
  - intros x. pose proof (exp_pos x) as He.
    unfold inv_softplus, softplus. simpl. change (INR 1) with 1.
    split.
    + rewrite <- ln_1. apply ln_increasing; lra.
    + rewrite exp_ln by lra.
      replace (1 + exp x - 1) with (exp x) by ring. apply ln_exp.
  - intros y Hy. unfold inv_softplus, softplus. simpl. change (INR 1) with 1.
    assert (1 < exp y) as He
      by (rewrite <- exp_0; apply exp_increasing; exact Hy).
    rewrite exp_ln by lra.
    replace (1 + (exp y - 1)) with (exp y) by ring. apply ln_exp.
Qed.

(** X18. logistic is strictly increasing and symmetric about (0, 1/2):
    logistic(-x) = 1 - logistic(x); softplus is strictly increasing, lies
    above both 0 and x, and softplus(x) - softplus(-x) = x. *)
Theorem logistic_softplus_shape :
  (∀ x y : R, x < y → logistic x < logistic y) ∧
  (∀ x : R, logistic (- x) = 1 - logistic x) ∧
  (∀ x y : R, x < y → softplus x < softplus y) ∧
  (∀ x : R, x < softplus x ∧ softplus x - softplus (- x) = x).
Proof.
  repeat split.
  - intros x y Hxy. rewrite !logistic_eq.
    pose proof (exp_pos (- x)). pose proof (exp_pos (- y)).
    assert (exp (- y) < exp (- x)) by (apply exp_increasing; lra).
    apply Rinv_lt_contravar; [nra|lra].
  - intros x. rewrite !logistic_eq, Ropp_involutive, exp_Ropp.
    pose proof (exp_pos x). field. lra.
  - intros x y Hxy. unfold softplus. simpl. change (INR 1) with 1.
    pose proof (exp_pos x). pose proof (exp_increasing x y Hxy).
    apply ln_increasing; lra.
  - unfold softplus. simpl. change (INR 1) with 1.
    pose proof (exp_pos x). rewrite <- (ln_exp x) at 1.
    apply ln_increasing; lra.
  - unfold softplus. simpl. change (INR 1) with 1.
    pose proof (exp_pos x) as He. pose proof (exp_pos (- x)) as He'.
    replace (1 + exp x) with (exp x * (1 + exp (- x)))
      by (rewrite exp_Ropp; field; lra).
    rewrite ln_mult, ln_exp by lra. ring.
Qed.

End transform_facts.

(** ** The argument decorators *)

Section decorator_facts.

Context {F : Type} `{Num F}.
Context {Self T K B : Type}.
Variable M : Self → Z.

Lemma np_zeros_TM_Ok (T0 : nat) (M0 : Z) :
  0 ≤ M0 →
  np_zeros_TM T0 M0
  = Ok (NdArray T0 [Z.to_nat M0] (replicate (T0 * Z.to_nat M0) (f_of_nat 0))).
Proof.
  intros HM. unfold np_zeros_TM.
  destruct (Z.ltb_spec M0 0) as [?|_]; [lia|reflexivity].
Qed.

Lemma np_zeros_TM_negative (T0 : nat) (M0 : Z) :
  M0 < 0 →
  np_zeros_TM (F:=F) T0 M0
  = Raise (ValueError "negative dimensions are not allowed").
Proof.
  intros HM. unfold np_zeros_TM.
  destruct (Z.ltb_spec M0 0) as [_|?]; [reflexivity|lia].
Qed.

Lemma mapM_zeros_Ok (M0 : Z) (datas : list (ndarray F)) :
  0 ≤ M0 →
  mapM (λ data, np_zeros_TM (shape0 data) M0) datas
  = Ok (map (λ data, NdArray (shape0 data) [Z.to_nat M0]
                       (replicate (shape0 data * Z.to_nat M0) (f_of_nat 0)))
            datas).
Proof.
  intros HM. induction datas as [|d datas IH]; [reflexivity|].
  simpl. rewrite np_zeros_TM_Ok by done. simpl. rewrite IH. reflexivity.
Qed.

Lemma mapM_zeros_negative (M0 : Z) (datas : list (ndarray F)) :
  M0 < 0 → datas ≠ [] →
  mapM (λ data, np_zeros_TM (shape0 data) M0) datas
  = Raise (ValueError "negative dimensions are not allowed").
Proof.
  intros HM Hne. destruct datas as [|d datas]; [done|].
  simpl. rewrite np_zeros_TM_negative by done. reflexivity.
Qed.

(** Whether the wrapper builds the default inputs and fails in doing so. *)
Lemma list_inputs_cases (self : Self) (datas : datas_arg F)
    (inputs : arg (ndarray F)) :
  (inputs = ArgNone ∧ M self < 0 ∧ datas_list datas ≠ []) ∨
  (inputs ≠ ArgNone ∨ 0 ≤ M self ∨ datas_list datas = []).
Proof.
  destruct inputs; [|right; left; done..].
  destruct (Z.lt_ge_cases (M self) 0); [|right; right; left; lia].
  destruct (datas_list datas) eqn:E; [right; right; right; done|].
  left. done.
Qed.

(** X19. ensure_args_are_lists raises ValueError, without calling the
    method, exactly when the inputs are left out, self.M is negative and
    there is at least one sequence (the default inputs are np.zeros((T, M)));
    in every other case it calls the method once, with datas as a list and
    with lists for inputs, masks and tags: an argument that was a list is
    passed on as it is, any other object is wrapped into a one-element
    list. *)
Theorem ensure_args_are_lists_calls (self : Self) (datas : datas_arg F)
    (inputs : arg (ndarray F)) (masks : arg (ndarray bool)) (tags : arg T) :
  (inputs = ArgNone ∧ M self < 0 ∧ datas_list datas ≠ [] →
   ∀ f (kwargs : K),
     ensure_args_are_lists (B:=B) M f self datas inputs masks tags kwargs
     = Raise (ValueError "negative dimensions are not allowed")) ∧
  (inputs ≠ ArgNone ∨ 0 ≤ M self ∨ datas_list datas = [] →
   ∃ ins ms ts,
     (∀ f (kwargs : K),
        ensure_args_are_lists (B:=B) M f self datas inputs masks tags kwargs
        = f self (datas_list datas) (ArgList ins) (ArgList ms) (ArgList ts)
            kwargs) ∧
     (∀ l, inputs = ArgList l → ins = l) ∧
     (∀ a, inputs = ArgOne a → ins = [ArgOne a]) ∧
     (∀ l, masks = ArgList l → ms = l) ∧
     (∀ a, masks = ArgOne a → ms = [ArgOne a]) ∧
     (∀ l, tags = ArgList l → ts = l) ∧
     (∀ a, tags = ArgOne a → ts = [ArgOne a])).
Proof.
  split.
  - intros (-> & HM & Hne) f kwargs. unfold ensure_args_are_lists.
    change (match datas with DataList l => l | DataOne d => [d] end)
      with (datas_list datas).
    rewrite mapM_zeros_negative by done. reflexivity.
  - intros Hcall.
    assert (∃ ins,
      match inputs with
      | ArgNone =>
          l ← mapM (λ data, np_zeros_TM (shape0 data) (M self))
                   (datas_list datas);
          Ok (ArgList (map ArgOne l))
      | ArgList _ => Ok inputs
      | ArgOne _ => Ok (ArgList [inputs])
      end = Ok (ArgList ins) ∧
      (∀ l, inputs = ArgList l → ins = l) ∧
      (∀ a, inputs = ArgOne a → ins = [ArgOne a])) as (ins & Hins & Hi1 & Hi2).
    { destruct inputs as [|l|a].
      - destruct Hcall as [?|[HM|Hnil]]; [done| |].
        + rewrite mapM_zeros_Ok by done. eexists. repeat split; done.
        + rewrite Hnil. eexists. repeat split; done.
      - exists l. repeat split; [|done]. by intros ? [= ->].
      - exists [ArgOne a]. repeat split; [done|]. by intros ? [= ->]. }
    exists ins.
    exists (match masks with
            | ArgNone => map (λ data, ArgOne (np_ones_like_bool data))
                             (datas_list datas)
            | ArgList l => l
            | ArgOne _ => [masks]
            end).
    exists (match tags with
            | ArgNone => replicate (length (datas_list datas)) ArgNone
            | ArgList l => l
            | ArgOne _ => [tags]
            end).
    split; [|split; [done|]; split; [done|]].
    + intros f kwargs. unfold ensure_args_are_lists.
      change (match datas with DataList l => l | DataOne d => [d] end)
        with (datas_list datas).
      rewrite Hins. simpl. by destruct masks, tags.
    + repeat split; intros ? ->; reflexivity.
Qed.

(** X20. With a non-negative self.M, and every optional argument either
    left out, a list with one entry per sequence, or (for a single
    sequence) a single object, the method is called with four lists of the
    same length.  Inputs that were left out are all-zero arrays of shape
    (T, self.M), T the length of the matching sequence; masks that were
    left out are all-true arrays of the shape of the matching sequence;
    tags that were left out are None. *)
Theorem ensure_args_are_lists_aligned (self : Self) (datas : datas_arg F)
    (inputs : arg (ndarray F)) (masks : arg (ndarray bool)) (tags : arg T) :
  0 ≤ M self →
  fits datas inputs → fits datas masks → fits datas tags →
  ∃ ins ms ts,
    (∀ f (kwargs : K),
       ensure_args_are_lists (B:=B) M f self datas inputs masks tags kwargs
       = f self (datas_list datas) (ArgList ins) (ArgList ms) (ArgList ts)
           kwargs) ∧
    length ins = length (datas_list datas) ∧
    length ms = length (datas_list datas) ∧
    length ts = length (datas_list datas) ∧
    (inputs = ArgNone → ∀ i d, datas_list datas !! i = Some d →
       ins !! i = Some (ArgOne (NdArray (shape0 d) [Z.to_nat (M self)]
                          (replicate (shape0 d * Z.to_nat (M self))
                                     (f_of_nat 0))))) ∧
    (masks = ArgNone → ∀ i d, datas_list datas !! i = Some d →
       ms !! i = Some (ArgOne (NdArray (shape0 d) (shape_rest d)
                         (replicate (size_of (shape0 d :: shape_rest d))
                                    true)))) ∧
    (tags = ArgNone → ∀ i d, datas_list datas !! i = Some d →
       ts !! i = Some ArgNone).
Proof.
  intros HM Hi Hm Ht.
  exists (match inputs with
          | ArgNone =>
              map (λ d, ArgOne (NdArray (shape0 d) [Z.to_nat (M self)]
                          (replicate (shape0 d * Z.to_nat (M self))
                                     (f_of_nat 0))))
                  (datas_list datas)
          | ArgList l => l
          | ArgOne _ => [inputs]
          end).
  exists (match masks with
          | ArgNone => map (λ data, ArgOne (np_ones_like_bool data))
                           (datas_list datas)
          | ArgList l => l
          | ArgOne _ => [masks]
          end).
  exists (match tags with
          | ArgNone => replicate (length (datas_list datas)) ArgNone
          | ArgList l => l
          | ArgOne _ => [tags]
          end).
  split; [|split; [|split; [|split; [|split; [|split]]]]].
  - intros f kwargs. unfold ensure_args_are_lists.
    change (match datas with DataList l => l | DataOne d => [d] end)
      with (datas_list datas).
    destruct inputs as [|li|ai].
    + rewrite mapM_zeros_Ok by done. simpl. rewrite map_map.
      by destruct masks, tags.
    + simpl. by destruct masks, tags.
    + simpl. by destruct masks, tags.
  - destruct inputs; simpl in Hi; [by rewrite length_map|done|].
    destruct Hi as [d ->]. reflexivity.
  - destruct masks; simpl in Hm; [by rewrite length_map|done|].
    destruct Hm as [d ->]. reflexivity.
  - destruct tags; simpl in Ht; [by rewrite length_replicate|done|].
    destruct Ht as [d ->]. reflexivity.
  - intros -> i d Hd. rewrite list_lookup_fmap, Hd. reflexivity.
  - intros -> i d Hd. rewrite list_lookup_fmap, Hd. reflexivity.
  - intros -> i d Hd. apply lookup_replicate_2.
    by apply lookup_lt_Some in Hd.
Qed.

(** X21. Normalising twice is normalising once: a method decorated twice
    with ensure_args_are_lists behaves as the method decorated once, on
    every call. *)
Theorem ensure_args_are_lists_idempotent
    (f : Self → list (ndarray F) → arg (ndarray F) → arg (ndarray bool) →
         arg T → K → result B)
    (self : Self) (datas : datas_arg F) (inputs : arg (ndarray F))
    (masks : arg (ndarray bool)) (tags : arg T) (kwargs : K) :
  ensure_args_are_lists M
    (λ self ds, ensure_args_are_lists M f self (DataList ds))
    self datas inputs masks tags kwargs
  = ensure_args_are_lists M f self datas inputs masks tags kwargs.
Proof.
  unfold ensure_args_are_lists.
  destruct inputs as [|li|ai].
  - destruct (mapM _ _) as [l|e]; [|reflexivity].
    simpl. by destruct masks, tags.
  - simpl. by destruct masks, tags.
  - simpl. by destruct masks, tags.
Qed.

(** X22. ensure_elbo_args_are_lists treats datas, inputs, masks and tags
    exactly as ensure_args_are_lists does, and hands variational_params
    through untouched. *)
Theorem ensure_elbo_args_are_lists_as_lists {V : Type}
    (f : Self → V → list (ndarray F) → arg (ndarray F) → arg (ndarray bool) →
         arg T → K → result B)
    (self : Self) (variational_params : V) (datas : datas_arg F)
    (inputs : arg (ndarray F)) (masks : arg (ndarray bool)) (tags : arg T)
    (kwargs : K) :
  ensure_elbo_args_are_lists M f self variational_params datas inputs masks
    tags kwargs
  = ensure_args_are_lists M (λ self, f self variational_params) self datas
      inputs masks tags kwargs.
Proof. reflexivity. Qed.

(** X23. The two families of wrappers fill in the same defaults: called on
    a single sequence with optional arguments that are not lists,
    ensure_args_are_lists hands the method the one-element lists of
    exactly the data, input, mask and tag that ensure_args_not_none hands
    its method, and fails when it fails. *)
Theorem ensure_args_are_lists_single
    (f : Self → list (ndarray F) → arg (ndarray F) → arg (ndarray bool) →
         arg T → K → result B)
    (self : Self) (d : ndarray F) (input : option (ndarray F))
    (mask : option (ndarray bool)) (tag : option T) (kwargs : K) :
  ensure_args_are_lists M f self (DataOne d) (of_option input)
    (of_option mask) (of_option tag) kwargs
  = ensure_args_not_none M
      (λ self data input mask tag,
         f self [data] (ArgList [input]) (ArgList [mask]) (ArgList [tag]))
      self (Some d) (of_option input) (of_option mask) (of_option tag) kwargs.
Proof.
  unfold ensure_args_are_lists, ensure_args_not_none.
  destruct input as [i|]; simpl.
  - by destruct mask, tag.
  - destruct (np_zeros_TM (shape0 d) (M self)) as [z|e]; [|reflexivity].
    simpl. by destruct mask, tag.
Qed.

(** X24. ensure_args_not_none refuses data that is None with an
    AssertionError, whatever the other arguments are; otherwise it raises
    ValueError exactly when the input is left out and self.M is negative,
    and in every other case calls the method once: with an input and a mask
    that were given unchanged, with the all-zero (T, self.M) input and the
    all-true mask of the shape of data where they were left out, and with
    the tag as it was given, None included. *)
Theorem ensure_args_not_none_behaviour (self : Self)
    (input : arg (ndarray F)) (mask : arg (ndarray bool)) (tag : arg T) :
  (∀ f (kwargs : K),
     ensure_args_not_none (B:=B) M f self None input mask tag kwargs
     = Raise (AssertionError EmptyString)) ∧
  (∀ d, input = ArgNone → M self < 0 → ∀ f (kwargs : K),
     ensure_args_not_none (B:=B) M f self (Some d) input mask tag kwargs
     = Raise (ValueError "negative dimensions are not allowed")) ∧
  (∀ d, input ≠ ArgNone ∨ 0 ≤ M self →
     ∃ input' mask',
       (∀ f (kwargs : K),
          ensure_args_not_none (B:=B) M f self (Some d) input mask tag kwargs
          = f self d input' mask' tag kwargs) ∧
       (input ≠ ArgNone → input' = input) ∧
       (input = ArgNone →
        input' = ArgOne (NdArray (shape0 d) [Z.to_nat (M self)]
                           (replicate (shape0 d * Z.to_nat (M self))
                                      (f_of_nat 0)))) ∧
       (mask ≠ ArgNone → mask' = mask) ∧
       (mask = ArgNone →
        mask' = ArgOne (NdArray (shape0 d) (shape_rest d)
                          (replicate (size_of (shape0 d :: shape_rest d))
                                     true)))).
Proof.
  split; [done|]. split.
  - intros d -> HM f kwargs. unfold ensure_args_not_none.
    rewrite np_zeros_TM_negative by done. reflexivity.
  - intros d Hcall.
    exists (match input with
            | ArgNone => ArgOne (NdArray (shape0 d) [Z.to_nat (M self)]
                                   (replicate (shape0 d * Z.to_nat (M self))
                                              (f_of_nat 0)))
            | _ => input
            end).
    exists (match mask with
            | ArgNone => ArgOne (np_ones_like_bool d)
            | _ => mask
            end).
    split; [|split; [|split; [|split]]].
    + intros f kwargs. unfold ensure_args_not_none.
      destruct input; [|reflexivity..].
      destruct Hcall as [?|HM]; [done|].
      rewrite np_zeros_TM_Ok by done. reflexivity.
    + by destruct input.
    + by intros ->.
    + by destruct mask.
    + by intros ->.
Qed.

(** X25. ensure_slds_args_not_none checks variational_mean first: when it
    is None the call ends in an AssertionError whatever data is; when it is
    given, the wrapper treats data, input, mask and tag exactly as
    ensure_args_not_none does and hands variational_mean through
    untouched. *)
Theorem ensure_slds_args_not_none_as_not_none {V : Type}
    (f : Self → V → ndarray F → arg (ndarray F) → arg (ndarray bool) →
         arg T → K → result B)
    (self : Self) (data : option (ndarray F)) (input : arg (ndarray F))
    (mask : arg (ndarray bool)) (tag : arg T) (kwargs : K) :
  ensure_slds_args_not_none M f self None data input mask tag kwargs
  = Raise (AssertionError EmptyString) ∧
  ∀ variational_mean,
    ensure_slds_args_not_none M f self (Some variational_mean) data input
      mask tag kwargs
    = ensure_args_not_none M (λ self, f self variational_mean) self data
        input mask tag kwargs.
Proof. split; [reflexivity|]. intros v. by destruct data. Qed.

End decorator_facts.

Section decorator_examples.

Local Open Scope R_scope.

(** A model with two input dimensions, and two sequences of three and one
    time steps of two-dimensional observations. *)
Let model_M : Z → Z := λ self, self.
Let seq3 : ndarray R := NdArray 3 [2%nat] [1; 2; 3; 4; 5; 6].
Let seq1 : ndarray R := NdArray 1 [2%nat] [7; 8].

Lemma ensure_args_are_lists_aligned_witness :
  (0 ≤ model_M 2)%Z ∧
  fits (DataList [seq3; seq1]) (ArgNone (A:=ndarray R)) ∧
  fits (DataList [seq3; seq1]) (ArgNone (A:=ndarray bool)) ∧
  fits (DataList [seq3; seq1])
       (ArgList [ArgOne "a"%string; ArgNone]) ∧
  ∃ ins ms ts,
    (∀ f (kwargs : unit),
       ensure_args_are_lists (B:=unit) model_M f 2%Z (DataList [seq3; seq1])
         ArgNone ArgNone (ArgList [ArgOne "a"%string; ArgNone]) kwargs
       = f 2%Z (datas_list (DataList [seq3; seq1])) (ArgList ins)
           (ArgList ms) (ArgList ts) kwargs) ∧
    length ins = length (datas_list (DataList [seq3; seq1])) ∧
    length ms = length (datas_list (DataList [seq3; seq1])) ∧
    length ts = length (datas_list (DataList [seq3; seq1])) ∧
    (ArgNone = ArgNone (A:=ndarray R) →
     ∀ i d, datas_list (DataList [seq3; seq1]) !! i = Some d →
       ins !! i = Some (ArgOne (NdArray (shape0 d) [Z.to_nat (model_M 2)]
                          (replicate (shape0 d * Z.to_nat (model_M 2))
                                     (f_of_nat 0))))) ∧
    (ArgNone = ArgNone (A:=ndarray bool) →
     ∀ i d, datas_list (DataList [seq3; seq1]) !! i = Some d →
       ms !! i = Some (ArgOne (NdArray (shape0 d) (shape_rest d)
                         (replicate (size_of (shape0 d :: shape_rest d))
                                    true)))) ∧
    (ArgList [ArgOne "a"%string; ArgNone] = ArgNone →
     ∀ i d, datas_list (DataList [seq3; seq1]) !! i = Some d →
       ts !! i = Some ArgNone).
Proof.
  assert (0 ≤ model_M 2)%Z as HM by (unfold model_M; lia).
  assert (fits (DataList [seq3; seq1]) (ArgNone (A:=ndarray R))) as Hi
    by exact I.
  assert (fits (DataList [seq3; seq1]) (ArgNone (A:=ndarray bool))) as Hm
    by exact I.
  assert (fits (DataList [seq3; seq1])
               (ArgList [ArgOne "a"%string; ArgNone])) as Ht
    by reflexivity.
  do 4 (split; [done|]).
  exact (ensure_args_are_lists_aligned (K:=unit) (B:=unit) model_M 2%Z
           (DataList [seq3; seq1]) ArgNone ArgNone
           (ArgList [ArgOne "a"%string; ArgNone]) HM Hi Hm Ht).
Defined.

(** The wrapper does not compare lengths: one mask for two sequences is
    wrapped into a one-element list and passed on. *)
Example ensure_args_are_lists_unchecked_lengths (m : ndarray bool) :
  ensure_args_are_lists model_M (λ _ ds _ ms _ (_ : unit), Ok (length ds, ms))
    2%Z (DataList [seq3; seq1]) ArgNone (ArgOne m) (ArgNone (A:=unit)) tt
  = Ok (2%nat, ArgList [ArgOne m]).
Proof. reflexivity. Qed.

End decorator_examples.

(** ** random_rotation: shapes and the planar case *)

Section rotation_shape.

Context {F : Type} `{Num F}.

Variable rng : Type.
Variable np_random_rand : rng → F * rng.
Variable np_random_randn : nat → nat → rng → fmatrix (F:=F) * rng.
Variable np_linalg_qr : fmatrix (F:=F) → fmatrix (F:=F) * fmatrix (F:=F).

Lemma mtranspose_square (n : nat) (A : fmatrix (F:=F)) :
  (1 ≤ n)%nat → square n A → square n (mtranspose A).
Proof.
  intros Hn [Hl Hr]. unfold mtranspose.
  destruct A as [|r A]; [simpl in Hl; lia|].
  simpl head. simpl default.
  assert (length r = n) as Hrn by (by inversion Hr).
  split.
  - by rewrite length_map, length_seq.
  - apply Forall_forall. intros row Hrow.
    apply list_elem_of_fmap in Hrow as (j & -> & _).
    by rewrite length_map.
Qed.

Lemma np_dot_square (n : nat) (A B : fmatrix (F:=F)) :
  (1 ≤ n)%nat → square n A → square n B → square n (np_dot A B).
Proof.
  intros Hn [HAl HAr] HB. unfold np_dot. split.
  - by rewrite length_map.
  - apply Forall_forall. intros row Hrow.
    apply list_elem_of_fmap in Hrow as (r & -> & _).
    rewrite length_map. by apply (mtranspose_square n B Hn).
Qed.

Lemma assign_top_left_zeros (n : nat) (rot : fmatrix (F:=F)) :
  (2 ≤ n)%nat → square 2 rot →
  ∃ out, assign_top_left (np_zeros2 n n) rot = Ok out ∧ square n out.
Proof.
  intros Hn [Hl Hr].
  destruct rot as [|r0 [|r1 [|? ?]]]; simpl in Hl; try discriminate.
  inversion Hr as [|? ? H0 Hr']; subst. inversion Hr' as [|? ? H1 _]; subst.
  destruct r0 as [|a [|b [|? ?]]]; simpl in H0; try discriminate.
  destruct r1 as [|c [|d [|? ?]]]; simpl in H1; try discriminate.
  destruct n as [|[|n]]; [lia..|].
  unfold np_zeros2. simpl. eexists. split; [reflexivity|].
  split.
  - simpl. by rewrite length_replicate.
  - repeat apply Forall_cons_2; simpl; rewrite ?length_replicate; try done.
    apply Forall_replicate. simpl. by rewrite length_replicate.
Qed.

(** X26. random_rotation(0) raises ValueError (the 2 x 2 rotation does not
    fit into the empty array), and for every n >= 1 the function returns an
    n x n array, whether the angle is given or sampled. *)
Theorem random_rotation_shape (theta : option F) (s : rng) :
  random_rotation rng np_random_rand np_random_randn np_linalg_qr 0 theta s
  = Raise (ValueError "could not broadcast input array") ∧
  ∀ n, (1 ≤ n)%nat →
       randn_contract rng np_random_randn →
       qr_contract np_linalg_qr n →
       ∃ A s',
         random_rotation rng np_random_rand np_random_randn np_linalg_qr
           n theta s = Ok (A, s') ∧
         square n A.
Proof.
  split.
  - unfold random_rotation.
    destruct theta as [t|]; [reflexivity|].
    by destruct (np_random_rand s).
  - intros n Hn Hrandn Hqr. unfold random_rotation.
    destruct (match theta with
              | Some t => (t, s)
              | None => let '(u, s0) := np_random_rand s in
                        (f_mul (f_mul (f_dec 5 (-1)) f_pi) u, s0)
              end) as [t s1].
    destruct (decide (n = 1%nat)) as [->|Hn1].
    + destruct (np_random_rand s1) as [u s2]. eexists _, _.
      split; [reflexivity|]. split; [reflexivity|repeat constructor].
    + destruct (assign_top_left_zeros n (rotation2 t)) as (out & -> & Hout);
        [lia|split; [reflexivity|repeat constructor]|].
      simpl.
      destruct (np_random_randn n n s1) as [a s2] eqn:Ea.
      pose proof (Hrandn n s1) as Hsq. rewrite Ea in Hsq. simpl in Hsq.
      destruct (Hqr a Hsq) as [Hq _].
      eexists _, _. split; [reflexivity|].
      apply np_dot_square; [done| |by apply mtranspose_square].
      by apply np_dot_square.
Qed.

End rotation_shape.

Section rotation_planar.

Local Open Scope R_scope.

Lemma conjugate_rotation_det_trace (a b c d t : R) :
  np_dot (mtranspose [[a; b]; [c; d]]) [[a; b]; [c; d]] = np_eye 2 →
  det2 (np_dot (np_dot [[a; b]; [c; d]] (rotation2 t))
               (mtranspose [[a; b]; [c; d]])) = 1 ∧
  trace (np_dot (np_dot [[a; b]; [c; d]] (rotation2 t))
                (mtranspose [[a; b]; [c; d]])) = 2 * cos t.
Proof.
  intros Hq. unfold np_dot, mtranspose, np_eye, np_sum in Hq. simpl in Hq.
  injection Hq as H1 H2 H3 H4.
  unfold det2, trace, entry, np_dot, mtranspose, np_sum, rotation2. simpl.
  pose proof (sin2_cos2 t) as Ht. unfold Rsqr in Ht.
  generalize dependent (cos t). generalize dependent (sin t). intros S C Ht.
  split; nsatz.
Qed.

Variable rng : Type.
Variable np_random_rand : rng → R * rng.
Variable np_random_randn : nat → nat → rng → fmatrix (F:=R) * rng.
Variable np_linalg_qr : fmatrix (F:=R) → fmatrix (F:=R) * fmatrix (F:=R).

(** X27. In exact arithmetic random_rotation(2, theta) is a proper rotation
    by the angle it was given: its determinant is 1 and its trace is
    2 cos(theta).  When the angle is left out it is sampled as 0.5 pi u
    with u in [0, 1), so the rotation is by an angle in [0, pi/2). *)
Theorem random_rotation_planar (theta : option R) (s : rng) :
  rand_contract np_random_rand →
  randn_contract rng np_random_randn →
  qr_contract np_linalg_qr 2 →
  ∃ A t s',
    random_rotation rng np_random_rand np_random_randn np_linalg_qr 2 theta s
    = Ok (A, s') ∧
    det2 A = 1 ∧ trace A = 2 * cos t ∧
    (∀ t', theta = Some t' → t = t') ∧
    (theta = None → 0 <= t < PI / 2).
Proof.
  intros Hrand Hrandn Hqr. unfold random_rotation.
  set (ts := match theta with
             | Some t => (t, s)
             | None => let '(u, s0) := np_random_rand s in
                       (f_mul (f_mul (f_dec 5 (-1)) f_pi) u, s0)
             end).
  assert ((∀ t', theta = Some t' → ts.1 = t') ∧
          (theta = None → 0 <= ts.1 < PI / 2)) as [Hts Hrange].
  { subst ts. destruct theta as [t|]; simpl.
    - split; [by intros ? [= ->]|done].
    - split; [done|]. intros _. pose proof (Hrand s) as Hu.
      destruct (np_random_rand s) as [u s0]. simpl in *.
      pose proof PI_RGT_0. nra. }
  destruct ts as [t s1]. simpl in Hts, Hrange. simpl.
  destruct (np_random_randn 2%nat 2%nat s1) as [a s2] eqn:Ea.
  pose proof (Hrandn 2%nat s1) as Hsq. rewrite Ea in Hsq. simpl in Hsq.
  destruct (Hqr a Hsq) as [Hq1 Hq2].
  destruct (square_2_inv _ Hq1) as (qa & qb & qc & qd & Eq).
  rewrite Eq in Hq2 |- *.
  destruct (conjugate_rotation_det_trace qa qb qc qd t Hq2) as [Hdet Htr].
  eexists _, t, s2. split; [reflexivity|]. done.
Qed.

End rotation_planar.

Lemma random_rotation_planar_witness :
  rand_contract sample_half ∧
  randn_contract unit sample_zeros ∧
  qr_contract (qr_identity 2) 2 ∧
  ∃ A t s',
    random_rotation unit sample_half sample_zeros (qr_identity 2) 2 None tt
    = Ok (A, s') ∧
    det2 A = 1%R ∧ trace A = (2 * cos t)%R ∧
    (∀ t', None = Some t' → t = t') ∧
    (None = None (A:=R) → (0 <= t < PI / 2)%R).
Proof.
  split; [exact sample_half_contract|].
  split; [exact sample_zeros_contract|].
  split; [exact qr_identity_contract_2|].
  exact (random_rotation_planar unit sample_half sample_zeros (qr_identity 2)
           None tt
           sample_half_contract sample_zeros_contract qr_identity_contract_2).
Defined.

(** ** random_rotation in three and more dimensions *)

Section rotation_padded.

Local Open Scope R_scope.

Lemma rsum_ext (n : nat) (f g : nat → R) :
  (∀ k, (k < n)%nat → f k = g k) → rsum n f = rsum n g.
Proof.
  induction n as [|n IH]; intros Hfg; [reflexivity|].
  simpl. rewrite IH, Hfg by (intros; try apply Hfg; lia). reflexivity.
Qed.

Lemma rsum_zero (n : nat) : rsum n (λ _, 0) = 0.
Proof. induction n as [|n IH]; simpl; [reflexivity|rewrite IH; ring]. Qed.

Lemma rsum_all_zero (n : nat) (f : nat → R) :
  (∀ k, (k < n)%nat → f k = 0) → rsum n f = 0.
Proof. intros Hf. rewrite (rsum_ext n f (λ _, 0)) by done. apply rsum_zero. Qed.

Lemma rsum_plus (n : nat) (f g : nat → R) :
  rsum n (λ k, f k + g k) = rsum n f + rsum n g.
Proof. induction n as [|n IH]; simpl; [ring|rewrite IH; ring]. Qed.

Lemma rsum_scal (n : nat) (c : R) (f : nat → R) :
  rsum n (λ k, c * f k) = c * rsum n f.
Proof. induction n as [|n IH]; simpl; [ring|rewrite IH; ring]. Qed.

(** Exchanging the two sums of a vector-matrix-vector product. *)
Lemma rsum_exchange (n m : nat) (u : nat → R) (a : nat → nat → R) (b : nat → R) :
  rsum n (λ i, u i * rsum m (λ k, a i k * b k))
  = rsum m (λ k, rsum n (λ i, u i * a i k) * b k).
Proof.
  induction n as [|n IH]; simpl.
  - symmetry. apply rsum_all_zero. intros; ring.
  - rewrite IH, <- rsum_scal, <- rsum_plus. apply rsum_ext. intros; ring.
Qed.

Lemma np_sum_zip_with (n : nat) (row col : list R) :
  length row = n → length col = n →
  np_sum (zip_with f_mul row col)
  = rsum n (λ k, default 0 (row !! k) * default 0 (col !! k)).
Proof.
  revert n col. induction row as [|x row IH] using rev_ind; intros n col Hr Hc.
  - simpl in Hr. subst n. reflexivity.
  - rewrite length_app in Hr. simpl in Hr.
    destruct col as [|y col _] using rev_ind; [simpl in Hc; lia|].
    rewrite length_app in Hc. simpl in Hc.
    assert (length row = length col) as Hlen by lia.
    destruct n as [|n]; [lia|].
    rewrite zip_with_app by done. unfold np_sum in *.
    rewrite foldl_app. simpl foldl.
    replace (foldl Rplus 0 (zip_with Rmult row col))
      with (rsum n (λ k, default 0 (row !! k) * default 0 (col !! k)))
      by (symmetry; apply IH; lia).
    simpl rsum.
    rewrite !list_lookup_middle by lia. simpl.
    f_equal. apply rsum_ext. intros k Hk.
    rewrite !lookup_app_l by lia. reflexivity.
Qed.

Lemma lookup_map {X Y : Type} (f : X → Y) (l : list X) (i : nat) :
  map f l !! i = f <$> l !! i.
Proof. revert i. induction l as [|x l IH]; intros [|i]; simpl; auto. Qed.

Lemma square_lookup (n : nat) (A : list (list R)) (i : nat) :
  square n A → (i < n)%nat → ∃ row, A !! i = Some row ∧ length row = n.
Proof.
  intros [Hl Hr] Hi.
  destruct (lookup_lt_is_Some_2 A i) as [row Hrow]; [lia|].
  exists row. split; [done|].
  by apply (Forall_lookup_1 _ _ _ _ Hr Hrow).
Qed.

Lemma mtranspose_lookup (n : nat) (A : fmatrix (F:=R)) (j : nat) :
  square n A → (j < n)%nat →
  mtranspose A !! j = Some (map (λ row, default 0 (row !! j)) A).
Proof.
  intros HA Hj. destruct (square_lookup n A 0 HA) as (r0 & Hr0 & Hlen); [lia|].
  unfold mtranspose. destruct A as [|r A]; [done|].
  injection Hr0 as ->. simpl head. simpl default. unfold fmatrix.
  rewrite lookup_map, lookup_seq_lt by lia. reflexivity.
Qed.

Lemma entry_mtranspose (n : nat) (A : fmatrix (F:=R)) (i j : nat) :
  square n A → (i < n)%nat → (j < n)%nat →
  entry (mtranspose A) i j = entry A j i.
Proof.
  intros HA Hi Hj. unfold entry.
  rewrite (mtranspose_lookup n) by done. unfold fmatrix in *. simpl.
  rewrite lookup_map.
  destruct (square_lookup n A j HA Hj) as (row & -> & _). reflexivity.
Qed.

Lemma entry_np_dot (n : nat) (A B : fmatrix (F:=R)) (i j : nat) :
  square n A → square n B → (i < n)%nat → (j < n)%nat →
  entry (np_dot A B) i j = rsum n (λ k, entry A i k * entry B k j).
Proof.
  intros HA HB Hi Hj. unfold entry at 1, np_dot. unfold fmatrix in *.
  rewrite lookup_map.
  destruct (square_lookup n A i HA Hi) as (row & Hrow & Hlen).
  rewrite Hrow. simpl.
  rewrite lookup_map, (mtranspose_lookup n) by done. simpl.
  rewrite (np_sum_zip_with n);
    [|done|rewrite length_map; apply HB].
  apply rsum_ext. intros k Hk. unfold entry, fmatrix. rewrite Hrow. simpl.
  rewrite lookup_map.
  destruct (square_lookup n B k HB Hk) as (rk & -> & _). reflexivity.
Qed.

Lemma entry_np_eye (n i j : nat) :
  (i < n)%nat → (j < n)%nat →
  entry (np_eye (F:=R) n) i j = if decide (i = j) then 1 else 0.
Proof.
  intros Hi Hj. unfold entry, np_eye, fmatrix.
  rewrite lookup_map, lookup_seq_lt by done. simpl.
  rewrite lookup_map, lookup_seq_lt by done. simpl.
  by destruct (decide (i = j)).
Qed.

(** The matrix q out q^T, for a q with orthonormal columns and an out whose
    third row is zero, is no orthogonal matrix: the third column of q is a
    unit vector that its transpose sends to zero. *)
Lemma padded_conjugate_not_orthogonal (n : nat) (q out : fmatrix (F:=R)) :
  (3 ≤ n)%nat → square n q → square n out →
  (∀ l, entry out 2 l = 0) →
  np_dot (mtranspose q) q = np_eye n →
  ¬ orthogonal n (np_dot (np_dot q out) (mtranspose q)).
Proof.
  intros Hn Hq Hout Hrow Hqq [Hsq Horth].
  assert (1 ≤ n)%nat as Hn1 by lia.
  pose proof (mtranspose_square n q Hn1 Hq) as HqT.
  pose proof (np_dot_square n q out Hn1 Hq Hout) as HP.
  set (A := np_dot (np_dot q out) (mtranspose q)) in *.
  pose proof (mtranspose_square n A Hn1 Hsq) as HAT.
  assert (∀ a b, (a < n)%nat → (b < n)%nat →
            rsum n (λ i, entry q i a * entry q i b)
            = if decide (a = b) then 1 else 0) as Hcols.
  { intros a b Ha Hb. rewrite <- (entry_np_eye n) by done. rewrite <- Hqq.
    rewrite (entry_np_dot n) by done. apply rsum_ext. intros k Hk.
    by rewrite (entry_mtranspose n). }
  assert (∀ i j, (i < n)%nat → (j < n)%nat →
            rsum n (λ k, entry A i k * entry A j k)
            = if decide (i = j) then 1 else 0) as Hrows.
  { intros i j Hi Hj. rewrite <- (entry_np_eye n) by done. rewrite <- Horth.
    rewrite (entry_np_dot n) by done. apply rsum_ext. intros k Hk.
    by rewrite (entry_mtranspose n). }
  assert (∀ l, (l < n)%nat →
            rsum n (λ i, entry q i 2 * entry (np_dot q out) i l) = 0) as H1.
  { intros l Hl.
    rewrite (rsum_ext n _ (λ i, entry q i 2 *
                                rsum n (λ m, entry q i m * entry out m l)))
      by (intros i Hi; by rewrite (entry_np_dot n q out)).
    rewrite rsum_exchange. apply rsum_all_zero.
    intros m Hm. rewrite Hcols by lia.
    destruct (decide (2%nat = m)) as [<-|_]; [rewrite Hrow|]; ring. }
  assert (∀ k, (k < n)%nat → rsum n (λ i, entry q i 2 * entry A i k) = 0) as H2.
  { intros k Hk.
    rewrite (rsum_ext n _ (λ i, entry q i 2 *
                                rsum n (λ l, entry (np_dot q out) i l
                                             * entry q k l))).
    2:{ intros i Hi. unfold A. rewrite (entry_np_dot n) by done.
        f_equal. apply rsum_ext. intros l Hl.
        by rewrite (entry_mtranspose n). }
    rewrite rsum_exchange. apply rsum_all_zero.
    intros l Hl. rewrite H1 by done. ring. }
  assert (∀ j, (j < n)%nat → entry q j 2 = 0) as H3.
  { intros j Hj.
    assert (rsum n (λ i, entry q i 2 * rsum n (λ k, entry A i k * entry A j k))
            = entry q j 2) as <-.
    { rewrite (rsum_ext n _ (λ i, entry q i 2 *
                                  if decide (i = j) then 1 else 0))
        by (intros i Hi; by rewrite Hrows).
      clear -Hj. induction n as [|n IH]; [lia|]. simpl.
      destruct (decide (n = j)) as [->|Hne].
      - rewrite rsum_all_zero; [ring|].
        intros i Hi. destruct (decide (i = j)); [lia|ring].
      - rewrite IH by lia. ring. }
    rewrite rsum_exchange. apply rsum_all_zero.
    intros k Hk. rewrite H2 by done. ring. }
  pose proof (Hcols 2%nat 2%nat ltac:(lia) ltac:(lia)) as Hunit.
  rewrite rsum_all_zero in Hunit
    by (intros i Hi; rewrite H3 by done; ring).
  simpl in Hunit. lra.
Qed.

Lemma assign_top_left_padded (n : nat) (rot : fmatrix (F:=R)) :
  (3 ≤ n)%nat → square 2 rot →
  ∃ out, assign_top_left (np_zeros2 n n) rot = Ok out ∧ square n out ∧
         ∀ l, entry out 2 l = 0.
Proof.
  intros Hn Hrot.
  destruct (assign_top_left_zeros n rot) as (out & Hout & Hsq); [lia|done|].
  exists out. split; [done|]. split; [done|].
  destruct (square_2_inv rot Hrot) as (a & b & c & d & ->).
  destruct n as [|[|[|n]]]; [lia..|].
  unfold np_zeros2 in Hout. simpl in Hout. injection Hout as <-.
  intros l. unfold entry. simpl.
  destruct l as [|[|[|l]]]; simpl; try reflexivity.
  match goal with
  | |- default 0 (?row !! l) = 0 => destruct (row !! l) as [x|] eqn:E
  end; [|reflexivity].
  apply lookup_replicate in E as [-> _]. reflexivity.
Qed.

Variable rng : Type.
Variable np_random_rand : rng → R * rng.
Variable np_random_randn : nat → nat → rng → fmatrix (F:=R) * rng.
Variable np_linalg_qr : fmatrix (F:=R) → fmatrix (F:=R) * fmatrix (F:=R).

(** X28. In three and more dimensions the result of random_rotation is
    never orthogonal, so it is no rotation: the planar rotation is written
    into an array of zeros (np.zeros, not np.eye), which leaves the
    n x n matrix q out q^T with rank two, whatever the angle and the
    samples are.  This holds in exact arithmetic for every q with
    orthonormal columns. *)
Theorem random_rotation_padded_not_orthogonal (n : nat) (theta : option R)
    (s : rng) :
  (3 ≤ n)%nat →
  randn_contract rng np_random_randn →
  qr_contract np_linalg_qr n →
  ∃ A s',
    random_rotation rng np_random_rand np_random_randn np_linalg_qr n theta s
    = Ok (A, s') ∧
    square n A ∧ ¬ orthogonal n A.
Proof.
  intros Hn Hrandn Hqr. unfold random_rotation.
  destruct (match theta with
            | Some t => (t, s)
            | None => let '(u, s0) := np_random_rand s in
                      (f_mul (f_mul (f_dec 5 (-1)) f_pi) u, s0)
            end) as [t s1].
  destruct (decide (n = 1%nat)) as [->|_]; [lia|].
  destruct (assign_top_left_padded n (rotation2 t))
    as (out & -> & Hout & Hrow);
    [done|split; [reflexivity|repeat constructor]|].
  simpl.
  destruct (np_random_randn n n s1) as [a s2] eqn:Ea.
  pose proof (Hrandn n s1) as Hsq. rewrite Ea in Hsq. simpl in Hsq.
  destruct (Hqr a Hsq) as [Hq Hqq].
  eexists _, _. split; [reflexivity|]. split.
  - apply np_dot_square; [lia| |apply mtranspose_square; [lia|done]].
    apply np_dot_square; [lia|done..].
  - by apply padded_conjugate_not_orthogonal.
Qed.

End rotation_padded.

Lemma qr_identity_contract_3 : qr_contract (qr_identity 3) 3.
Proof.
  intros a _. simpl. split; [split; [reflexivity|repeat constructor]|].
  unfold np_dot, mtranspose, np_eye, np_sum. simpl.
  repeat f_equal; ring.
Qed.

Lemma random_rotation_padded_not_orthogonal_witness :
  (3 ≤ 3)%nat ∧
  randn_contract unit sample_zeros ∧
  qr_contract (qr_identity 3) 3 ∧
  ∃ A s',
    random_rotation unit sample_half sample_zeros (qr_identity 3) 3
      (Some 0%R) tt = Ok (A, s') ∧
    square 3 A ∧ ¬ orthogonal 3 A.
Proof.
  assert (3 ≤ 3)%nat as Hn by lia.
  split; [exact Hn|].
  split; [exact sample_zeros_contract|].
  split; [exact qr_identity_contract_3|].
  exact (random_rotation_padded_not_orthogonal unit sample_half sample_zeros
           (qr_identity 3) 3 (Some 0%R) tt Hn
           sample_zeros_contract qr_identity_contract_3).
Defined.

(** ** random_rotation: what it returns for each size *)

Section rotation_claim.

Local Open Scope R_scope.

Variable rng : Type.
Variable np_random_rand : rng → R * rng.
Variable np_random_randn : nat → nat → rng → fmatrix (F:=R) * rng.
Variable np_linalg_qr : fmatrix (F:=R) → fmatrix (F:=R) * fmatrix (F:=R).

(** The function, with the angle of lines 64 to 66 named. *)
Lemma random_rotation_angle (n : nat) (theta : option R) (s : rng) :
  random_rotation rng np_random_rand np_random_randn np_linalg_qr n theta s
  = let t := (rotation_angle rng np_random_rand theta s).1 in
    let s1 := (rotation_angle rng np_random_rand theta s).2 in
    if decide (n = 1%nat) then
      Ok ([[(np_random_rand s1).1 * 1]], (np_random_rand s1).2)
    else
      out ← assign_top_left (np_zeros2 n n) (rotation2 t);
      let q := (np_linalg_qr (np_random_randn n n s1).1).1 in
      Ok (np_dot (np_dot q out) (mtranspose q), (np_random_randn n n s1).2).
Proof.
  unfold random_rotation, rotation_angle.
  destruct theta as [t|]; [|destruct (np_random_rand s) as [u s0]]; simpl.
  all: destruct (decide (n = 1%nat)) as [_|_].
  all: try (destruct (np_random_rand _) as [u' s']; reflexivity).
  all: destruct (assign_top_left _ _) as [out|e]; simpl; [|reflexivity].
  all: destruct (np_random_randn n n _) as [a s']; reflexivity.
Qed.

Lemma rotation_angle_sampled (s : rng) :
  rand_contract np_random_rand →
  (rotation_angle rng np_random_rand None s).1
  = 5 / 10 * PI * (np_random_rand s).1 ∧
  0 <= (rotation_angle rng np_random_rand None s).1 < PI / 2.
Proof.
  intros Hrand. unfold rotation_angle. pose proof (Hrand s) as Hu.
  destruct (np_random_rand s) as [u s0]. simpl in *.
  pose proof PI_RGT_0 as Hpi.
  assert (5 * / (10 * 1) * PI * u = 5 / 10 * PI * u) as -> by (field; lra).
  split; [reflexivity|]. nra.
Qed.

(** C9, as the code behaves. In exact arithmetic and with q the
    orthogonal factor that numpy's QR decomposition gives for the sampled
    Gaussian matrix, and t the supplied angle, or half of pi times a draw
    from [0, 1) when none is supplied:
    random_rotation(2, theta) returns q R(t) q^T, which is orthogonal;
    for every n >= 3 random_rotation(n, theta) returns an n x n matrix
    that is NOT orthogonal, because line 72 pads the 2 x 2 rotation with
    zeros and not with the identity; and random_rotation(1, theta) returns
    the 1 x 1 matrix [u] for a draw u of [0, 1), not orthogonal either. *)
Theorem random_rotation_orthogonal (n : nat) (theta : option R) (s : rng) :
  rand_contract np_random_rand →
  randn_contract rng np_random_randn →
  qr_contract np_linalg_qr 2 →
  qr_contract np_linalg_qr n →
  (3 ≤ n)%nat →
  let t := (rotation_angle rng np_random_rand theta s).1 in
  let s1 := (rotation_angle rng np_random_rand theta s).2 in
  ((∀ t', theta = Some t' → t = t' ∧ s1 = s) ∧
   (theta = None →
    t = 5 / 10 * PI * (np_random_rand s).1 ∧ 0 <= t < PI / 2 ∧
    s1 = (np_random_rand s).2)) ∧
  (let q := (np_linalg_qr (np_random_randn 2 2 s1).1).1 in
   random_rotation rng np_random_rand np_random_randn np_linalg_qr 2 theta s
   = Ok (np_dot (np_dot q (rotation2 t)) (mtranspose q),
         (np_random_randn 2 2 s1).2) ∧
   orthogonal 2 (np_dot (np_dot q (rotation2 t)) (mtranspose q))) ∧
  (∃ out A,
     assign_top_left (np_zeros2 n n) (rotation2 t) = Ok out ∧
     (∀ l, entry out 2 l = 0) ∧
     let q := (np_linalg_qr (np_random_randn n n s1).1).1 in
     A = np_dot (np_dot q out) (mtranspose q) ∧
     random_rotation rng np_random_rand np_random_randn np_linalg_qr n theta s
     = Ok (A, (np_random_randn n n s1).2) ∧
     square n A ∧ ¬ orthogonal n A) ∧
  (let u := (np_random_rand s1).1 in
   random_rotation rng np_random_rand np_random_randn np_linalg_qr 1 theta s
   = Ok ([[u * 1]], (np_random_rand s1).2) ∧
   0 <= u < 1 ∧ ¬ orthogonal 1 [[u * 1]]).
Proof.
  intros Hrand Hrandn Hqr2 Hqrn Hn t s1.
  split; [|split; [|split]].
  - split.
    + intros t' ->. done.
    + intros ->. destruct (rotation_angle_sampled s Hrand) as [Ht Hr].
      split; [exact Ht|]. split; [exact Hr|].
      unfold s1, rotation_angle. by destruct (np_random_rand s).
  - intros q. rewrite random_rotation_angle. fold t s1. simpl.
    split; [reflexivity|].
    pose proof (Hrandn 2%nat s1) as Hsq.
    destruct (Hqr2 _ Hsq) as [Hq Hqq]. fold q in Hq, Hqq.
    destruct (square_2_inv q Hq) as (a & b & c & d & Eq). rewrite Eq in *.
    by apply conjugate_rotation_orthogonal.
  - destruct (assign_top_left_padded n (rotation2 t))
      as (out & Hout & Hsq & Hrow);
      [done|split; [reflexivity|repeat constructor]|].
    pose proof (Hrandn n s1) as Hsqa.
    destruct (Hqrn _ Hsqa) as [Hq Hqq].
    exists out, (np_dot (np_dot (np_linalg_qr (np_random_randn n n s1).1).1 out)
                   (mtranspose (np_linalg_qr (np_random_randn n n s1).1).1)).
    split; [exact Hout|]. split; [exact Hrow|]. split; [reflexivity|].
    split.
    { rewrite random_rotation_angle. fold t s1.
      destruct (decide (n = 1%nat)) as [->|_]; [lia|].
      cbv zeta. rewrite Hout. reflexivity. }
    split.
    + apply np_dot_square; [lia| |apply mtranspose_square; [lia|done]].
      apply np_dot_square; [lia|done..].
    + by apply padded_conjugate_not_orthogonal.
  - intros u. rewrite random_rotation_angle. fold t s1. simpl.
    split; [reflexivity|]. pose proof (Hrand s1) as Hu. fold u in Hu.
    split; [exact Hu|].
    intros [_ Horth]. unfold np_dot, mtranspose, np_eye, np_sum in Horth.
    simpl in Horth. injection Horth as Horth. nra.
Qed.

End rotation_claim.

Lemma qr_eye_contract_2 : qr_contract qr_eye 2.
Proof.
  intros a [Hlen _]. unfold qr_eye. simpl. rewrite Hlen.
  split; [split; [reflexivity|repeat constructor]|].
  unfold np_dot, mtranspose, np_eye, np_sum. simpl.
  repeat f_equal; ring.
Qed.

Lemma qr_eye_contract_3 : qr_contract qr_eye 3.
Proof.
  intros a [Hlen _]. unfold qr_eye. simpl. rewrite Hlen.
  split; [split; [reflexivity|repeat constructor]|].
  unfold np_dot, mtranspose, np_eye, np_sum. simpl.
  repeat f_equal; ring.
Qed.

Lemma random_rotation_orthogonal_witness :
  rand_contract sample_half ∧
  randn_contract unit sample_zeros ∧
  qr_contract qr_eye 2 ∧
  qr_contract qr_eye 3 ∧
  (3 ≤ 3)%nat ∧
  let t := (rotation_angle unit sample_half None tt).1 in
  let s1 := (rotation_angle unit sample_half None tt).2 in
  ((∀ t', None = Some t' → t = t' ∧ s1 = tt) ∧
   (@None R = None →
    t = (5 / 10 * PI * (sample_half tt).1)%R ∧ (0 <= t < PI / 2)%R ∧
    s1 = (sample_half tt).2)) ∧
  (let q := (qr_eye (sample_zeros 2 2 s1).1).1 in
   random_rotation unit sample_half sample_zeros qr_eye 2 None tt
   = Ok (np_dot (np_dot q (rotation2 t)) (mtranspose q),
         (sample_zeros 2 2 s1).2) ∧
   orthogonal 2 (np_dot (np_dot q (rotation2 t)) (mtranspose q))) ∧
  (∃ out A,
     assign_top_left (np_zeros2 3 3) (rotation2 t) = Ok out ∧
     (∀ l, entry out 2 l = 0%R) ∧
     let q := (qr_eye (sample_zeros 3 3 s1).1).1 in
     A = np_dot (np_dot q out) (mtranspose q) ∧
     random_rotation unit sample_half sample_zeros qr_eye 3 None tt
     = Ok (A, (sample_zeros 3 3 s1).2) ∧
     square 3 A ∧ ¬ orthogonal 3 A) ∧
  (let u := (sample_half s1).1 in
   random_rotation unit sample_half sample_zeros qr_eye 1 None tt
   = Ok ([[(u * 1)%R]], (sample_half s1).2) ∧
   (0 <= u < 1)%R ∧ ¬ orthogonal 1 [[(u * 1)%R]]).
Proof.
  assert (3 ≤ 3)%nat as Hn by lia.
  split; [exact sample_half_contract|].
  split; [exact sample_zeros_contract|].
  split; [exact qr_eye_contract_2|].
  split; [exact qr_eye_contract_3|].
  split; [exact Hn|].
  exact (random_rotation_orthogonal unit sample_half sample_zeros qr_eye
           3 None tt sample_half_contract sample_zeros_contract
           qr_eye_contract_2 qr_eye_contract_3 Hn).
Defined.
